(** * cobsea_libs::CircularArray — a shallow embedding and its properties

    Source: [src/cobsea_libs/circular_array.h].

    The class owns a heap array through the raw pointer [data_array_] and keeps
    four [size_t] fields.  The embedding keeps both aspects:

    - [size_t] is a 64-bit unsigned integer, modelled as [Z] with every
      arithmetic result reduced by [wrap];
    - the free store is an explicit [heap]; [data_array_] is an address into it
      (or [nullptr]), so that two containers can be asked whether they share a
      backing store;
    - a method is a computation in the monad [M], which threads the heap and
      ends in [Done], in [BadAlloc] (an exception thrown by [new]) or in
      [Undefined] (C++ undefined behaviour: access through a null, dangling or
      out-of-range pointer, division by zero, double delete).

    The nested [iterator] class stores a container pointer and a logical index
    and dereferences through [operator[]]; its comparisons, dereference,
    pre-increment and pre-decrement are modelled.  Its post-increment and
    post-decrement return a reference to a local object and are left out.

    The move constructor assigns to members of a parameter declared const; the
    embedding keeps the qualifier, so that the constructor as written yields no
    program ([CircularArray_move]). *)

From stdpp Require Import base numbers option list.
From Stdlib Require Import ZArith Lia.

Open Scope Z_scope.

(** ** Machine integers *)

Definition size_t_modulus : Z := 2 ^ 64.

(** Result of unsigned [size_t] arithmetic. *)
Definition wrap (z : Z) : Z := z mod size_t_modulus.

(** Largest array [new T[n]] can return: [PTRDIFF_MAX] elements of at least one
    byte each.  A larger request throws. *)
Definition max_array_len : Z := 2 ^ 63 - 1.

(** ** Outcomes and the heap monad *)

Inductive outcome (A : Type) : Type :=
| Done (a : A)
| BadAlloc
| Undefined.
Arguments Done {A} a.
Arguments BadAlloc {A}.
Arguments Undefined {A}.

(** The free store: a block per address ever handed out; [None] once it was
    deleted. *)
Abbreviation heap V := (list (option (list V))).

Section Model.

Context {V : Type}.
(** What a freshly allocated slot holds: [ValueType()] for class types, some
    fixed value otherwise.  For a scalar type the source leaves a fresh slot
    indeterminate; every statement below holds for every choice of [dflt]. *)
Context (dflt : V).

Definition M (A : Type) : Type := heap V -> outcome (A * heap V).

Definition ret {A} (a : A) : M A := fun h => Done (a, h).

Definition bind {A B} (m : M A) (f : A -> M B) : M B :=
  fun h => match m h with
           | Done (a, h') => f a h'
           | BadAlloc => BadAlloc
           | Undefined => Undefined
           end.

Definition undefined {A} : M A := fun _ => Undefined.

#[local] Instance M_ret : MRet M := @ret.
#[local] Instance M_bind : MBind M := fun A B f m => bind m f.

(** A reference [T&]: the array it points into and the element's offset. *)
Record ref : Type := mkref { r_block : nat; r_off : Z }.

(** The block an address designates, if it is still allocated. *)
Definition live (h : heap V) (a : nat) : option (list V) :=
  match h !! a with
  | Some (Some blk) => Some blk
  | _ => None
  end.

Definition in_block (blk : list V) (i : Z) : bool :=
  (0 <=? i) && (i <? Z.of_nat (length blk)).

(** [new ValueType[n]]: a fresh address holding [n] slots of [dflt]; [n] may
    be 0.  A request beyond [max_array_len] elements throws.  Memory is not
    otherwise limited: an implementation may refuse a smaller request as well
    (elements wider than a byte, memory exhausted), so where a statement says
    that the code returns, the bound it assumes on the count stands for the
    request being granted. *)
Definition new (n : Z) : M (option nat) :=
  fun h => if n <=? max_array_len
           then Done (Some (length h), h ++ [Some (replicate (Z.to_nat n) dflt)])
           else BadAlloc.

(** [delete [] p]; deleting a null pointer does nothing. *)
Definition delete_array (p : option nat) : M unit :=
  fun h => match p with
           | Some a => match live h a with
                       | Some _ => Done (tt, <[a := None]> h)
                       | None => Undefined
                       end
           | None => Done (tt, h)
           end.

(** [p[i]] as an lvalue *)
Definition subscript (p : option nat) (i : Z) : M ref :=
  fun h => match p with
           | Some a => match live h a with
                       | Some blk => if in_block blk i then Done (mkref a i, h)
                                     else Undefined
                       | None => Undefined
                       end
           | None => Undefined
           end.

(** Reading through a reference. *)
Definition read (r : ref) : M V :=
  fun h => match live h (r_block r) with
           | Some blk => match blk !! Z.to_nat (r_off r) with
                         | Some v => if in_block blk (r_off r) then Done (v, h)
                                     else Undefined
                         | None => Undefined
                         end
           | None => Undefined
           end.

(** Assigning through a reference. *)
Definition write (r : ref) (v : V) : M unit :=
  fun h => match live h (r_block r) with
           | Some blk =>
               if in_block blk (r_off r)
               then Done (tt, <[r_block r := Some (<[Z.to_nat (r_off r) := v]> blk)]> h)
               else Undefined
           | None => Undefined
           end.

(** [a % b] on [size_t] *)
Definition umod (a b : Z) : M Z :=
  if b =? 0 then undefined else ret (a mod b).

(** [for (size_t i = lo; i < hi; i++) body(i)].  The counter cannot wrap
    before the test fails, because [hi] is itself a [size_t]. *)
Fixpoint for_up_from (lo : Z) (n : nat) (body : Z -> M unit) : M unit :=
  match n with
  | O => ret tt
  | S n' => body lo;; for_up_from (lo + 1) n' body
  end.

Definition for_up (lo hi : Z) (body : Z -> M unit) : M unit :=
  for_up_from lo (Z.to_nat (hi - lo)) body.

(** [for (size_t i = hi; i > lo; i--) body(i)] *)
Fixpoint for_down_from (hi : Z) (n : nat) (body : Z -> M unit) : M unit :=
  match n with
  | O => ret tt
  | S n' => body hi;; for_down_from (hi - 1) n' body
  end.

Definition for_down (hi lo : Z) (body : Z -> M unit) : M unit :=
  for_down_from hi (Z.to_nat (hi - lo)) body.

(** ** The class *)

Record CircularArray : Type := mkCA {
  data_array_ : option nat;
  head_ : Z;
  tail_ : Z;
  size_ : Z;
  capacity_ : Z
}.

Definition set_head (c : CircularArray) (x : Z) : CircularArray :=
  mkCA (data_array_ c) x (tail_ c) (size_ c) (capacity_ c).
Definition set_tail (c : CircularArray) (x : Z) : CircularArray :=
  mkCA (data_array_ c) (head_ c) x (size_ c) (capacity_ c).
Definition set_size (c : CircularArray) (x : Z) : CircularArray :=
  mkCA (data_array_ c) (head_ c) (tail_ c) x (capacity_ c).
Definition set_data_array (c : CircularArray) (p : option nat) : CircularArray :=
  mkCA p (head_ c) (tail_ c) (size_ c) (capacity_ c).
Definition set_capacity (c : CircularArray) (x : Z) : CircularArray :=
  mkCA (data_array_ c) (head_ c) (tail_ c) (size_ c) x.

(** [CircularArray()] *)
Definition CircularArray_default : CircularArray := mkCA None 0 0 0 0.

(** [CircularArray(size_t _capacity)] *)
Definition CircularArray_sized (_capacity : Z) : M CircularArray :=
  p ← new _capacity;
  ret (mkCA p 0 0 0 _capacity).

(** [CircularArray(size_t _capacity, ValueType _val)] *)
Definition CircularArray_fill (_capacity : Z) (_val : V) : M CircularArray :=
  p ← new _capacity;
  for_up 0 _capacity (fun i => r ← subscript p i; write r _val);;
  ret (mkCA p 0 (wrap (_capacity - 1)) _capacity _capacity).

(** [operator[]] *)
Definition index (this : CircularArray) (_index : Z) : M ref :=
  k ← umod (wrap (head_ this + _index)) (capacity_ this);
  subscript (data_array_ this) k.

(** [CircularArray(CircularArray const & other)] *)
Definition CircularArray_copy (other : CircularArray) : M CircularArray :=
  p ← new (size_ other);
  for_up 0 (size_ other)
    (fun i => src ← index other i; v ← read src;
              dst ← subscript p i; write dst v);;
  ret (mkCA p 0 (wrap (size_ other - 1)) (size_ other) (size_ other)).

(** Whether a reference parameter is declared [const]. *)
Inductive cv : Type := cv_none | cv_const.

(** An assignment [other.member = x] to a member of a reference parameter
    qualified [q]; [updated] is [other] with the member set.  Through a
    reference to const the assignment is ill-formed: the function cannot be
    instantiated and there is nothing to run, which is [None]. *)
Definition assign_member (q : cv) (updated : CircularArray) : option CircularArray :=
  match q with
  | cv_none => Some updated
  | cv_const => None
  end.

(** The text of the move constructor for a parameter [other] qualified [q]:
    the member initialisers, then the three assignments to members of [other].
    The result is the new object and what is left of [other]. *)
Definition move_construct (q : cv) (other : CircularArray)
    : option (CircularArray * CircularArray) :=
  let this := mkCA (data_array_ other) (head_ other) (tail_ other) (size_ other)
                   (capacity_ other) in
  match assign_member q (set_data_array other None) with
  | Some other =>
      match assign_member q (set_size other 0) with
      | Some other =>
          match assign_member q (set_capacity other 0) with
          | Some other => Some (this, other)
          | None => None
          end
      | None => None
      end
  | None => None
  end.

(** [CircularArray(CircularArray const && other)]: the parameter is a
    reference to const. *)
Definition CircularArray_move (other : CircularArray)
    : option (CircularArray * CircularArray) :=
  move_construct cv_const other.

(** [~CircularArray()] *)
Definition destroy (this : CircularArray) : M unit :=
  match data_array_ this with
  | Some a => delete_array (Some a)
  | None => ret tt
  end.

Definition ExtandArray (this : CircularArray) : M CircularArray :=
  let this := if capacity_ this =? 0
              then mkCA (data_array_ this) (head_ this) (tail_ this) (size_ this) 1
              else this in
  new_array ← new (wrap (capacity_ this * 2));
  for_up 0 (size_ this)
    (fun i => k ← umod (wrap (head_ this + i)) (capacity_ this);
              src ← subscript (data_array_ this) k; v ← read src;
              dst ← subscript new_array i; write dst v);;
  match data_array_ this with
  | Some a => delete_array (Some a)
  | None => ret tt
  end;;
  ret (mkCA new_array 0 (size_ this) (size_ this) (wrap (capacity_ this * 2))).

Definition grow_if_full (this : CircularArray) : M CircularArray :=
  if size_ this =? capacity_ this then ExtandArray this else ret this.

Definition PushFront (_val : V) (this : CircularArray) : M CircularArray :=
  this ← grow_if_full this;
  let this := if head_ this =? 0
              then set_head this (wrap (capacity_ this - 1))
              else set_head this (wrap (head_ this - 1)) in
  r ← subscript (data_array_ this) (head_ this); write r _val;;
  ret (set_size this (wrap (size_ this + 1))).

Definition PushBack (_val : V) (this : CircularArray) : M CircularArray :=
  this ← grow_if_full this;
  r ← subscript (data_array_ this) (tail_ this); write r _val;;
  t ← umod (wrap (tail_ this + 1)) (capacity_ this);
  let this := set_tail this t in
  ret (set_size this (wrap (size_ this + 1))).

Definition PopFront (this : CircularArray) : M CircularArray :=
  hd ← umod (wrap (head_ this + 1)) (capacity_ this);
  let this := set_head this hd in
  ret (set_size this (wrap (size_ this - 1))).

Definition PopBack (this : CircularArray) : M CircularArray :=
  let this := if tail_ this =? 0
              then set_tail this (wrap (capacity_ this - 1))
              else set_tail this (wrap (tail_ this - 1)) in
  ret (set_size this (wrap (size_ this - 1))).

Definition Front (this : CircularArray) : M ref :=
  subscript (data_array_ this) (head_ this).

Definition Back (this : CircularArray) : M ref :=
  subscript (data_array_ this)
    (if negb (tail_ this =? 0) then wrap (tail_ this - 1) else wrap (capacity_ this - 1)).

Definition InsertAt (_val : V) (_pos : Z) (this : CircularArray) : M CircularArray :=
  this ← grow_if_full this;
  for_down (size_ this) _pos
    (fun i => src ← index this (wrap (i - 1)); v ← read src;
              k ← umod (wrap (head_ this + i)) (capacity_ this);
              dst ← subscript (data_array_ this) k; write dst v);;
  k ← umod (wrap (head_ this + _pos)) (capacity_ this);
  r ← subscript (data_array_ this) k; write r _val;;
  t ← umod (wrap (tail_ this + 1)) (capacity_ this);
  let this := set_tail this t in
  ret (set_size this (wrap (size_ this + 1))).

Definition RemoveAt (_pos : Z) (this : CircularArray) : M CircularArray :=
  for_up _pos (size_ this)
    (fun i => src ← index this (wrap (i + 1)); v ← read src;
              k ← umod (wrap (head_ this + i)) (capacity_ this);
              dst ← subscript (data_array_ this) k; write dst v);;
  PopBack this.

Definition Size (this : CircularArray) : Z := size_ this.
Definition Capacity (this : CircularArray) : Z := capacity_ this.
Definition Empty (this : CircularArray) : bool := size_ this =? 0.

(** ** Client code used in the statements *)

(** The element [operator[](i)] designates, read as a value. *)
Definition value_at (this : CircularArray) (i : Z) : M V :=
  r ← index this i; read r.

Fixpoint values_from (this : CircularArray) (i : Z) (n : nat) : M (list V) :=
  match n with
  | O => ret []
  | S n' => v ← value_at this i; vs ← values_from this (i + 1) n'; ret (v :: vs)
  end.

(** The logical sequence: the elements at indices [0], ..., [Size() - 1]. *)
Definition to_list (this : CircularArray) : M (list V) :=
  values_from this 0 (Z.to_nat (Size this)).

Fixpoint push_back_all (vs : list V) (this : CircularArray) : M CircularArray :=
  match vs with
  | [] => ret this
  | v :: vs' => this ← PushBack v this; push_back_all vs' this
  end.

Fixpoint push_front_all (vs : list V) (this : CircularArray) : M CircularArray :=
  match vs with
  | [] => ret this
  | v :: vs' => this ← PushFront v this; push_front_all vs' this
  end.

(** [n] times: read [Front()], then [PopFront()]. *)
Fixpoint drain_front (n : nat) (this : CircularArray) : M (list V * CircularArray) :=
  match n with
  | O => ret ([], this)
  | S n' => r ← Front this; v ← read r;
            this ← PopFront this;
            rest ← drain_front n' this;
            ret (v :: fst rest, snd rest)
  end.

(** [n] times: read [Back()], then [PopBack()]. *)
Fixpoint drain_back (n : nat) (this : CircularArray) : M (list V * CircularArray) :=
  match n with
  | O => ret ([], this)
  | S n' => r ← Back this; v ← read r;
            this ← PopBack this;
            rest ← drain_back n' this;
            ret (v :: fst rest, snd rest)
  end.

(** The mutating interface, as data. *)
Inductive op : Type :=
| OpPushFront (v : V)
| OpPushBack (v : V)
| OpPopFront
| OpPopBack
| OpInsertAt (v : V) (pos : Z)
| OpRemoveAt (pos : Z).

(** The documented precondition of each operation. *)
Definition pre (o : op) (this : CircularArray) : bool :=
  match o with
  | OpPushFront _ | OpPushBack _ => true
  | OpPopFront | OpPopBack => 0 <? size_ this
  | OpInsertAt _ pos => (0 <=? pos) && (pos <=? size_ this)
  | OpRemoveAt pos => (0 <=? pos) && (pos <? size_ this)
  end.

Definition run_op (o : op) (this : CircularArray) : M CircularArray :=
  match o with
  | OpPushFront v => PushFront v this
  | OpPushBack v => PushBack v this
  | OpPopFront => PopFront this
  | OpPopBack => PopBack this
  | OpInsertAt v pos => InsertAt v pos this
  | OpRemoveAt pos => RemoveAt pos this
  end.

Fixpoint run_ops (os : list op) (this : CircularArray) : M CircularArray :=
  match os with
  | [] => ret this
  | o :: os' => this ← run_op o this; run_ops os' this
  end.

(** States a program can bring a container into: any constructor, then
    operations called within their preconditions.  The heap may meanwhile be
    changed by the rest of the program, as long as the container's own array is
    left alone.  The move constructor is taken with either qualification of its
    parameter; with the one declared it contributes no state. *)
Inductive reachable : CircularArray -> heap V -> Prop :=
| reach_default h :
    reachable CircularArray_default h
| reach_sized n h c h' :
    0 <= n < size_t_modulus ->
    CircularArray_sized n h = Done (c, h') -> reachable c h'
| reach_fill n v h c h' :
    0 <= n < size_t_modulus ->
    CircularArray_fill n v h = Done (c, h') -> reachable c h'
| reach_copy other h c h' :
    reachable other h ->
    CircularArray_copy other h = Done (c, h') -> reachable c h'
| reach_move_new q other h this other' :
    reachable other h -> move_construct q other = Some (this, other') ->
    reachable this h
| reach_move_source q other h this other' :
    reachable other h -> move_construct q other = Some (this, other') ->
    reachable other' h
| reach_op o c h c' h' :
    reachable c h -> pre o c = true ->
    run_op o c h = Done (c', h') -> reachable c' h'
| reach_frame c h h' :
    reachable c h ->
    (forall a, data_array_ c = Some a -> live h' a = live h a) ->
    reachable c h'.

(** ** Specification vocabulary *)

(** Physical index of logical index [i]. *)
Definition slot (c : CircularArray) (i : Z) : Z :=
  (head_ c + i) mod capacity_ c.

(** The tail pointer designates the slot after the last element. *)
Definition tail_ok (c : CircularArray) : Prop :=
  capacity_ c <> 0 -> tail_ c = slot c (size_ c).

(** [c] is a container whose backing store is the array [blk]. *)
Record wf (c : CircularArray) (h : heap V) (blk : list V) : Prop := mkwf {
  wf_block : match data_array_ c with
             | Some a => live h a = Some blk
             | None => blk = []
             end;
  wf_len : Z.of_nat (length blk) = capacity_ c;
  wf_cap : capacity_ c <= max_array_len;
  wf_size : 0 <= size_ c <= capacity_ c;
  wf_head : capacity_ c <> 0 -> 0 <= head_ c < capacity_ c
}.

(** [c] holds the logical sequence [xs]. *)
Definition repr (c : CircularArray) (h : heap V) (xs : list V) : Prop :=
  exists blk, wf c h blk /\ size_ c = Z.of_nat (length xs) /\
    forall i : nat, (i < length xs)%nat ->
      blk !! Z.to_nat (slot c (Z.of_nat i)) = xs !! i.

(** The sequence [xs] with [v] put at index [p]; stdpp's [delete p xs] is the
    sequence with index [p] taken out. *)
Definition insert_at (p : nat) (v : V) (xs : list V) : list V :=
  take p xs ++ v :: drop p xs.

(** The deque an operation is meant to implement, on the logical sequence
    (the Effect column of the operations table). *)
Definition apply_op (o : op) (xs : list V) : list V :=
  match o with
  | OpPushFront v => v :: xs
  | OpPushBack v => xs ++ [v]
  | OpPopFront => drop 1 xs
  | OpPopBack => take (length xs - 1) xs
  | OpInsertAt v pos => insert_at (Z.to_nat pos) v xs
  | OpRemoveAt pos => delete (Z.to_nat pos) xs
  end.

(** The precondition of an operation, on the logical sequence. *)
Definition pre_seq (o : op) (xs : list V) : bool :=
  match o with
  | OpPushFront _ | OpPushBack _ => true
  | OpPopFront | OpPopBack => 0 <? Z.of_nat (length xs)
  | OpInsertAt _ pos => (0 <=? pos) && (pos <=? Z.of_nat (length xs))
  | OpRemoveAt pos => (0 <=? pos) && (pos <? Z.of_nat (length xs))
  end.

(** A run of deque operations, each within its precondition. *)
Fixpoint apply_ops (os : list op) (xs : list V) : option (list V) :=
  match os with
  | [] => Some xs
  | o :: os' => if pre_seq o xs then apply_ops os' (apply_op o xs) else None
  end.

(** The operations that add an element, and so may grow the array. *)
Definition inserts (o : op) : bool :=
  match o with
  | OpPushFront _ | OpPushBack _ | OpInsertAt _ _ => true
  | OpPopFront | OpPopBack | OpRemoveAt _ => false
  end.

(** The request [ExtandArray] makes to [new] is granted. *)
Definition growth_fits (c : CircularArray) : Prop :=
  2 * Z.max 1 (capacity_ c) <= max_array_len.

(** Weakest precondition; [total = true] also demands a normal return. *)
Definition wp (total : bool) {A} (m : M A) (Q : A -> heap V -> Prop) (h : heap V) : Prop :=
  match m h with
  | Done (a, h') => Q a h'
  | _ => total = false
  end.

(** Partial-correctness triples under a heap invariant [I]: if [m] returns
    from a heap satisfying [I], the heap still satisfies [I] and the result
    satisfies [P]. *)
Definition hoare (I : heap V -> Prop) {A} (m : M A) (P : A -> Prop) : Prop :=
  forall h, I h -> wp false m (fun x h' => I h' /\ P x) h.

(** Since heap [h0], nothing but the array of [c] (and arrays allocated later)
    has changed. *)
Definition keeps (c : CircularArray) (h0 h : heap V) : Prop :=
  (length h0 <= length h)%nat /\
  forall a, (a < length h0)%nat -> data_array_ c <> Some a -> h !! a = h0 !! a.

(** The pointer [p] is [c]'s own array or one allocated after [h0]. *)
Definition mine (c : CircularArray) (h0 : heap V) (p : option nat) : Prop :=
  p = data_array_ c \/ exists a, p = Some a /\ (length h0 <= a)%nat.

(** What an operation on [c] may do to the heap: other arrays are kept, and
    [c]'s array afterwards is the old one or a new allocation. *)
Definition frame (c : CircularArray) (h : heap V) (c' : CircularArray) (h' : heap V) : Prop :=
  keeps c h h' /\ mine c h (data_array_ c').

(** The fields are within the bounds the allocator guarantees. *)
Definition bounded (c : CircularArray) : Prop :=
  0 <= size_ c <= capacity_ c /\ capacity_ c <= max_array_len.

End Model.

(** ** The nested iterator class and the life cycle of the arrays *)

Section Iterator.

Context {V : Type}.

#[local] Existing Instance M_ret.
#[local] Existing Instance M_bind.

(** [class iterator]: [array_ptr] is the address of a container object. *)
Record iterator : Type := mkit { array_ptr : nat; idx : Z }.

(** The container objects of the program, by address. *)
Abbreviation objects := (list CircularArray).

(** [iterator::operator==] *)
Definition iterator_eq (a b : iterator) : bool :=
  (array_ptr a =? array_ptr b)%nat && (idx a =? idx b).

(** [iterator::operator!=] *)
Definition iterator_neq (a b : iterator) : bool :=
  negb (array_ptr a =? array_ptr b)%nat || negb (idx a =? idx b).

(** [iterator::operator*]: indexes the container [array_ptr] points to. *)
Definition iterator_deref (objs : objects) (it : iterator) : M (V:=V) ref :=
  match objs !! array_ptr it with
  | Some this => index this (idx it)
  | None => undefined
  end.

(** [iterator::operator++()] *)
Definition iterator_incr (it : iterator) : iterator :=
  mkit (array_ptr it) (wrap (idx it + 1)).

(** [iterator::operator--()] *)
Definition iterator_decr (it : iterator) : iterator :=
  mkit (array_ptr it) (wrap (idx it - 1)).

(** [begin()] of the container at address [p] *)
Definition begin (p : nat) : iterator := mkit p 0.

(** [end()] of the container [this] at address [p] *)
Definition end_ (p : nat) (this : CircularArray) : iterator := mkit p (size_ this).

(** [for (it = a.begin(); it != a.end(); ++it) read *it], for the container at
    address [p]; [None] when [fuel] iterations did not reach [end()]. *)
Fixpoint traverse (fuel : nat) (objs : objects) (it : iterator) (p : nat)
    : M (option (list V)) :=
  match fuel with
  | O => ret None
  | S fuel' =>
      match objs !! p with
      | Some this =>
          if iterator_neq it (end_ p this)
          then r ← iterator_deref objs it; v ← read r;
               rest ← traverse fuel' objs (iterator_incr it) p;
               ret (cons v <$> rest)
          else ret (Some [])
      | None => undefined
      end
  end.

(** Number of arrays currently allocated. *)
Fixpoint live_blocks (h : heap V) : nat :=
  match h with
  | [] => 0
  | Some _ :: h' => S (live_blocks h')
  | None :: h' => live_blocks h'
  end.

(** Number of arrays the container holds: 1, or 0 for a null [data_array_]. *)
Definition owned (c : CircularArray) : nat :=
  match data_array_ c with
  | Some _ => 1
  | None => 0
  end.

(** A non-null [data_array_] points to an allocated array. *)
Definition owns (c : CircularArray) (h : heap V) : Prop :=
  forall a, data_array_ c = Some a -> is_Some (live h a).

(** Between [h0] and [h] nothing was allocated or released. *)
Definition steady (h0 h : heap V) : Prop :=
  length h = length h0 /\ live_blocks h = live_blocks h0 /\
  forall a, is_Some (live h a) <-> is_Some (live h0 a).

End Iterator.

(** ** Concrete containers over [Z], with 0 in fresh slots *)

(** The default-constructed container after [PushBack] of 1, 2 and 3. *)
Definition one_two_three : CircularArray := mkCA (Some 1%nat) 0 3 3 4.
Definition one_two_three_heap : heap Z := [None; Some [1; 2; 3; 0]].

(** A full container holding 5, 6 whose window wraps around the array. *)
Definition wrapped : CircularArray := mkCA (Some 0%nat) 1 1 2 2.
Definition wrapped_heap : heap Z := [Some [6; 5]].

(** * Proofs *)

Section Proofs.

Context {V : Type} (dflt : V).

#[local] Existing Instance M_ret.
#[local] Existing Instance M_bind.

Implicit Types (h : heap V) (c this : CircularArray) (blk : list V)
  (xs vs : list V) (a : nat) (i n : Z) (t : bool)
  (body : Z -> @M V unit).

(** ** Integer facts *)

Lemma wrap_small z : 0 <= z < size_t_modulus -> wrap z = z.
Proof. intros Hz. unfold wrap. apply Z.mod_small. exact Hz. Qed.

Lemma max_array_len_val : max_array_len = 9223372036854775807.
Proof. reflexivity. Qed.

Lemma size_t_modulus_val : size_t_modulus = 18446744073709551616.
Proof. reflexivity. Qed.

(** Either wrapped value the code computes for "one step back" is the
    predecessor modulo the capacity. *)
Lemma step_back_mod x m :
  0 < m -> 0 <= x < m ->
  (if x =? 0 then m - 1 else x - 1) = (x - 1) mod m.
Proof.
  intros Hm Hx. destruct (Z.eqb_spec x 0) as [->|Hne].
  - replace (0 - 1) with (-1 * m + (m - 1)) by lia.
    rewrite Z.add_comm, Z.mod_add by lia. rewrite Z.mod_small; lia.
  - rewrite Z.mod_small; lia.
Qed.

Lemma mod_succ_shift hd k m :
  0 < m -> ((hd + k) mod m + 1) mod m = (hd + (k + 1)) mod m.
Proof.
  intros Hm. rewrite Z.add_mod_idemp_l by lia. f_equal. lia.
Qed.

(** Distinct logical indices below the capacity occupy distinct slots. *)
Lemma slot_inj c i j :
  0 < capacity_ c -> 0 <= i < capacity_ c -> 0 <= j < capacity_ c ->
  slot c i = slot c j -> i = j.
Proof.
  unfold slot. intros Hm Hi Hj E.
  assert (D : (i - j) mod capacity_ c = 0).
  { replace (i - j) with ((head_ c + i) - (head_ c + j)) by lia.
    rewrite Zminus_mod, E, Z.sub_diag. apply Z.mod_0_l. lia. }
  apply Z.mod_divide in D; [|lia]. destruct D as [q Hq].
  assert (q = 0) by nia. lia.
Qed.

Lemma slot_range c i : 0 < capacity_ c -> 0 <= slot c i < capacity_ c.
Proof. intros. unfold slot. apply Z.mod_pos_bound. assumption. Qed.

(** ** Heap facts *)

Lemma live_lt h a blk : live h a = Some blk -> (a < length h)%nat.
Proof.
  unfold live. destruct (h !! a) as [o|] eqn:E; [|discriminate].
  intros _. eapply lookup_lt_Some. exact E.
Qed.

Lemma live_lookup h a blk : live h a = Some blk <-> h !! a = Some (Some blk).
Proof.
  unfold live. destruct (h !! a) as [[b|]|]; split; congruence.
Qed.

Lemma live_insert_eq h a o : (a < length h)%nat -> live (<[a := o]> h) a = o.
Proof.
  intros Hlt. unfold live. rewrite list_lookup_insert_eq by exact Hlt.
  destruct o; reflexivity.
Qed.

Lemma live_insert_ne h a a' o : a <> a' -> live (<[a := o]> h) a' = live h a'.
Proof. intros Hne. unfold live. rewrite list_lookup_insert_ne by exact Hne. reflexivity. Qed.

Lemma live_app_old h a o : (a < length h)%nat -> live (h ++ [o]) a = live h a.
Proof. intros Hlt. unfold live. rewrite lookup_app_l by exact Hlt. reflexivity. Qed.

Lemma live_app_new h o : live (h ++ [o]) (length h) = o.
Proof.
  unfold live. rewrite lookup_app_r by lia. rewrite Nat.sub_diag. simpl.
  destruct o; reflexivity.
Qed.

Lemma in_block_true blk i : in_block blk i = true <-> 0 <= i < Z.of_nat (length blk).
Proof. unfold in_block. rewrite andb_true_iff, Z.leb_le, Z.ltb_lt. reflexivity. Qed.

(** ** Rules of the weakest-precondition calculus *)

Lemma wp_ret t {A} (x : A) (Q : A -> heap V -> Prop) h : Q x h -> wp t (mret x) Q h.
Proof. intros HQ. exact HQ. Qed.

Lemma wp_bind t {A B} (m : M A) (f : A -> M B) (Q : B -> heap V -> Prop) h :
  wp t m (fun x h' => wp t (f x) Q h') h -> wp t (m ≫= f) Q h.
Proof.
  unfold wp, mbind, M_bind, bind. destruct (m h) as [[x h']| |]; auto.
Qed.

Lemma wp_mono t {A} (m : M A) (Q Q' : A -> heap V -> Prop) h :
  wp t m Q h -> (forall x h', Q x h' -> Q' x h') -> wp t m Q' h.
Proof. unfold wp. destruct (m h) as [[x h']| |]; auto. Qed.

Lemma wp_done t {A} (m : M A) (Q : A -> heap V -> Prop) h x h' :
  m h = Done (x, h') -> Q x h' -> wp t m Q h.
Proof. unfold wp. intros ->. auto. Qed.

Lemma wp_total_elim {A} (m : M A) (Q : A -> heap V -> Prop) h :
  wp true m Q h -> exists x h', m h = Done (x, h') /\ Q x h'.
Proof. unfold wp. destruct (m h) as [[x h']| |]; eauto; discriminate. Qed.

Lemma wp_partial_elim {A} (m : M A) (Q : A -> heap V -> Prop) h x h' :
  wp false m Q h -> m h = Done (x, h') -> Q x h'.
Proof. unfold wp. intros H E. rewrite E in H. exact H. Qed.

Lemma wp_partial_intro {A} (m : M A) (Q : A -> heap V -> Prop) h :
  (forall x h', m h = Done (x, h') -> Q x h') -> wp false m Q h.
Proof. unfold wp. intros H. destruct (m h) as [[x h']| |]; auto. Qed.

(** Primitive operations. *)

Lemma wp_new t n (Q : option nat -> heap V -> Prop) h :
  (t = true -> n <= max_array_len) ->
  (n <= max_array_len ->
   Q (Some (length h)) (h ++ [Some (replicate (Z.to_nat n) dflt)])) ->
  wp t (new dflt n) Q h.
Proof.
  intros Ht HQ. unfold wp, new. destruct (Z.leb_spec n max_array_len) as [Hle|Hgt].
  - auto.
  - destruct t; [|reflexivity]. specialize (Ht eq_refl). lia.
Qed.

Lemma wp_umod t x m (Q : Z -> heap V -> Prop) h :
  (t = true -> m <> 0) -> (m <> 0 -> Q (x mod m) h) -> wp t (umod x m) Q h.
Proof.
  intros Ht HQ. unfold wp, umod. destruct (Z.eqb_spec m 0) as [->|Hne].
  - destruct t; [|reflexivity]. now specialize (Ht eq_refl).
  - simpl. auto.
Qed.

Lemma wp_subscript t p i (Q : ref -> heap V -> Prop) h :
  (t = true -> exists a blk, p = Some a /\ live h a = Some blk /\
                             0 <= i < Z.of_nat (length blk)) ->
  (forall a blk, p = Some a -> live h a = Some blk ->
                 0 <= i < Z.of_nat (length blk) -> Q (mkref a i) h) ->
  wp t (subscript p i) Q h.
Proof.
  intros Ht HQ. unfold wp, subscript.
  destruct p as [a|]; [destruct (live h a) as [blk|] eqn:El;
    [destruct (in_block blk i) eqn:Ei|]|].
  - apply in_block_true in Ei. eauto.
  - destruct t; [|reflexivity]. destruct (Ht eq_refl) as (a' & blk' & Ea & El' & Hi).
    injection Ea as <-. rewrite El in El'. injection El' as <-.
    apply in_block_true in Hi. congruence.
  - destruct t; [|reflexivity]. destruct (Ht eq_refl) as (a' & blk' & Ea & El' & Hi).
    injection Ea as <-. congruence.
  - destruct t; [|reflexivity]. destruct (Ht eq_refl) as (a' & blk' & Ea & _).
    discriminate.
Qed.

Lemma wp_read t r (Q : V -> heap V -> Prop) h :
  (t = true -> exists blk, live h (r_block r) = Some blk /\
                           0 <= r_off r < Z.of_nat (length blk)) ->
  (forall blk v, live h (r_block r) = Some blk ->
                 0 <= r_off r < Z.of_nat (length blk) ->
                 blk !! Z.to_nat (r_off r) = Some v -> Q v h) ->
  wp t (read r) Q h.
Proof.
  intros Ht HQ. unfold wp, read.
  destruct (live h (r_block r)) as [blk|] eqn:El;
    [destruct (blk !! Z.to_nat (r_off r)) as [v|] eqn:Ev;
       [destruct (in_block blk (r_off r)) eqn:Ei|]|].
  - apply in_block_true in Ei. eauto.
  - destruct t; [|reflexivity]. destruct (Ht eq_refl) as (blk' & El' & Hi).
    injection El' as <-. apply in_block_true in Hi. congruence.
  - destruct t; [|reflexivity]. destruct (Ht eq_refl) as (blk' & El' & Hi).
    injection El' as <-. apply lookup_ge_None in Ev. lia.
  - destruct t; [|reflexivity]. destruct (Ht eq_refl) as (blk' & El' & _).
    discriminate.
Qed.

Lemma wp_write t r v (Q : unit -> heap V -> Prop) h :
  (t = true -> exists blk, live h (r_block r) = Some blk /\
                           0 <= r_off r < Z.of_nat (length blk)) ->
  (forall blk, live h (r_block r) = Some blk ->
               0 <= r_off r < Z.of_nat (length blk) ->
               Q tt (<[r_block r := Some (<[Z.to_nat (r_off r) := v]> blk)]> h)) ->
  wp t (write r v) Q h.
Proof.
  intros Ht HQ. unfold wp, write.
  destruct (live h (r_block r)) as [blk|] eqn:El;
    [destruct (in_block blk (r_off r)) eqn:Ei|].
  - apply in_block_true in Ei. eauto.
  - destruct t; [|reflexivity]. destruct (Ht eq_refl) as (blk' & El' & Hi).
    injection El' as <-. apply in_block_true in Hi. congruence.
  - destruct t; [|reflexivity]. destruct (Ht eq_refl) as (blk' & El' & _).
    discriminate.
Qed.

Lemma wp_delete t a (Q : unit -> heap V -> Prop) h :
  (t = true -> exists blk, live h a = Some blk) ->
  (forall blk, live h a = Some blk -> Q tt (<[a := None]> h)) ->
  wp t (delete_array (Some a)) Q h.
Proof.
  intros Ht HQ. unfold wp, delete_array. destruct (live h a) as [blk|] eqn:El.
  - eauto.
  - destruct t; [|reflexivity]. destruct (Ht eq_refl) as (blk' & El'). discriminate.
Qed.

(** Loops: [I i] holds before the iteration for counter [i]. *)

Lemma wp_for_up_from t (I : Z -> heap V -> Prop) body lo (k : nat)
    (Q : unit -> heap V -> Prop) h :
  I lo h ->
  (forall i h', lo <= i < lo + Z.of_nat k -> I i h' ->
                wp t (body i) (fun _ h'' => I (i + 1) h'') h') ->
  (forall h', I (lo + Z.of_nat k) h' -> Q tt h') ->
  wp t (for_up_from lo k body) Q h.
Proof.
  revert lo h. induction k as [|k IH]; intros lo h H0 Hstep Hend.
  - simpl. apply wp_ret. apply Hend. replace (lo + Z.of_nat 0) with lo by lia. exact H0.
  - simpl. apply wp_bind. eapply wp_mono; [apply (Hstep lo h); [lia | exact H0]|].
    intros [] h' H1. apply IH.
    + exact H1.
    + intros i h'' Hi. apply Hstep. lia.
    + intros h'' Hk. apply Hend. replace (lo + Z.of_nat (S k)) with (lo + 1 + Z.of_nat k) by lia.
      exact Hk.
Qed.

Lemma wp_for_up t (I : Z -> heap V -> Prop) body lo hi (Q : unit -> heap V -> Prop) h :
  lo <= hi -> I lo h ->
  (forall i h', lo <= i < hi -> I i h' ->
                wp t (body i) (fun _ h'' => I (i + 1) h'') h') ->
  (forall h', I hi h' -> Q tt h') ->
  wp t (for_up lo hi body) Q h.
Proof.
  intros Hle H0 Hstep Hend. unfold for_up.
  apply (wp_for_up_from t I); [exact H0| |].
  - intros i h' Hi. apply Hstep. lia.
  - intros h'. replace (lo + Z.of_nat (Z.to_nat (hi - lo))) with hi by lia. apply Hend.
Qed.

Lemma wp_for_down_from t (I : Z -> heap V -> Prop) body hi (k : nat)
    (Q : unit -> heap V -> Prop) h :
  I hi h ->
  (forall i h', hi - Z.of_nat k < i <= hi -> I i h' ->
                wp t (body i) (fun _ h'' => I (i - 1) h'') h') ->
  (forall h', I (hi - Z.of_nat k) h' -> Q tt h') ->
  wp t (for_down_from hi k body) Q h.
Proof.
  revert hi h. induction k as [|k IH]; intros hi h H0 Hstep Hend.
  - simpl. apply wp_ret. apply Hend. replace (hi - Z.of_nat 0) with hi by lia. exact H0.
  - simpl. apply wp_bind. eapply wp_mono; [apply (Hstep hi h); [lia | exact H0]|].
    intros [] h' H1. apply IH.
    + exact H1.
    + intros i h'' Hi. apply Hstep. lia.
    + intros h'' Hk. apply Hend. replace (hi - Z.of_nat (S k)) with (hi - 1 - Z.of_nat k) by lia.
      exact Hk.
Qed.

Lemma wp_for_down t (I : Z -> heap V -> Prop) body hi lo (Q : unit -> heap V -> Prop) h :
  lo <= hi -> I hi h ->
  (forall i h', lo < i <= hi -> I i h' ->
                wp t (body i) (fun _ h'' => I (i - 1) h'') h') ->
  (forall h', I lo h' -> Q tt h') ->
  wp t (for_down hi lo body) Q h.
Proof.
  intros Hle H0 Hstep Hend. unfold for_down.
  apply (wp_for_down_from t I); [exact H0| |].
  - intros i h' Hi. apply Hstep. lia.
  - intros h'. replace (hi - Z.of_nat (Z.to_nat (hi - lo))) with lo by lia. apply Hend.
Qed.

(** ** Reading a well-formed container *)

Lemma wf_data c h blk :
  wf c h blk -> capacity_ c <> 0 ->
  exists a, data_array_ c = Some a /\ live h a = Some blk.
Proof.
  intros [Hb Hl _ _ _] Hc. destruct (data_array_ c) as [a|]; [eauto|].
  subst blk. simpl in Hl. lia.
Qed.

Lemma wf_cap_nonneg c h blk : wf c h blk -> 0 <= capacity_ c.
Proof. intros [_ Hl _ _ _]. lia. Qed.

(** Replacing the elements of the backing store keeps the container well
    formed. *)
Lemma wf_update c h blk a blk' :
  wf c h blk -> data_array_ c = Some a -> length blk' = length blk ->
  wf c (<[a := Some blk']> h) blk'.
Proof.
  intros [Hb Hl Hc Hs Hh] Ea El. rewrite Ea in Hb.
  constructor; try assumption.
  - rewrite Ea. apply live_insert_eq. eapply live_lt. exact Hb.
  - rewrite El. exact Hl.
Qed.

(** The rest of the program may change the heap around the array. *)
Lemma wf_frame c h h' blk :
  wf c h blk -> (forall a, data_array_ c = Some a -> live h' a = live h a) ->
  wf c h' blk.
Proof.
  intros [Hb Hl Hc Hs Hh] Hf. constructor; try assumption.
  destruct (data_array_ c) as [a|]; [|exact Hb]. rewrite (Hf a eq_refl). exact Hb.
Qed.

Lemma repr_frame c h h' xs :
  repr c h xs -> (forall a, data_array_ c = Some a -> live h' a = live h a) ->
  repr c h' xs.
Proof.
  intros (blk & Hwf & Hsz & Hel) Hf. exists blk. split; [|split]; try assumption.
  eapply wf_frame; eassumption.
Qed.

Lemma repr_length c h xs : repr c h xs -> size_ c = Z.of_nat (length xs).
Proof. intros (blk & _ & Hsz & _). exact Hsz. Qed.

Lemma wp_index t c h blk i (Q : ref -> heap V -> Prop) :
  wf c h blk -> capacity_ c <> 0 -> 0 <= i <= capacity_ c ->
  (forall a, data_array_ c = Some a -> live h a = Some blk ->
             Q (mkref a (slot c i)) h) ->
  wp t (index c i) Q h.
Proof.
  intros Hwf Hc Hi HQ. destruct (wf_data _ _ _ Hwf Hc) as (a & Ea & El).
  pose proof (wf_cap _ _ _ Hwf) as Hmax. pose proof (wf_head _ _ _ Hwf Hc) as Hh.
  pose proof (wf_len _ _ _ Hwf) as Hlen. rewrite max_array_len_val in Hmax.
  unfold index. apply wp_bind. apply wp_umod; [auto|]. intros _.
  rewrite wrap_small by (rewrite size_t_modulus_val; lia).
  fold (slot c i). assert (0 <= slot c i < capacity_ c) by (apply slot_range; lia).
  apply wp_subscript.
  - intros _. exists a, blk. repeat split; auto; lia.
  - intros a' blk' Ea' El' _. rewrite Ea in Ea'. injection Ea' as <-. auto.
Qed.

Lemma wp_value_at t c h blk i (Q : V -> heap V -> Prop) :
  wf c h blk -> capacity_ c <> 0 -> 0 <= i <= capacity_ c ->
  (forall v, blk !! Z.to_nat (slot c i) = Some v -> Q v h) ->
  wp t (value_at c i) Q h.
Proof.
  intros Hwf Hc Hi HQ. unfold value_at. apply wp_bind.
  eapply wp_index; try eassumption. intros a Ea El.
  pose proof (wf_len _ _ _ Hwf) as Hlen.
  assert (0 <= slot c i < capacity_ c) by (apply slot_range; lia).
  apply wp_read; simpl.
  - intros _. exists blk. split; [exact El|lia].
  - intros blk' v El' _ Ev. rewrite El in El'. injection El' as <-. auto.
Qed.

Lemma values_from_spec c h blk (k : nat) : forall i ys,
  wf c h blk -> 0 <= i -> i + Z.of_nat k <= capacity_ c ->
  length ys = k ->
  (forall j : nat, (j < k)%nat ->
     blk !! Z.to_nat (slot c (i + Z.of_nat j)) = ys !! j) ->
  values_from c i k h = Done (ys, h).
Proof.
  induction k as [|k IH]; intros i ys Hwf Hi Hk Hlen Hel.
  - destruct ys; [reflexivity|discriminate].
  - destruct ys as [|y ys]; [discriminate|]. simpl in Hlen.
    assert (Hc : capacity_ c <> 0) by lia.
    assert (E : wp true (values_from c i (S k)) (fun r h' => r = y :: ys /\ h' = h) h).
    { simpl. apply wp_bind. eapply wp_value_at; try eassumption; [lia|].
      intros v Ev. apply wp_bind.
      specialize (Hel 0%nat ltac:(lia)) as H0.
      change (Z.of_nat 0) with 0 in H0. rewrite Z.add_0_r, Ev in H0.
      injection H0 as ->.
      eapply wp_done.
      - apply (IH (i + 1) ys); try assumption; try lia.
        intros j Hj. specialize (Hel (S j) ltac:(lia)).
        change ((y :: ys) !! S j) with (ys !! j) in Hel.
        rewrite <- Hel. do 3 f_equal. lia.
      - apply wp_ret. auto. }
    apply wp_total_elim in E. destruct E as (r & h' & E & -> & ->). exact E.
Qed.

(** Reading a container through [operator[]] yields the sequence it holds, and
    leaves the heap as it was. *)
Lemma to_list_spec c h xs : repr c h xs -> to_list c h = Done (xs, h).
Proof.
  intros (blk & Hwf & Hsz & Hel). unfold to_list, Size.
  pose proof (wf_size _ _ _ Hwf) as Hs.
  apply (values_from_spec c h blk); [exact Hwf|lia|lia|lia|].
  intros j Hj. rewrite Z.add_0_l. apply Hel. lia.
Qed.

(** A container holds at most one sequence. *)
Lemma repr_unique c h xs ys : repr c h xs -> repr c h ys -> xs = ys.
Proof.
  intros Hx Hy. apply to_list_spec in Hx, Hy. congruence.
Qed.

(** ** Growth *)

Lemma growth_fits_wrap c :
  0 <= capacity_ c -> growth_fits c ->
  wrap (Z.max 1 (capacity_ c) * 2) = 2 * Z.max 1 (capacity_ c).
Proof.
  unfold growth_fits. rewrite max_array_len_val. intros H0 Hfit.
  rewrite wrap_small by (rewrite size_t_modulus_val; lia). lia.
Qed.

(** [ExtandArray] on a container holding [xs]: the new array [nb] sits at a
    fresh address, has twice the capacity (two slots when there was none),
    starts with [xs], and nothing but the container's old array is touched. *)
Lemma wp_ExtandArray c h xs (Q : CircularArray -> heap V -> Prop) :
  repr c h xs -> growth_fits c ->
  (forall nb h',
     live h' (length h) = Some nb ->
     Z.of_nat (length nb) = 2 * Z.max 1 (capacity_ c) ->
     (forall j : nat, (j < length xs)%nat -> nb !! j = xs !! j) ->
     length h' = S (length h) ->
     (forall a, (a < length h)%nat -> data_array_ c <> Some a -> h' !! a = h !! a) ->
     Q (mkCA (Some (length h)) 0 (size_ c) (size_ c) (2 * Z.max 1 (capacity_ c))) h') ->
  wp true (ExtandArray dflt c) Q h.
Proof.
  intros (blk & Hwf & Hsz & Hel) Hfit HQ.
  pose proof (wf_cap_nonneg _ _ _ Hwf) as Hc0.
  pose proof (wf_size _ _ _ Hwf) as Hs. pose proof (wf_cap _ _ _ Hwf) as Hmax.
  pose proof (wf_len _ _ _ Hwf) as Hlen.
  pose proof (growth_fits_wrap c Hc0 Hfit) as Hw.
  unfold growth_fits in Hfit. rewrite max_array_len_val in Hmax, Hfit.
  unfold ExtandArray. cbv zeta.
  set (c1 := if capacity_ c =? 0 then _ else c).
  assert (Hc1 : data_array_ c1 = data_array_ c /\ head_ c1 = head_ c /\
                size_ c1 = size_ c /\ capacity_ c1 = Z.max 1 (capacity_ c)).
  { subst c1. destruct (Z.eqb_spec (capacity_ c) 0) as [E|E]; simpl; repeat split; lia. }
  clearbody c1. destruct Hc1 as (Ed & Eh & Es & Ec). rewrite Ed, Eh, Es, Ec, Hw.
  set (N := 2 * Z.max 1 (capacity_ c)) in *.
  set (pn := length h).
  set (h1 := h ++ [Some (replicate (Z.to_nat N) dflt)]).
  apply wp_bind. apply wp_new; [intros _; rewrite max_array_len_val; unfold N; lia|].
  intros _. fold h1. fold pn.
  assert (Hold : forall a nb, (a < pn)%nat -> live (<[pn := Some nb]> h1) a = live h a).
  { intros a nb Ha. rewrite live_insert_ne by lia. apply live_app_old. exact Ha. }
  assert (Hpn : (pn < length h1)%nat).
  { subst h1 pn. rewrite length_app. simpl. lia. }
  apply wp_bind.
  apply (wp_for_up true (fun i h' => exists nb,
           h' = <[pn := Some nb]> h1 /\ Z.of_nat (length nb) = N /\
           forall j : nat, Z.of_nat j < i -> nb !! j = xs !! j)).
  - lia.
  - exists (replicate (Z.to_nat N) dflt). split; [|split].
    + symmetry. apply list_insert_id. subst h1 pn.
      rewrite lookup_app_r by lia. rewrite Nat.sub_diag. reflexivity.
    + rewrite length_replicate. lia.
    + intros j Hj. lia.
  - intros i h' Hi (nb & -> & Hnb & Hpre).
    assert (Hcap : capacity_ c <> 0) by lia.
    destruct (wf_data _ _ _ Hwf Hcap) as (a & Ea & El).
    pose proof (wf_head _ _ _ Hwf Hcap) as Hh.
    pose proof (live_lt _ _ _ El) as Ha.
    replace (Z.max 1 (capacity_ c)) with (capacity_ c) by lia.
    apply wp_bind. apply wp_umod; [intros _; exact Hcap|]. intros _.
    rewrite wrap_small by (rewrite size_t_modulus_val; lia). fold (slot c i).
    assert (Hsl : 0 <= slot c i < capacity_ c) by (apply slot_range; lia).
    apply wp_bind. apply wp_subscript.
    { intros _. exists a, blk. rewrite Hold by exact Ha. repeat split; auto; lia. }
    intros a1 blk1 Ea1 _ _. rewrite Ea in Ea1. injection Ea1 as <-.
    apply wp_bind. apply wp_read; simpl.
    { intros _. exists blk. rewrite Hold by exact Ha. split; [exact El|lia]. }
    intros blk2 v El2 _ Ev. rewrite Hold in El2 by exact Ha.
    rewrite El in El2. injection El2 as <-.
    apply wp_bind. apply wp_subscript.
    { intros _. exists pn, nb. rewrite live_insert_eq by exact Hpn.
      repeat split; auto; lia. }
    intros a3 blk3 Ea3 El3 _. injection Ea3 as <-.
    rewrite live_insert_eq in El3 by exact Hpn. injection El3 as <-.
    apply wp_write; simpl.
    { intros _. exists nb. rewrite live_insert_eq by exact Hpn. split; [reflexivity|lia]. }
    intros blk4 El4 _. rewrite live_insert_eq in El4 by exact Hpn. injection El4 as <-.
    exists (<[Z.to_nat i := v]> nb). split; [|split].
    + apply list_insert_insert_eq.
    + rewrite length_insert. exact Hnb.
    + intros j Hj. destruct (decide (j = Z.to_nat i)) as [->|Hne].
      * rewrite list_lookup_insert_eq by lia. rewrite <- Ev.
        rewrite <- (Hel (Z.to_nat i)) by lia. do 3 f_equal. lia.
      * rewrite list_lookup_insert_ne by auto. apply Hpre. lia.
  - intros h2 (nb & -> & Hnb & Hpre).
    assert (Hfin : forall h3,
              live h3 pn = Some nb -> length h3 = S pn ->
              (forall a, (a < pn)%nat -> data_array_ c <> Some a -> h3 !! a = h !! a) ->
              wp true (mret (mkCA (Some pn) 0 (size_ c) (size_ c) N)) Q h3).
    { intros h3 H1 H2 H3. apply wp_ret. apply (HQ nb h3); try assumption.
      intros j Hj. apply Hpre. lia. }
    assert (Hlen1 : length h1 = S pn).
    { subst h1 pn. rewrite length_app. simpl. lia. }
    apply wp_bind. destruct (data_array_ c) as [a|] eqn:Ea.
    + pose proof (wf_block _ _ _ Hwf) as El. rewrite Ea in El.
      pose proof (live_lt _ _ _ El) as Ha. fold pn in Ha.
      apply wp_delete.
      { intros _. exists blk. rewrite Hold by exact Ha. exact El. }
      intros _ _. apply Hfin.
      * rewrite live_insert_ne by lia. apply live_insert_eq. exact Hpn.
      * rewrite !length_insert. exact Hlen1.
      * intros a' Ha' Hne. rewrite list_lookup_insert_ne by congruence.
        rewrite list_lookup_insert_ne by lia. subst h1. apply lookup_app_l. exact Ha'.
    + apply wp_ret. apply Hfin.
      * apply live_insert_eq. exact Hpn.
      * rewrite length_insert. exact Hlen1.
      * intros a' Ha' _. rewrite list_lookup_insert_ne by lia.
        subst h1. apply lookup_app_l. exact Ha'.
Qed.

Lemma wp_grow_if_full c h xs (Q : CircularArray -> heap V -> Prop) :
  repr c h xs -> (size_ c = capacity_ c -> growth_fits c) ->
  (forall c1 h1,
     repr c1 h1 xs -> size_ c1 < capacity_ c1 -> size_ c1 = size_ c ->
     (tail_ok c -> tail_ok c1) ->
     capacity_ c1 = (if size_ c =? capacity_ c
                     then 2 * Z.max 1 (capacity_ c) else capacity_ c) ->
     Q c1 h1) ->
  wp true (grow_if_full dflt c) Q h.
Proof.
  intros Hr Hfit HQ. unfold grow_if_full.
  destruct (Z.eqb_spec (size_ c) (capacity_ c)) as [Hfull|Hnf].
  - specialize (Hfit Hfull). pose proof Hr as (blk & Hwf & Hsz & Hel).
    pose proof (wf_cap_nonneg _ _ _ Hwf) as Hc0.
    apply (wp_ExtandArray c h xs); [exact Hr|exact Hfit|].
    intros nb h' Hlive Hlen Hpre Hlh Hfr.
    assert (Hi : forall i, 0 <= i <= size_ c -> i mod (2 * Z.max 1 (capacity_ c)) = i).
    { intros i Hi. apply Z.mod_small. lia. }
    apply HQ; simpl; try lia.
    + exists nb. split; [|split].
      * constructor; simpl; try assumption; try lia; exact Hfit.
      * exact Hsz.
      * intros i Hlt. unfold slot. simpl. rewrite Hi by lia.
        rewrite Z.add_0_l, Nat2Z.id. apply Hpre. exact Hlt.
    + intros _ _. unfold slot. simpl. symmetry. apply Hi. lia.
  - apply wp_ret. destruct Hr as (blk & Hwf & Hsz & Hel).
    pose proof (wf_size _ _ _ Hwf).
    apply HQ; auto; try lia. exists blk. auto.
Qed.

(** ** Writing one slot of the ring *)

Lemma wp_store t {B} c h blk k v (rest : M B) (Q : B -> heap V -> Prop) :
  wf c h blk -> 0 <= k < capacity_ c ->
  (forall a, data_array_ c = Some a -> live h a = Some blk ->
     wp t rest Q (<[a := Some (<[Z.to_nat k := v]> blk)]> h)) ->
  wp t (r ← subscript (data_array_ c) k; write r v;; rest) Q h.
Proof.
  intros Hwf Hk HQ. assert (Hc : capacity_ c <> 0) by lia.
  destruct (wf_data _ _ _ Hwf Hc) as (a & Ea & El).
  pose proof (wf_len _ _ _ Hwf) as Hlen.
  apply wp_bind. apply wp_subscript.
  { intros _. exists a, blk. repeat split; auto; lia. }
  intros a1 blk1 Ea1 _ _. rewrite Ea in Ea1. injection Ea1 as <-.
  apply wp_bind. apply wp_write; simpl.
  { intros _. exists blk. split; [exact El|lia]. }
  intros blk2 El2 _. rewrite El in El2. injection El2 as <-. auto.
Qed.

(** Overwriting the slot of logical index [s] leaves the other logical indices
    below the capacity alone. *)
Lemma lookup_store_other c blk s v i :
  0 < capacity_ c -> 0 <= s < capacity_ c -> 0 <= i < capacity_ c -> i <> s ->
  <[Z.to_nat (slot c s) := v]> blk !! Z.to_nat (slot c i) = blk !! Z.to_nat (slot c i).
Proof.
  intros Hc Hs Hi Hne. apply list_lookup_insert_ne. intros E.
  pose proof (slot_range c s Hc). pose proof (slot_range c i Hc).
  apply Hne. apply (slot_inj c); try assumption. lia.
Qed.

Lemma lookup_store_same c blk s v :
  0 < capacity_ c -> Z.of_nat (length blk) = capacity_ c ->
  <[Z.to_nat (slot c s) := v]> blk !! Z.to_nat (slot c s) = Some v.
Proof.
  intros Hc Hl. pose proof (slot_range c s Hc).
  apply list_lookup_insert_eq. lia.
Qed.

(** ** The two ends *)

Ltac fields :=
  unfold set_head, set_tail, set_size;
  cbn [data_array_ head_ tail_ size_ capacity_].

Lemma wp_PushBack c h xs v (Q : CircularArray -> heap V -> Prop) :
  repr c h xs -> tail_ok c -> (size_ c = capacity_ c -> growth_fits c) ->
  (forall c' h',
     repr c' h' (xs ++ [v]) -> tail_ok c' ->
     capacity_ c' = (if size_ c =? capacity_ c
                     then 2 * Z.max 1 (capacity_ c) else capacity_ c) ->
     Q c' h') ->
  wp true (PushBack dflt v c) Q h.
Proof.
  intros Hr Ht Hfit HQ. unfold PushBack. apply wp_bind.
  apply (wp_grow_if_full c h xs); [exact Hr|exact Hfit|].
  clear Hr Hfit. intros c1 h1 (blk & Hwf & Hsz & Hel) Hlt _ Ht1 Hcap.
  specialize (Ht1 Ht). clear Ht.
  pose proof (wf_size _ _ _ Hwf) as Hs. pose proof (wf_cap _ _ _ Hwf) as Hmax.
  pose proof (wf_len _ _ _ Hwf) as Hlen.
  assert (Hc : capacity_ c1 <> 0) by lia. assert (Hc' : 0 < capacity_ c1) by lia.
  specialize (Ht1 Hc). pose proof (slot_range c1 (size_ c1) Hc') as Hsl.
  rewrite max_array_len_val in Hmax.
  rewrite Ht1. apply (wp_store true c1 h1 blk); [exact Hwf|exact Hsl|].
  intros a Ea El. apply wp_bind. apply wp_umod; [auto|]. intros _. fields.
  rewrite !wrap_small by (rewrite size_t_modulus_val; lia).
  assert (E : (slot c1 (size_ c1) + 1) mod capacity_ c1 = slot c1 (size_ c1 + 1)).
  { unfold slot. apply mod_succ_shift. lia. }
  rewrite E. clear E.
  apply wp_ret. apply HQ.
  - exists (<[Z.to_nat (slot c1 (size_ c1)) := v]> blk). split; [|split].
    + pose proof (wf_update c1 h1 blk a _ Hwf Ea
                    (length_insert blk (Z.to_nat (slot c1 (size_ c1))) v)) as [H1 H2 H3 H4 H5].
      constructor; fields; try assumption. lia.
    + fields. rewrite length_app. simpl. lia.
    + intros i Hi. rewrite length_app in Hi. simpl in Hi.
      change (slot _ (Z.of_nat i)) with (slot c1 (Z.of_nat i)).
      destruct (decide (i = length xs)) as [->|Hne].
      * rewrite <- Hsz. rewrite lookup_store_same by assumption.
        rewrite lookup_app_r by lia. rewrite Nat.sub_diag. reflexivity.
      * rewrite lookup_store_other by lia. rewrite lookup_app_l by lia.
        apply Hel. lia.
  - intros _. reflexivity.
  - simpl. exact Hcap.
Qed.

Lemma wp_PushFront c h xs v (Q : CircularArray -> heap V -> Prop) :
  repr c h xs -> (size_ c = capacity_ c -> growth_fits c) ->
  (forall c' h',
     repr c' h' (v :: xs) -> (tail_ok c -> tail_ok c') ->
     capacity_ c' = (if size_ c =? capacity_ c
                     then 2 * Z.max 1 (capacity_ c) else capacity_ c) ->
     Q c' h') ->
  wp true (PushFront dflt v c) Q h.
Proof.
  intros Hr Hfit HQ. unfold PushFront. apply wp_bind.
  apply (wp_grow_if_full c h xs); [exact Hr|exact Hfit|].
  clear Hr Hfit. intros c1 h1 (blk & Hwf & Hsz & Hel) Hlt _ Ht1 Hcap.
  pose proof (wf_size _ _ _ Hwf) as Hs. pose proof (wf_cap _ _ _ Hwf) as Hmax.
  pose proof (wf_len _ _ _ Hwf) as Hlen.
  assert (Hc : capacity_ c1 <> 0) by lia. assert (Hc' : 0 < capacity_ c1) by lia.
  pose proof (wf_head _ _ _ Hwf Hc) as Hh. rewrite max_array_len_val in Hmax.
  cbv zeta.
  set (c2 := if head_ c1 =? 0 then _ else _).
  assert (E2 : c2 = set_head c1 (slot c1 (-1))).
  { subst c2. unfold slot. replace (head_ c1 + -1) with (head_ c1 - 1) by lia.
    rewrite <- step_back_mod by lia.
    destruct (Z.eqb_spec (head_ c1) 0); rewrite wrap_small;
      try reflexivity; rewrite size_t_modulus_val; lia. }
  rewrite E2. clear c2 E2.
  assert (Hm1 : slot c1 (-1) = slot c1 (capacity_ c1 - 1)).
  { unfold slot. replace (head_ c1 + (capacity_ c1 - 1))
      with (head_ c1 + -1 + 1 * capacity_ c1) by lia. now rewrite Z.mod_add by lia. }
  pose proof (slot_range c1 (-1) Hc') as Hsl.
  assert (Hshift : forall c2 i, head_ c2 = slot c1 (-1) -> capacity_ c2 = capacity_ c1 ->
                                slot c2 (i + 1) = slot c1 i).
  { intros c2 i E1 E2. unfold slot at 1. rewrite E1, E2. unfold slot.
    rewrite Z.add_mod_idemp_l by lia. f_equal. lia. }
  set (hd := slot c1 (-1)) in *.
  apply (wp_store true (set_head c1 hd) h1 blk).
  { destruct Hwf. constructor; fields; auto. }
  { fields. exact Hsl. }
  fields. intros a Ea El.
  rewrite wrap_small by (rewrite size_t_modulus_val; lia).
  apply wp_ret. apply HQ.
  - exists (<[Z.to_nat hd := v]> blk). split; [|split].
    + pose proof (wf_update c1 h1 blk a _ Hwf Ea
                    (length_insert blk (Z.to_nat hd) v)) as [H1 H2 H3 H4 H5].
      constructor; fields; try assumption; lia.
    + fields. simpl. lia.
    + intros i Hi. simpl in Hi. destruct i as [|i].
      * replace (Z.of_nat 0) with (-1 + 1) by lia.
        rewrite (Hshift _ (-1)) by reflexivity. fold hd.
        apply list_lookup_insert_eq. lia.
      * replace (Z.of_nat (S i)) with (Z.of_nat i + 1) by lia.
        rewrite Hshift by reflexivity. subst hd.
        rewrite Hm1. rewrite lookup_store_other by lia. apply Hel. lia.
  - intros Ht _. fields. rewrite Hshift by reflexivity.
    apply Ht1; assumption.
  - exact Hcap.
Qed.

Lemma wp_PopFront c h x xs (Q : CircularArray -> heap V -> Prop) :
  repr c h (x :: xs) ->
  (forall c', repr c' h xs -> (tail_ok c -> tail_ok c') ->
              capacity_ c' = capacity_ c -> Q c' h) ->
  wp true (PopFront c) Q h.
Proof.
  intros (blk & Hwf & Hsz & Hel) HQ. simpl in Hsz.
  pose proof (wf_size _ _ _ Hwf) as Hs. pose proof (wf_cap _ _ _ Hwf) as Hmax.
  assert (Hc : capacity_ c <> 0) by lia.
  pose proof (wf_head _ _ _ Hwf Hc) as Hh. rewrite max_array_len_val in Hmax.
  assert (Hshift : forall c2 i, head_ c2 = slot c 1 -> capacity_ c2 = capacity_ c ->
                                slot c2 i = slot c (i + 1)).
  { intros c2 i E1 E2. unfold slot at 1. rewrite E1, E2. unfold slot.
    rewrite Z.add_mod_idemp_l by lia. f_equal. lia. }
  unfold PopFront. apply wp_bind. apply wp_umod; [auto|]. intros _.
  rewrite wrap_small by (rewrite size_t_modulus_val; lia). fold (slot c 1).
  fields. rewrite wrap_small by (rewrite size_t_modulus_val; lia).
  apply wp_ret. apply HQ.
  - exists blk. split; [|split].
    + destruct Hwf. constructor; fields; try assumption; try lia.
      intros _. apply slot_range. lia.
    + fields. lia.
    + intros i Hi. rewrite Hshift by reflexivity.
      replace (Z.of_nat i + 1) with (Z.of_nat (S i)) by lia.
      apply (Hel (S i)). simpl. lia.
  - intros Ht _. fields. rewrite Hshift by reflexivity.
    rewrite (Ht Hc). f_equal. lia.
  - reflexivity.
Qed.

Lemma wp_PopBack c h xs x (Q : CircularArray -> heap V -> Prop) :
  repr c h (xs ++ [x]) ->
  (forall c', repr c' h xs -> (tail_ok c -> tail_ok c') ->
              capacity_ c' = capacity_ c -> Q c' h) ->
  wp true (PopBack c) Q h.
Proof.
  intros (blk & Hwf & Hsz & Hel) HQ. rewrite length_app in Hsz, Hel. simpl in Hsz, Hel.
  pose proof (wf_size _ _ _ Hwf) as Hs. pose proof (wf_cap _ _ _ Hwf) as Hmax.
  assert (Hc : capacity_ c <> 0) by lia. rewrite max_array_len_val in Hmax.
  unfold PopBack. cbv zeta. apply wp_ret.
  set (c2 := if tail_ c =? 0 then _ else _).
  assert (E2 : data_array_ c2 = data_array_ c /\ head_ c2 = head_ c /\
               size_ c2 = size_ c /\ capacity_ c2 = capacity_ c /\
               (tail_ok c -> tail_ c2 = slot c (size_ c - 1))).
  { assert (Hstep : tail_ok c ->
              0 <= tail_ c < capacity_ c /\
              (if tail_ c =? 0 then capacity_ c - 1 else tail_ c - 1) = slot c (size_ c - 1)).
    { intros Ht. pose proof (Ht Hc) as Et.
      pose proof (slot_range c (size_ c) ltac:(lia)) as Hsl. rewrite <- Et in Hsl.
      split; [exact Hsl|]. rewrite step_back_mod by lia. rewrite Et. unfold slot.
      rewrite Zminus_mod_idemp_l. f_equal. lia. }
    subst c2. revert Hstep.
    destruct (Z.eqb_spec (tail_ c) 0) as [E|E]; intros Hstep; fields;
      repeat split; auto; intros Ht; destruct (Hstep Ht) as [Hb <-];
      apply wrap_small; rewrite size_t_modulus_val; lia. }
  clearbody c2. destruct E2 as (Ed & Eh & Es & Ec & Et).
  rewrite wrap_small by (rewrite size_t_modulus_val; lia).
  assert (Hslot : forall i, slot (set_size c2 (size_ c2 - 1)) i = slot c i).
  { intros i. unfold slot. fields. now rewrite Eh, Ec. }
  apply HQ.
  - exists blk. split; [|split].
    + destruct Hwf. constructor; fields; rewrite ?Ed, ?Eh, ?Es, ?Ec; try assumption; lia.
    + fields. lia.
    + intros i Hi. rewrite Hslot. rewrite Hel by lia. apply lookup_app_l. exact Hi.
  - intros Ht _. fields. rewrite Hslot, Es. apply Et. exact Ht.
  - fields. exact Ec.
Qed.

(** [Front()] designates slot [head_], which holds the first element. *)
Lemma Front_spec c h x xs :
  repr c h (x :: xs) ->
  exists a, data_array_ c = Some a /\
            Front c h = Done (mkref a (head_ c), h) /\
            read (mkref a (head_ c)) h = Done (x, h).
Proof.
  intros (blk & Hwf & Hsz & Hel). simpl in Hsz.
  pose proof (wf_size _ _ _ Hwf) as Hs. pose proof (wf_len _ _ _ Hwf) as Hlen.
  assert (Hc : capacity_ c <> 0) by lia.
  pose proof (wf_head _ _ _ Hwf Hc) as Hh.
  destruct (wf_data _ _ _ Hwf Hc) as (a & Ea & El).
  specialize (Hel 0%nat ltac:(simpl; lia)). unfold slot in Hel.
  change (Z.of_nat 0) with 0 in Hel. rewrite Z.add_0_r, Z.mod_small in Hel by lia.
  exists a. split; [exact Ea|]. split.
  - unfold Front, subscript. rewrite Ea, El.
    replace (in_block blk (head_ c)) with true; [reflexivity|].
    symmetry. apply in_block_true. lia.
  - unfold read. simpl. rewrite El, Hel. simpl.
    replace (in_block blk (head_ c)) with true; [reflexivity|].
    symmetry. apply in_block_true. lia.
Qed.

(** [operator[]] designates the slot of the logical index. *)
Lemma index_spec c h xs (i : nat) x :
  repr c h xs -> xs !! i = Some x ->
  exists a, data_array_ c = Some a /\
            index c (Z.of_nat i) h = Done (mkref a (slot c (Z.of_nat i)), h) /\
            read (mkref a (slot c (Z.of_nat i))) h = Done (x, h).
Proof.
  intros (blk & Hwf & Hsz & Hel) Hx. pose proof (lookup_lt_Some _ _ _ Hx) as Hi.
  pose proof (wf_size _ _ _ Hwf) as Hs. pose proof (wf_len _ _ _ Hwf) as Hlen.
  assert (Hc : capacity_ c <> 0) by lia.
  destruct (wf_data _ _ _ Hwf Hc) as (a & Ea & El).
  pose proof (slot_range c (Z.of_nat i) ltac:(lia)) as Hsl.
  specialize (Hel i Hi). rewrite Hx in Hel.
  exists a. split; [exact Ea|]. split.
  - assert (W : wp true (index c (Z.of_nat i))
                  (fun r h' => r = mkref a (slot c (Z.of_nat i)) /\ h' = h) h).
    { eapply wp_index; try eassumption; [lia|].
      intros a' Ea' _. rewrite Ea in Ea'. injection Ea' as <-. auto. }
    apply wp_total_elim in W. destruct W as (r & h' & E & -> & ->). exact E.
  - unfold read. simpl. rewrite El, Hel.
    replace (in_block blk (slot c (Z.of_nat i))) with true; [reflexivity|].
    symmetry. apply in_block_true. lia.
Qed.

(** With a consistent tail pointer, [Back()] designates the slot of the last
    logical index. *)
Lemma Back_spec c h xs x :
  repr c h (xs ++ [x]) -> tail_ok c ->
  exists a, data_array_ c = Some a /\
            Back c h = Done (mkref a (slot c (size_ c - 1)), h) /\
            read (mkref a (slot c (size_ c - 1))) h = Done (x, h).
Proof.
  intros Hr Ht. pose proof Hr as (blk & Hwf & Hsz & Hel).
  rewrite length_app in Hsz. simpl in Hsz.
  pose proof (wf_size _ _ _ Hwf) as Hs. pose proof (wf_len _ _ _ Hwf) as Hlen.
  pose proof (wf_cap _ _ _ Hwf) as Hmax. rewrite max_array_len_val in Hmax.
  assert (Hc : capacity_ c <> 0) by lia. specialize (Ht Hc).
  destruct (index_spec c h (xs ++ [x]) (length xs) x Hr) as (a & Ea & Ei & Er).
  { rewrite lookup_app_r by lia. now rewrite Nat.sub_diag. }
  replace (Z.of_nat (length xs)) with (size_ c - 1) in Ei, Er by lia.
  exists a. split; [exact Ea|]. split; [|exact Er].
  pose proof (slot_range c (size_ c) ltac:(lia)) as Hsl. rewrite <- Ht in Hsl.
  assert (E : (if negb (tail_ c =? 0) then wrap (tail_ c - 1) else wrap (capacity_ c - 1))
              = slot c (size_ c - 1)).
  { transitivity ((tail_ c - 1) mod capacity_ c).
    - rewrite <- step_back_mod by lia.
      destruct (Z.eqb_spec (tail_ c) 0); simpl; apply wrap_small;
        rewrite size_t_modulus_val; lia.
    - rewrite Ht. unfold slot. rewrite Zminus_mod_idemp_l. f_equal. lia. }
  destruct (wf_data _ _ _ Hwf Hc) as (a' & Ea' & El).
  rewrite Ea in Ea'. injection Ea' as <-.
  pose proof (slot_range c (size_ c - 1) ltac:(lia)) as Hsl1.
  unfold Back. rewrite E. unfold subscript. rewrite Ea, El.
  replace (in_block blk (slot c (size_ c - 1))) with true; [reflexivity|].
  symmetry. apply in_block_true. lia.
Qed.

(** ** Insertion and removal in the middle *)

Lemma insert_at_length (p : nat) v xs : length (insert_at p v xs) = S (length xs).
Proof.
  unfold insert_at. rewrite length_app. simpl. rewrite length_take, length_drop. lia.
Qed.

Lemma insert_at_lookup_lt (p : nat) v xs (j : nat) :
  (j < p)%nat -> (p <= length xs)%nat -> insert_at p v xs !! j = xs !! j.
Proof.
  intros Hj Hp. unfold insert_at. rewrite lookup_app_l by (rewrite length_take; lia).
  apply lookup_take_lt. exact Hj.
Qed.

Lemma insert_at_lookup_eq (p : nat) v xs :
  (p <= length xs)%nat -> insert_at p v xs !! p = Some v.
Proof.
  intros Hp. unfold insert_at. apply list_lookup_middle. rewrite length_take. lia.
Qed.

Lemma insert_at_lookup_gt (p : nat) v xs (j : nat) :
  (p < j)%nat -> (p <= length xs)%nat -> insert_at p v xs !! j = xs !! (j - 1)%nat.
Proof.
  intros Hj Hp. unfold insert_at.
  rewrite lookup_app_r by (rewrite length_take; lia). rewrite length_take.
  replace (j - p `min` length xs)%nat with (S (j - p - 1)) by lia. simpl.
  rewrite lookup_drop. f_equal. lia.
Qed.

Lemma delete_insert_at (p : nat) v xs :
  (p <= length xs)%nat -> delete p (insert_at p v xs) = xs.
Proof.
  intros Hp. unfold insert_at.
  replace p with (length (take p xs)) at 1 by (rewrite length_take; lia).
  rewrite delete_middle. apply take_drop.
Qed.

Lemma wp_store_end t c h blk k v (Q : unit -> heap V -> Prop) :
  wf c h blk -> 0 <= k < capacity_ c ->
  (forall a, data_array_ c = Some a -> live h a = Some blk ->
     Q tt (<[a := Some (<[Z.to_nat k := v]> blk)]> h)) ->
  wp t (r ← subscript (data_array_ c) k; write r v) Q h.
Proof.
  intros Hwf Hk HQ. assert (Hc : capacity_ c <> 0) by lia.
  destruct (wf_data _ _ _ Hwf Hc) as (a & Ea & El).
  pose proof (wf_len _ _ _ Hwf) as Hlen.
  apply wp_bind. apply wp_subscript.
  { intros _. exists a, blk. repeat split; auto; lia. }
  intros a1 blk1 Ea1 _ _. rewrite Ea in Ea1. injection Ea1 as <-.
  apply wp_write; simpl.
  { intros _. exists blk. split; [exact El|lia]. }
  intros blk2 El2 _. rewrite El in El2. injection El2 as <-. auto.
Qed.

(** One iteration of either shifting loop: slot [dst] receives what slot [src]
    holds. *)
Lemma wp_move_slot t c h blk (src dst : Z) (Q : unit -> heap V -> Prop) :
  wf c h blk -> 0 <= src <= capacity_ c -> 0 <= dst < capacity_ c ->
  (forall a v, data_array_ c = Some a -> live h a = Some blk ->
     blk !! Z.to_nat (slot c src) = Some v ->
     Q tt (<[a := Some (<[Z.to_nat (slot c dst) := v]> blk)]> h)) ->
  wp t (from ← index c src; v ← read from;
        k ← umod (wrap (head_ c + dst)) (capacity_ c);
        to ← subscript (data_array_ c) k; write to v) Q h.
Proof.
  intros Hwf Hsrc Hdst HQ. assert (Hc : capacity_ c <> 0) by lia.
  pose proof (wf_cap _ _ _ Hwf) as Hmax. rewrite max_array_len_val in Hmax.
  pose proof (wf_head _ _ _ Hwf Hc) as Hh. pose proof (wf_len _ _ _ Hwf) as Hlen.
  apply wp_bind. eapply wp_index; try eassumption. intros a Ea El.
  pose proof (slot_range c src ltac:(lia)) as Hsl.
  apply wp_bind. apply wp_read; simpl.
  { intros _. exists blk. split; [exact El|lia]. }
  intros blk1 v El1 _ Ev. rewrite El in El1. injection El1 as <-.
  apply wp_bind. apply wp_umod; [auto|]. intros _.
  rewrite wrap_small by (rewrite size_t_modulus_val; lia). fold (slot c dst).
  apply (wp_store_end t c h blk); [exact Hwf|apply slot_range; lia|].
  intros a' Ea' _. rewrite Ea in Ea'. injection Ea' as <-. auto.
Qed.

Lemma wp_InsertAt c h xs v pos (Q : CircularArray -> heap V -> Prop) :
  repr c h xs -> 0 <= pos <= size_ c ->
  (size_ c = capacity_ c -> growth_fits c) ->
  (forall c' h',
     repr c' h' (insert_at (Z.to_nat pos) v xs) -> (tail_ok c -> tail_ok c') ->
     capacity_ c' = (if size_ c =? capacity_ c
                     then 2 * Z.max 1 (capacity_ c) else capacity_ c) ->
     Q c' h') ->
  wp true (InsertAt dflt v pos c) Q h.
Proof.
  intros Hr Hpos Hfit HQ. unfold InsertAt. apply wp_bind.
  apply (wp_grow_if_full c h xs); [exact Hr|exact Hfit|].
  clear Hr Hfit. intros c1 h1 (blk & Hwf & Hsz & Hel) Hlt Hsame Ht1 Hcap.
  rewrite <- Hsame in Hpos. clear Hsame.
  pose proof (wf_size _ _ _ Hwf) as Hs. pose proof (wf_cap _ _ _ Hwf) as Hmax.
  pose proof (wf_len _ _ _ Hwf) as Hlen.
  assert (Hc : capacity_ c1 <> 0) by lia. assert (Hc' : 0 < capacity_ c1) by lia.
  pose proof (wf_head _ _ _ Hwf Hc) as Hh. rewrite max_array_len_val in Hmax.
  destruct (wf_data _ _ _ Hwf Hc) as (a & Ea & El).
  pose proof (live_lt _ _ _ El) as Ha.
  apply wp_bind.
  apply (wp_for_down true (fun i h' => exists b,
           h' = <[a := Some b]> h1 /\ length b = length blk /\
           (forall j : nat, Z.of_nat j <= i -> Z.of_nat j < size_ c1 ->
              b !! Z.to_nat (slot c1 (Z.of_nat j)) = xs !! j) /\
           (forall j : nat, i < Z.of_nat j <= size_ c1 ->
              b !! Z.to_nat (slot c1 (Z.of_nat j)) = xs !! (j - 1)%nat))).
  - lia.
  - exists blk. split; [|split; [|split]].
    + symmetry. apply list_insert_id. apply live_lookup. exact El.
    + reflexivity.
    + intros j _ Hj. apply Hel. lia.
    + intros j Hj. lia.
  - intros i h' Hi (b & -> & Hb & Hlo & Hhi).
    pose proof (wf_update c1 h1 blk a b Hwf Ea Hb) as Hwf'.
    rewrite (wrap_small (i - 1)) by (rewrite size_t_modulus_val; lia).
    apply (wp_move_slot true c1 _ b (i - 1) i); [exact Hwf'|lia|lia|].
    intros a' w Ea' _ Ew. rewrite Ea in Ea'. injection Ea' as <-.
    exists (<[Z.to_nat (slot c1 i) := w]> b). split; [|split; [|split]].
    + apply list_insert_insert_eq.
    + rewrite length_insert. exact Hb.
    + intros j Hj1 Hj2. rewrite lookup_store_other by lia. apply Hlo; lia.
    + intros j Hj. destruct (decide (Z.of_nat j = i)) as [E|Hne].
      * rewrite E. rewrite lookup_store_same by lia. rewrite <- Ew.
        replace (i - 1) with (Z.of_nat (j - 1)) by lia. apply Hlo; lia.
      * rewrite lookup_store_other by lia. apply Hhi. lia.
  - intros h2 (b & -> & Hb & Hlo & Hhi).
    pose proof (wf_update c1 h1 blk a b Hwf Ea Hb) as Hwf'.
    apply wp_bind. apply wp_umod; [auto|]. intros _.
    rewrite (wrap_small (head_ c1 + pos)) by (rewrite size_t_modulus_val; lia).
    fold (slot c1 pos).
    apply (wp_store true c1 _ b); [exact Hwf'|apply slot_range; lia|].
    intros a' Ea' _. rewrite Ea in Ea'. injection Ea' as <-.
    rewrite list_insert_insert_eq.
    apply wp_bind. apply wp_umod; [auto|]. intros _. fields.
    rewrite (wrap_small (size_ c1 + 1)) by (rewrite size_t_modulus_val; lia).
    apply wp_ret. apply HQ.
    + exists (<[Z.to_nat (slot c1 pos) := v]> b). split; [|split].
      * assert (Hb' : length (<[Z.to_nat (slot c1 pos) := v]> b) = length blk)
          by (rewrite length_insert; exact Hb).
        pose proof (wf_update c1 h1 blk a _ Hwf Ea Hb') as [H1 H2 H3 H4 H5].
        constructor; fields; try assumption. lia.
      * fields. rewrite insert_at_length. lia.
      * intros j Hj. rewrite insert_at_length in Hj.
        change (slot _ (Z.of_nat j)) with (slot c1 (Z.of_nat j)).
        destruct (lt_eq_lt_dec j (Z.to_nat pos)) as [[Hl|He]|Hg].
        -- rewrite insert_at_lookup_lt by lia. rewrite lookup_store_other by lia.
           apply Hlo; lia.
        -- subst j. rewrite insert_at_lookup_eq by lia. rewrite Z2Nat.id by lia.
           apply lookup_store_same; lia.
        -- rewrite insert_at_lookup_gt by lia. rewrite lookup_store_other by lia.
           apply Hhi. lia.
    + intros Ht Hc2. fields. specialize (Ht1 Ht Hc).
      change (slot _ (size_ c1 + 1)) with (slot c1 (size_ c1 + 1)).
      pose proof (slot_range c1 (size_ c1) Hc') as Hsl. rewrite Ht1.
      rewrite wrap_small by (rewrite size_t_modulus_val; lia).
      unfold slot. apply mod_succ_shift. lia.
    + exact Hcap.
Qed.

Lemma wp_RemoveAt c h xs pos (Q : CircularArray -> heap V -> Prop) :
  repr c h xs -> 0 <= pos < size_ c ->
  (forall c' h',
     repr c' h' (delete (Z.to_nat pos) xs) -> (tail_ok c -> tail_ok c') ->
     capacity_ c' = capacity_ c -> Q c' h') ->
  wp true (RemoveAt pos c) Q h.
Proof.
  intros (blk & Hwf & Hsz & Hel) Hpos HQ. unfold RemoveAt.
  pose proof (wf_size _ _ _ Hwf) as Hs. pose proof (wf_cap _ _ _ Hwf) as Hmax.
  pose proof (wf_len _ _ _ Hwf) as Hlen.
  assert (Hc : capacity_ c <> 0) by lia. assert (Hc' : 0 < capacity_ c) by lia.
  pose proof (wf_head _ _ _ Hwf Hc) as Hh. rewrite max_array_len_val in Hmax.
  destruct (wf_data _ _ _ Hwf Hc) as (a & Ea & El).
  apply wp_bind.
  apply (wp_for_up true (fun i h' => exists b,
           h' = <[a := Some b]> h /\ length b = length blk /\
           (forall j : nat, Z.of_nat j < pos ->
              b !! Z.to_nat (slot c (Z.of_nat j)) = xs !! j) /\
           (forall j : nat, pos <= Z.of_nat j < i -> Z.of_nat j + 1 < size_ c ->
              b !! Z.to_nat (slot c (Z.of_nat j)) = xs !! S j) /\
           (forall j : nat, i <= Z.of_nat j < size_ c ->
              b !! Z.to_nat (slot c (Z.of_nat j)) = xs !! j))).
  - lia.
  - exists blk. split; [|split; [|split; [|split]]].
    + symmetry. apply list_insert_id. apply live_lookup. exact El.
    + reflexivity.
    + intros j Hj. apply Hel. lia.
    + intros j Hj. lia.
    + intros j Hj. apply Hel. lia.
  - intros i h' Hi (b & -> & Hb & Hlo & Hmid & Hhi).
    pose proof (wf_update c h blk a b Hwf Ea Hb) as Hwf'.
    rewrite (wrap_small (i + 1)) by (rewrite size_t_modulus_val; lia).
    apply (wp_move_slot true c _ b (i + 1) i); [exact Hwf'|lia|lia|].
    intros a' w Ea' _ Ew. rewrite Ea in Ea'. injection Ea' as <-.
    exists (<[Z.to_nat (slot c i) := w]> b). split; [|split; [|split; [|split]]].
    + apply list_insert_insert_eq.
    + rewrite length_insert. exact Hb.
    + intros j Hj. rewrite lookup_store_other by lia. apply Hlo; lia.
    + intros j Hj1 Hj2. destruct (decide (Z.of_nat j = i)) as [E|Hne].
      * rewrite E. rewrite lookup_store_same by lia. rewrite <- Ew.
        replace (i + 1) with (Z.of_nat (S j)) by lia. apply Hhi; lia.
      * rewrite lookup_store_other by lia. apply Hmid; lia.
    + intros j Hj. rewrite lookup_store_other by lia. apply Hhi. lia.
  - intros h2 (b & -> & Hb & Hlo & Hmid & _).
    pose proof (wf_update c h blk a b Hwf Ea Hb) as Hwf'.
    pose proof (slot_range c (size_ c - 1) Hc') as Hsl.
    destruct (lookup_lt_is_Some_2 b (Z.to_nat (slot c (size_ c - 1))) ltac:(lia))
      as [g Hg].
    assert (Hdel : length (delete (Z.to_nat pos) xs) = (length xs - 1)%nat).
    { apply length_delete. apply lookup_lt_is_Some. lia. }
    apply (wp_PopBack c _ (delete (Z.to_nat pos) xs) g).
    + exists b. split; [exact Hwf'|]. split.
      * rewrite length_app, Hdel. simpl. lia.
      * intros j Hj. rewrite length_app, Hdel in Hj. simpl in Hj.
        destruct (decide (j = (length xs - 1)%nat)) as [->|Hne].
        -- rewrite lookup_app_r by lia. rewrite Hdel, Nat.sub_diag. simpl.
           rewrite <- Hg. do 3 f_equal. lia.
        -- rewrite lookup_app_l by lia.
           destruct (le_lt_dec (Z.to_nat pos) j) as [Hge|Hl].
           ++ rewrite list_lookup_delete_ge by lia. apply Hmid; lia.
           ++ rewrite list_lookup_delete_lt by lia. apply Hlo; lia.
    + intros c'. apply HQ.
Qed.

(** ** Partial-correctness triples *)

Section Hoare.

Variable I : heap V -> Prop.

Lemma hoare_ret {A} (x : A) (P : A -> Prop) : P x -> hoare I (mret x) P.
Proof. intros HP h HI. apply wp_ret. auto. Qed.

Lemma hoare_bind {A B} (m : M A) (f : A -> M B) (P : A -> Prop) (P' : B -> Prop) :
  hoare I m P -> (forall x, P x -> hoare I (f x) P') -> hoare I (m ≫= f) P'.
Proof.
  intros Hm Hf h HI. apply wp_bind. eapply wp_mono; [apply Hm; exact HI|].
  intros x h' [HI' HP]. apply Hf; assumption.
Qed.

Lemma hoare_weaken {A} (m : M A) (P P' : A -> Prop) :
  hoare I m P -> (forall x, P x -> P' x) -> hoare I m P'.
Proof.
  intros Hm HP h HI. eapply wp_mono; [apply Hm; exact HI|].
  intros x h' [HI' Hx]. auto.
Qed.

Lemma hoare_umod x m : hoare I (umod x m) (fun r => m <> 0 /\ r = x mod m).
Proof. intros h HI. apply wp_umod; [discriminate|]. auto. Qed.

Lemma hoare_subscript p k : hoare I (subscript p k) (fun r => p = Some (r_block r)).
Proof.
  intros h HI. apply wp_subscript; [discriminate|]. intros a blk -> _ _. auto.
Qed.

Lemma hoare_read r : hoare I (read r) (fun _ => True).
Proof. intros h HI. apply wp_read; [discriminate|]. auto. Qed.

Lemma hoare_index c k : hoare I (index c k) (fun r => data_array_ c = Some (r_block r)).
Proof.
  unfold index. eapply hoare_bind; [apply hoare_umod|]. intros x _.
  apply hoare_subscript.
Qed.

(** Effects need the invariant to be stable under them. *)

Lemma hoare_write r v :
  (forall h x, I h -> I (<[r_block r := x]> h)) ->
  hoare I (write r v) (fun _ => True).
Proof. intros Hst h HI. apply wp_write; [discriminate|]. auto. Qed.

Lemma hoare_delete a :
  (forall h x, I h -> I (<[a := x]> h)) ->
  hoare I (delete_array (Some a)) (fun _ => True).
Proof. intros Hst h HI. apply wp_delete; [discriminate|]. auto. Qed.

Lemma hoare_new n (F : nat -> Prop) :
  (forall h x, I h -> I (h ++ [x]) /\ F (length h)) ->
  hoare I (new dflt n) (fun p => n <= max_array_len /\ exists a, p = Some a /\ F a).
Proof.
  intros Hst h HI. apply wp_new; [discriminate|]. intros Hn.
  destruct (Hst h (Some (replicate (Z.to_nat n) dflt)) HI) as [H1 H2]. eauto.
Qed.

Lemma hoare_for_up_from body lo (k : nat) :
  (forall i, hoare I (body i) (fun _ => True)) ->
  hoare I (for_up_from lo k body) (fun _ => True).
Proof.
  intros Hb. revert lo. induction k as [|k IH]; intros lo; simpl.
  - apply hoare_ret. exact Logic.I.
  - eapply hoare_bind; [apply Hb|]. intros _ _. apply IH.
Qed.

Lemma hoare_for_down_from body hi (k : nat) :
  (forall i, hoare I (body i) (fun _ => True)) ->
  hoare I (for_down_from hi k body) (fun _ => True).
Proof.
  intros Hb. revert hi. induction k as [|k IH]; intros hi; simpl.
  - apply hoare_ret. exact Logic.I.
  - eapply hoare_bind; [apply Hb|]. intros _ _. apply IH.
Qed.

End Hoare.

Lemma hoare_elim (J : heap V -> Prop) {A} (m : M A) (P : A -> Prop) h x h' :
  hoare J m P -> J h -> m h = Done (x, h') -> J h' /\ P x.
Proof. intros Hm HJ E. exact (wp_partial_elim m _ h x h' (Hm h HJ) E). Qed.

(** ** What an operation leaves alone *)

Lemma keeps_refl c h : keeps c h h.
Proof. split; auto. Qed.

Lemma keeps_write c h0 h a (x : option (list V)) :
  mine c h0 (Some a) -> keeps c h0 h -> keeps c h0 (<[a := x]> h).
Proof.
  intros Hm [Hl Hk]. split.
  - rewrite length_insert. exact Hl.
  - intros a' Ha' Hne. rewrite list_lookup_insert_ne; [auto|].
    destruct Hm as [E|(a1 & E & Hge)].
    + congruence.
    + injection E as <-. lia.
Qed.

Lemma keeps_alloc c h0 h (x : option (list V)) :
  keeps c h0 h -> keeps c h0 (h ++ [x]) /\ (length h0 <= length h)%nat.
Proof.
  intros [Hl Hk]. split; [split|exact Hl].
  - rewrite length_app. simpl. lia.
  - intros a Ha Hne. rewrite lookup_app_l by lia. auto.
Qed.

Ltac hoare_prim :=
  first [ apply hoare_umod | apply hoare_subscript | apply hoare_read
        | apply hoare_index ].

Ltac hoare_step :=
  lazymatch goal with
  | |- hoare _ (_ ≫= _) _ => eapply hoare_bind; [hoare_prim|intros ? ?]
  end.

Section Frame.

Variables (c : CircularArray) (h0 : heap V).

Lemma frame_write r v :
  mine c h0 (Some (r_block r)) -> hoare (keeps c h0) (write r v) (fun _ => True).
Proof. intros Hm. apply hoare_write. intros h x. apply keeps_write. exact Hm. Qed.

(** The body shared by the two shifting loops. *)
Lemma frame_move_slot this src dst :
  mine c h0 (data_array_ this) ->
  hoare (keeps c h0)
    (from ← index this src; v ← read from;
     k ← umod (wrap (head_ this + dst)) (capacity_ this);
     to ← subscript (data_array_ this) k; write to v) (fun _ => True).
Proof.
  intros Hm. do 4 hoare_step. apply frame_write. congruence.
Qed.

Lemma frame_ExtandArray this :
  mine c h0 (data_array_ this) ->
  hoare (keeps c h0) (ExtandArray dflt this) (fun c' => mine c h0 (data_array_ c')).
Proof.
  intros Hm. unfold ExtandArray. cbv zeta.
  set (c1 := if capacity_ this =? 0 then _ else this).
  assert (Ed : data_array_ c1 = data_array_ this).
  { subst c1. destruct (capacity_ this =? 0); reflexivity. }
  clearbody c1. rewrite Ed.
  eapply hoare_bind.
  { apply (hoare_new _ _ (fun a => (length h0 <= a)%nat)). intros h x. apply keeps_alloc. }
  intros p (_ & a & -> & Ha).
  eapply hoare_bind.
  { apply hoare_for_up_from. intros i. do 4 hoare_step.
    apply frame_write. right. exists a. split; [congruence|exact Ha]. }
  intros _ _. eapply hoare_bind.
  { instantiate (1 := fun _ => True). destruct (data_array_ this) as [a'|].
    - apply hoare_delete. intros h x. apply keeps_write. exact Hm.
    - apply hoare_ret. exact Logic.I. }
  intros _ _. apply hoare_ret. right. exists a. auto.
Qed.

Lemma frame_grow_if_full this :
  mine c h0 (data_array_ this) ->
  hoare (keeps c h0) (grow_if_full dflt this) (fun c' => mine c h0 (data_array_ c')).
Proof.
  intros Hm. unfold grow_if_full. destruct (size_ this =? capacity_ this).
  - apply frame_ExtandArray. exact Hm.
  - apply hoare_ret. exact Hm.
Qed.

Lemma frame_run_op o this :
  mine c h0 (data_array_ this) ->
  hoare (keeps c h0) (run_op dflt o this) (fun c' => mine c h0 (data_array_ c')).
Proof.
  intros Hm. destruct o as [v|v| | |v pos|pos]; simpl.
  - unfold PushFront. eapply hoare_bind; [apply frame_grow_if_full; exact Hm|].
    intros c1 Hm1. cbv zeta.
    set (c2 := if head_ c1 =? 0 then _ else _).
    assert (Ed : data_array_ c2 = data_array_ c1).
    { subst c2. destruct (head_ c1 =? 0); reflexivity. }
    clearbody c2. hoare_step. eapply hoare_bind; [apply frame_write; congruence|].
    intros _ _. apply hoare_ret. simpl. congruence.
  - unfold PushBack. eapply hoare_bind; [apply frame_grow_if_full; exact Hm|].
    intros c1 Hm1. hoare_step. eapply hoare_bind; [apply frame_write; congruence|].
    intros _ _. hoare_step. apply hoare_ret. exact Hm1.
  - unfold PopFront. hoare_step. apply hoare_ret. exact Hm.
  - unfold PopBack. cbv zeta. apply hoare_ret.
    destruct (tail_ this =? 0); exact Hm.
  - unfold InsertAt. eapply hoare_bind; [apply frame_grow_if_full; exact Hm|].
    intros c1 Hm1. eapply hoare_bind.
    { apply hoare_for_down_from. intros i. apply frame_move_slot. exact Hm1. }
    intros _ _. hoare_step. hoare_step.
    eapply hoare_bind; [apply frame_write; congruence|].
    intros _ _. hoare_step. apply hoare_ret. exact Hm1.
  - unfold RemoveAt. eapply hoare_bind.
    { apply hoare_for_up_from. intros i. apply frame_move_slot. exact Hm. }
    intros _ _. unfold PopBack. cbv zeta. apply hoare_ret.
    destruct (tail_ this =? 0); exact Hm.
Qed.

Lemma frame_run_ops os : forall this,
  mine c h0 (data_array_ this) ->
  hoare (keeps c h0) (run_ops dflt os this) (fun c' => mine c h0 (data_array_ c')).
Proof.
  induction os as [|o os IH]; intros this Hm; simpl.
  - apply hoare_ret. exact Hm.
  - eapply hoare_bind; [apply frame_run_op; exact Hm|]. exact IH.
Qed.

End Frame.

(** Whatever operations run on [c], every other array stays as it was. *)
Lemma run_ops_frame os c h c' h' :
  run_ops dflt os c h = Done (c', h') -> frame c h c' h'.
Proof.
  intros E.
  apply (hoare_elim (keeps c h) (run_ops dflt os c)
           (fun c' => mine c h (data_array_ c')) h c' h');
    [|apply keeps_refl|exact E].
  apply frame_run_ops. left. reflexivity.
Qed.

Lemma frame_live c h c' h' a :
  frame c h c' h' -> (a < length h)%nat -> data_array_ c <> Some a ->
  live h' a = live h a.
Proof.
  intros [[_ Hk] _] Ha Hne. unfold live. rewrite Hk by assumption. reflexivity.
Qed.

(** ** Copy construction *)

Lemma wp_copy src h xs (Q : CircularArray -> heap V -> Prop) :
  repr src h xs ->
  (forall nb h',
     live h' (length h) = Some nb -> nb = xs ->
     length h' = S (length h) ->
     (forall a, (a < length h)%nat -> h' !! a = h !! a) ->
     Q (mkCA (Some (length h)) 0 (wrap (size_ src - 1)) (size_ src) (size_ src)) h') ->
  wp true (CircularArray_copy dflt src) Q h.
Proof.
  intros (blk & Hwf & Hsz & Hel) HQ.
  pose proof (wf_size _ _ _ Hwf) as Hs. pose proof (wf_cap _ _ _ Hwf) as Hmax.
  unfold CircularArray_copy.
  set (pn := length h).
  set (h1 := h ++ [Some (replicate (Z.to_nat (size_ src)) dflt)]).
  apply wp_bind. apply wp_new; [intros _; lia|]. intros _. fold h1. fold pn.
  assert (Hpn : (pn < length h1)%nat).
  { subst h1 pn. rewrite length_app. simpl. lia. }
  assert (Hold : forall a nb, (a < pn)%nat -> live (<[pn := Some nb]> h1) a = live h a).
  { intros a nb Ha. rewrite live_insert_ne by lia. apply live_app_old. exact Ha. }
  apply wp_bind.
  apply (wp_for_up true (fun i h' => exists nb,
           h' = <[pn := Some nb]> h1 /\ Z.of_nat (length nb) = size_ src /\
           forall j : nat, Z.of_nat j < i -> nb !! j = xs !! j)).
  - lia.
  - exists (replicate (Z.to_nat (size_ src)) dflt). split; [|split].
    + symmetry. apply list_insert_id. subst h1 pn.
      rewrite lookup_app_r by lia. rewrite Nat.sub_diag. reflexivity.
    + rewrite length_replicate. lia.
    + intros j Hj. lia.
  - intros i h' Hi (nb & -> & Hnb & Hpre).
    assert (Hcap : capacity_ src <> 0) by lia.
    assert (Hwf' : wf src (<[pn := Some nb]> h1) blk).
    { apply (wf_frame src h); [exact Hwf|]. intros a Ea.
      apply Hold. pose proof (wf_block _ _ _ Hwf) as Hb. rewrite Ea in Hb.
      eapply live_lt. exact Hb. }
    apply wp_bind. apply (wp_index true src _ blk); [exact Hwf'|exact Hcap|lia|].
    intros a Ea El. pose proof (slot_range src i ltac:(lia)) as Hsl.
    pose proof (wf_len _ _ _ Hwf) as Hlen.
    apply wp_bind. apply wp_read; simpl.
    { intros _. exists blk. split; [exact El|lia]. }
    intros blk2 v El2 _ Ev. rewrite El in El2. injection El2 as <-.
    apply wp_bind. apply wp_subscript.
    { intros _. exists pn, nb. rewrite live_insert_eq by exact Hpn.
      repeat split; auto; lia. }
    intros a3 blk3 Ea3 El3 _. injection Ea3 as <-.
    rewrite live_insert_eq in El3 by exact Hpn. injection El3 as <-.
    apply wp_write; simpl.
    { intros _. exists nb. rewrite live_insert_eq by exact Hpn. split; [reflexivity|lia]. }
    intros blk4 El4 _. rewrite live_insert_eq in El4 by exact Hpn. injection El4 as <-.
    exists (<[Z.to_nat i := v]> nb). split; [|split].
    + apply list_insert_insert_eq.
    + rewrite length_insert. exact Hnb.
    + intros j Hj. destruct (decide (j = Z.to_nat i)) as [->|Hne].
      * rewrite list_lookup_insert_eq by lia. rewrite <- Ev.
        rewrite <- (Hel (Z.to_nat i)) by lia. do 3 f_equal. lia.
      * rewrite list_lookup_insert_ne by auto. apply Hpre. lia.
  - intros h2 (nb & -> & Hnb & Hpre). apply wp_ret. apply (HQ nb).
    + apply live_insert_eq. exact Hpn.
    + apply list_eq. intros j. destruct (le_lt_dec (length xs) j) as [Hge|Hlt].
      * rewrite (proj2 (lookup_ge_None xs j)) by lia. apply lookup_ge_None. lia.
      * apply Hpre. lia.
    + rewrite length_insert. subst h1 pn. rewrite length_app. simpl. lia.
    + intros a Ha. rewrite list_lookup_insert_ne by (subst pn; lia).
      subst h1. apply lookup_app_l. exact Ha.
Qed.

(** The copy holds the same sequence in an array of its own, sized to the
    source's [size_]; the source is as before. *)
Lemma copy_repr src h xs :
  repr src h xs ->
  exists cp h', CircularArray_copy dflt src h = Done (cp, h') /\
    repr cp h' xs /\ repr src h' xs /\
    cp = mkCA (Some (length h)) 0 (wrap (size_ src - 1)) (size_ src) (size_ src) /\
    length h' = S (length h) /\
    forall a, data_array_ src = Some a -> (a < length h)%nat.
Proof.
  intros Hr. pose proof Hr as (blk & Hwf & Hsz & Hel).
  pose proof (wf_size _ _ _ Hwf) as Hs. pose proof (wf_cap _ _ _ Hwf) as Hmax.
  assert (Hlt : forall a, data_array_ src = Some a -> (a < length h)%nat).
  { intros a Ea. pose proof (wf_block _ _ _ Hwf) as Hb. rewrite Ea in Hb.
    eapply live_lt. exact Hb. }
  apply wp_total_elim.
  apply (wp_copy src h xs); [exact Hr|].
  intros nb h' Hlive -> Hlen Hfr. split; [|split; [|split; [|split]]];
    try reflexivity; try assumption.
  - exists xs. split; [|split].
    + constructor; simpl; try assumption; try lia.
    + exact Hsz.
    + intros i Hi. unfold slot. simpl. rewrite Z.add_0_l, Z.mod_small by lia.
      now rewrite Nat2Z.id.
  - apply (repr_frame src h); [exact Hr|]. intros a Ea. unfold live.
    rewrite Hfr by (apply Hlt; exact Ea). reflexivity.
Qed.

(** ** The bounds every reachable container respects *)

Abbreviation anyheap := (fun _ : heap V => True).

Lemma hoare_any {A} (m : M A) : hoare anyheap m (fun _ => True).
Proof. intros h _. apply wp_partial_intro. auto. Qed.

Lemma hoare_new_fits n :
  hoare anyheap (new dflt n) (fun _ => n <= max_array_len).
Proof.
  eapply hoare_weaken; [apply (hoare_new _ n (fun _ => True)); auto|].
  intros p [Hn _]. exact Hn.
Qed.

Lemma bounded_ExtandArray this :
  bounded this ->
  hoare anyheap (ExtandArray dflt this)
    (fun c' => bounded c' /\ size_ c' < capacity_ c' /\ size_ c' = size_ this).
Proof.
  intros [Hs Hmax]. rewrite max_array_len_val in Hmax.
  unfold ExtandArray. cbv zeta.
  set (c1 := if capacity_ this =? 0 then _ else this).
  assert (E1 : size_ c1 = size_ this /\ capacity_ c1 = Z.max 1 (capacity_ this)).
  { subst c1. destruct (Z.eqb_spec (capacity_ this) 0); simpl; split; lia. }
  clearbody c1. destruct E1 as [Es Ec]. rewrite Es, Ec.
  rewrite wrap_small by (rewrite size_t_modulus_val; lia).
  eapply hoare_bind; [apply hoare_new_fits|]. intros p Hfit. simpl in Hfit.
  eapply hoare_bind; [apply hoare_any|]. intros ? _.
  eapply hoare_bind; [apply hoare_any|]. intros ? _.
  apply hoare_ret. unfold bounded. simpl. rewrite ?max_array_len_val in *. lia.
Qed.

Lemma bounded_grow_if_full this :
  bounded this ->
  hoare anyheap (grow_if_full dflt this)
    (fun c' => bounded c' /\ size_ c' < capacity_ c' /\ size_ c' = size_ this).
Proof.
  intros Hb. unfold grow_if_full.
  destruct (Z.eqb_spec (size_ this) (capacity_ this)) as [E|E].
  - apply bounded_ExtandArray. exact Hb.
  - apply hoare_ret. destruct Hb as [Hs Hmax]. unfold bounded. lia.
Qed.

Lemma bounded_PopBack this :
  bounded this -> 0 < size_ this ->
  hoare anyheap (PopBack this) bounded.
Proof.
  intros [Hs Hmax] Hpos. rewrite max_array_len_val in Hmax.
  unfold PopBack. cbv zeta. apply hoare_ret.
  destruct (tail_ this =? 0); unfold bounded; fields;
    rewrite wrap_small by (rewrite size_t_modulus_val; lia);
    rewrite max_array_len_val; lia.
Qed.

Lemma bounded_run_op o this :
  bounded this -> pre o this = true -> hoare anyheap (run_op dflt o this) bounded.
Proof.
  intros Hb Hpre.
  assert (Hpush : forall c1 : CircularArray,
            bounded c1 /\ size_ c1 < capacity_ c1 /\ size_ c1 = size_ this ->
            forall hd tl, bounded (mkCA (data_array_ c1) hd tl
                                     (wrap (size_ c1 + 1)) (capacity_ c1))).
  { intros c1 ([Hs Hmax] & Hlt & _) hd tl. unfold bounded. simpl.
    rewrite max_array_len_val in *.
    rewrite wrap_small by (rewrite size_t_modulus_val; lia). lia. }
  destruct o as [v|v| | |v pos|pos]; simpl in *.
  - unfold PushFront. eapply hoare_bind; [apply bounded_grow_if_full; exact Hb|].
    intros c1 H1. cbv zeta.
    eapply hoare_bind; [apply hoare_any|]. intros ? _.
    eapply hoare_bind; [apply hoare_any|]. intros ? _.
    apply hoare_ret. destruct (head_ c1 =? 0); apply (Hpush c1 H1).
  - unfold PushBack. eapply hoare_bind; [apply bounded_grow_if_full; exact Hb|].
    intros c1 H1.
    eapply hoare_bind; [apply hoare_any|]. intros ? _.
    eapply hoare_bind; [apply hoare_any|]. intros ? _.
    eapply hoare_bind; [apply hoare_any|]. intros t _.
    apply hoare_ret. apply (Hpush c1 H1).
  - apply Z.ltb_lt in Hpre. destruct Hb as [Hs Hmax]. rewrite max_array_len_val in Hmax.
    unfold PopFront. eapply hoare_bind; [apply hoare_any|]. intros hd _.
    apply hoare_ret. unfold bounded. fields.
    rewrite wrap_small by (rewrite size_t_modulus_val; lia).
    rewrite max_array_len_val. lia.
  - apply Z.ltb_lt in Hpre. apply bounded_PopBack; assumption.
  - unfold InsertAt. eapply hoare_bind; [apply bounded_grow_if_full; exact Hb|].
    intros c1 H1.
    eapply hoare_bind; [apply hoare_any|]. intros ? _.
    eapply hoare_bind; [apply hoare_any|]. intros ? _.
    eapply hoare_bind; [apply hoare_any|]. intros ? _.
    eapply hoare_bind; [apply hoare_any|]. intros ? _.
    eapply hoare_bind; [apply hoare_any|]. intros t _.
    apply hoare_ret. apply (Hpush c1 H1).
  - apply andb_true_iff in Hpre. destruct Hpre as [H0 H1].
    apply Z.leb_le in H0. apply Z.ltb_lt in H1.
    unfold RemoveAt. eapply hoare_bind; [apply hoare_any|]. intros ? _.
    apply bounded_PopBack; [exact Hb|lia].
Qed.

Lemma bounded_sized n :
  0 <= n -> hoare anyheap (CircularArray_sized dflt n) bounded.
Proof.
  intros Hn. unfold CircularArray_sized.
  eapply hoare_bind; [apply hoare_new_fits|]. intros p Hfit. simpl in Hfit.
  apply hoare_ret. unfold bounded. simpl. rewrite ?max_array_len_val in *. lia.
Qed.

Lemma bounded_fill n v :
  0 <= n -> hoare anyheap (CircularArray_fill dflt n v) bounded.
Proof.
  intros Hn. unfold CircularArray_fill.
  eapply hoare_bind; [apply hoare_new_fits|]. intros p Hfit. simpl in Hfit.
  eapply hoare_bind; [apply hoare_any|]. intros ? _.
  apply hoare_ret. unfold bounded. simpl. rewrite ?max_array_len_val in *. lia.
Qed.

Lemma bounded_copy other :
  bounded other -> hoare anyheap (CircularArray_copy dflt other) bounded.
Proof.
  intros [Hs Hmax]. unfold CircularArray_copy.
  eapply hoare_bind; [apply hoare_new_fits|]. intros p Hfit. simpl in Hfit.
  eapply hoare_bind; [apply hoare_any|]. intros ? _.
  apply hoare_ret. unfold bounded. simpl. rewrite ?max_array_len_val in *. lia.
Qed.

Lemma reachable_bounded c h : reachable dflt c h -> bounded c.
Proof.
  induction 1 as [h|n h c h' Hn E|n v h c h' Hn E|other h c h' _ IH E
                 |q other h this other' _ IH E|q other h this other' _ IH E
                 |o c h c' h' _ IH Hpre E|c h h' _ IH _].
  - unfold bounded. simpl. rewrite max_array_len_val. lia.
  - apply (hoare_elim anyheap _ _ h c h' (bounded_sized n (proj1 Hn)) Logic.I E).
  - apply (hoare_elim anyheap _ _ h c h' (bounded_fill n v (proj1 Hn)) Logic.I E).
  - apply (hoare_elim anyheap _ _ h c h' (bounded_copy other IH) Logic.I E).
  - destruct q; [|discriminate E]. injection E as <- _. exact IH.
  - destruct q; [|discriminate E]. injection E as _ <-.
    destruct IH as [Hs Hmax]. unfold bounded. simpl. rewrite max_array_len_val. lia.
  - apply (hoare_elim anyheap _ _ h c' h' (bounded_run_op o c IH Hpre) Logic.I E).
  - exact IH.
Qed.

(** ** Sequences of pushes and pops *)

Lemma repr_default h : repr CircularArray_default h [].
Proof.
  exists []. split; [|split].
  - constructor; simpl; try reflexivity; try lia. rewrite max_array_len_val. lia.
  - reflexivity.
  - intros i Hi. simpl in Hi. lia.
Qed.

Lemma tail_ok_default : tail_ok CircularArray_default.
Proof. intros Hc. now contradiction Hc. Qed.

(** When a push finds the container full, it holds [length xs] elements, so
    the doubled capacity is within the bound on the final length. *)
Lemma growth_fits_from_length c h xs (k : nat) :
  repr c h xs -> 2 * Z.of_nat (length xs + S k) <= max_array_len ->
  size_ c = capacity_ c -> growth_fits c.
Proof.
  intros Hr Hk Hfull. apply repr_length in Hr. unfold growth_fits. lia.
Qed.

Lemma push_back_all_spec vs : forall c h xs,
  repr c h xs -> tail_ok c ->
  2 * Z.of_nat (length xs + length vs) <= max_array_len ->
  exists c' h', push_back_all dflt vs c h = Done (c', h') /\
                repr c' h' (xs ++ vs) /\ tail_ok c'.
Proof.
  induction vs as [|v vs IH]; intros c h xs Hr Ht Hfit.
  - exists c, h. rewrite app_nil_r. auto.
  - simpl in Hfit. apply wp_total_elim. simpl. apply wp_bind.
    apply (wp_PushBack c h xs v); [exact Hr|exact Ht| |].
    { apply (growth_fits_from_length c h xs (length vs)); assumption. }
    intros c1 h1 Hr1 Ht1 _.
    destruct (IH c1 h1 (xs ++ [v]) Hr1 Ht1) as (c' & h' & E & Hr' & Ht').
    { rewrite length_app. simpl. lia. }
    eapply wp_done; [exact E|]. rewrite <- app_assoc in Hr'. auto.
Qed.

Lemma push_front_all_spec vs : forall c h xs,
  repr c h xs -> tail_ok c ->
  2 * Z.of_nat (length xs + length vs) <= max_array_len ->
  exists c' h', push_front_all dflt vs c h = Done (c', h') /\
                repr c' h' (rev vs ++ xs) /\ tail_ok c'.
Proof.
  induction vs as [|v vs IH]; intros c h xs Hr Ht Hfit.
  - exists c, h. auto.
  - simpl in Hfit. apply wp_total_elim. simpl. apply wp_bind.
    apply (wp_PushFront c h xs v); [exact Hr| |].
    { apply (growth_fits_from_length c h xs (length vs)); assumption. }
    intros c1 h1 Hr1 Ht1 _. specialize (Ht1 Ht).
    destruct (IH c1 h1 (v :: xs) Hr1 Ht1) as (c' & h' & E & Hr' & Ht').
    { simpl. lia. }
    eapply wp_done; [exact E|]. rewrite <- app_assoc. auto.
Qed.

(** Reading [Front()] and popping it, once per element, lists the sequence. *)
Lemma drain_front_spec xs : forall c h,
  repr c h xs ->
  exists c', drain_front (length xs) c h = Done ((xs, c'), h) /\ repr c' h [].
Proof.
  induction xs as [|x xs IH]; intros c h Hr.
  - exists c. auto.
  - destruct (Front_spec c h x xs Hr) as (a & _ & EF & ER).
    assert (W : wp true (drain_front (length (x :: xs)) c)
                  (fun r h' => h' = h /\ fst r = x :: xs /\ repr (snd r) h []) h).
    { simpl. apply wp_bind. eapply wp_done; [exact EF|].
      apply wp_bind. eapply wp_done; [exact ER|].
      apply wp_bind. apply (wp_PopFront c h x xs _ Hr). intros c1 Hr1 _ _.
      destruct (IH c1 h Hr1) as (c' & E & Hr').
      apply wp_bind. eapply wp_done; [exact E|]. apply wp_ret. simpl. auto. }
    apply wp_total_elim in W. destruct W as ([ys c'] & h' & E & -> & Ey & Hr').
    simpl in Ey, Hr'. subst ys. eauto.
Qed.

(** Reading [Back()] and popping it, once per element, lists the sequence
    backwards. *)
Lemma drain_back_spec xs : forall c h,
  repr c h xs -> tail_ok c ->
  exists c', drain_back (length xs) c h = Done ((rev xs, c'), h) /\ repr c' h [].
Proof.
  induction xs as [|x xs IH] using rev_ind; intros c h Hr Ht.
  - exists c. auto.
  - destruct (Back_spec c h xs x Hr Ht) as (a & _ & EB & ER).
    assert (W : wp true (drain_back (S (length xs)) c)
                  (fun r h' => h' = h /\ fst r = x :: rev xs /\ repr (snd r) h []) h).
    { simpl. apply wp_bind. eapply wp_done; [exact EB|].
      apply wp_bind. eapply wp_done; [exact ER|].
      apply wp_bind. apply (wp_PopBack c h xs x _ Hr). intros c1 Hr1 Ht1 _.
      destruct (IH c1 h Hr1 (Ht1 Ht)) as (c' & E & Hr').
      apply wp_bind. eapply wp_done; [exact E|]. apply wp_ret. simpl. auto. }
    apply wp_total_elim in W. destruct W as ([ys c'] & h' & E & -> & Ey & Hr').
    simpl in Ey, Hr'. subst ys.
    rewrite length_app, rev_app_distr. simpl.
    replace (length xs + 1)%nat with (S (length xs)) by lia. eauto.
Qed.

(** A container holding one element: the three accessors agree on it. *)
Lemma singleton_accessors c h v :
  repr c h [v] -> tail_ok c ->
  exists r, Front c h = Done (r, h) /\ Back c h = Done (r, h) /\
            index c 0 h = Done (r, h) /\ read r h = Done (v, h).
Proof.
  intros Hr Ht. pose proof Hr as (blk & Hwf & Hsz & _). simpl in Hsz.
  pose proof (wf_size _ _ _ Hwf) as Hs.
  assert (Hc : capacity_ c <> 0) by lia. pose proof (wf_head _ _ _ Hwf Hc) as Hh.
  assert (E0 : slot c 0 = head_ c).
  { unfold slot. rewrite Z.add_0_r. apply Z.mod_small. exact Hh. }
  destruct (Front_spec c h v [] Hr) as (a & Ea & EF & ER).
  destruct (Back_spec c h [] v Hr Ht) as (a1 & Ea1 & EB & _).
  destruct (index_spec c h [v] 0 v Hr eq_refl) as (a2 & Ea2 & EI & _).
  rewrite Ea in Ea1, Ea2. injection Ea1 as <-. injection Ea2 as <-.
  rewrite Hsz in EB. change (Z.of_nat 1 - 1) with 0 in EB.
  change (Z.of_nat 0) with 0 in EI.
  rewrite E0 in EB, EI. eauto.
Qed.

(** [repr] from its components, for containers given explicitly. *)
Lemma repr_intro c h xs blk :
  match data_array_ c with
  | Some a => live h a = Some blk
  | None => blk = []
  end ->
  Z.of_nat (length blk) = capacity_ c ->
  capacity_ c <= max_array_len ->
  0 <= size_ c <= capacity_ c ->
  (capacity_ c <> 0 -> 0 <= head_ c < capacity_ c) ->
  size_ c = Z.of_nat (length xs) ->
  (forall i : nat, (i < length xs)%nat ->
     blk !! Z.to_nat (slot c (Z.of_nat i)) = xs !! i) ->
  repr c h xs.
Proof.
  intros H1 H2 H3 H4 H5 H6 H7. exists blk. split; [|split]; try assumption.
  constructor; auto.
Qed.


(** ** Every operation implements its deque operation *)

Lemma bind_Done {A B} (m : M A) (f : A -> M B) h y h' :
  (m ≫= f) h = Done (y, h') ->
  exists x h1, m h = Done (x, h1) /\ f x h1 = Done (y, h').
Proof.
  unfold mbind, M_bind, bind. destruct (m h) as [[x h1]| |]; [eauto|discriminate..].
Qed.

Lemma repr_bounded c h xs : repr c h xs -> bounded c.
Proof. intros (blk & [_ _ Hmax Hs _] & _). split; assumption. Qed.

(** If growth returned, its allocation was granted. *)
Lemma growth_granted c h c1 h1 :
  bounded c -> size_ c = capacity_ c ->
  grow_if_full dflt c h = Done (c1, h1) -> growth_fits c.
Proof.
  intros [Hs Hmax] Hfull E. rewrite max_array_len_val in Hmax.
  unfold grow_if_full in E.
  replace (size_ c =? capacity_ c) with true in E by (symmetry; apply Z.eqb_eq; exact Hfull).
  unfold ExtandArray in E. cbv zeta in E. apply bind_Done in E.
  destruct E as (p & h2 & En & _). revert En.
  set (c2 := if capacity_ c =? 0 then _ else c).
  assert (Ec : capacity_ c2 = Z.max 1 (capacity_ c)).
  { subst c2. destruct (Z.eqb_spec (capacity_ c) 0); simpl; lia. }
  rewrite Ec. rewrite wrap_small by (rewrite size_t_modulus_val; lia).
  unfold new, growth_fits. destruct (Z.leb_spec (Z.max 1 (capacity_ c) * 2) max_array_len).
  - intros _. lia.
  - discriminate.
Qed.

(** Total correctness: within its precondition and with the allocation
    granted, an operation on a container with a consistent tail pointer returns
    and the container then holds the sequence the deque operation gives. *)
Lemma run_op_total o c h xs :
  repr c h xs -> tail_ok c -> pre o c = true ->
  (inserts o = true -> size_ c = capacity_ c -> growth_fits c) ->
  exists c' h', run_op dflt o c h = Done (c', h') /\
                repr c' h' (apply_op o xs) /\ tail_ok c'.
Proof.
  intros Hr Ht Hpre Hfit. pose proof (repr_length _ _ _ Hr) as Hlen.
  apply wp_total_elim. destruct o as [v|v| | |v pos|pos]; simpl in *.
  - apply (wp_PushFront c h xs v); [exact Hr|exact (Hfit eq_refl)|]. auto.
  - apply (wp_PushBack c h xs v); [exact Hr|exact Ht|exact (Hfit eq_refl)|]. auto.
  - apply Z.ltb_lt in Hpre. destruct xs as [|x xs]; [simpl in Hlen; lia|].
    apply (wp_PopFront c h x xs _ Hr). simpl. rewrite drop_0. auto.
  - apply Z.ltb_lt in Hpre.
    destruct (exists_last (l := xs)) as (ys & y & ->);
      [intros ->; simpl in Hlen; lia|].
    apply (wp_PopBack c h ys y _ Hr). intros c' Hr' Ht' _.
    rewrite length_app. simpl.
    replace (length ys + 1 - 1)%nat with (length ys) by lia.
    rewrite take_app_length. auto.
  - apply andb_true_iff in Hpre. destruct Hpre as [H0 H1].
    apply Z.leb_le in H0. apply Z.leb_le in H1.
    apply (wp_InsertAt c h xs v pos); [exact Hr|lia|exact (Hfit eq_refl)|]. auto.
  - apply andb_true_iff in Hpre. destruct Hpre as [H0 H1].
    apply Z.leb_le in H0. apply Z.ltb_lt in H1.
    apply (wp_RemoveAt c h xs pos); [exact Hr|lia|]. auto.
Qed.

(** The same for any call that returned: the hypothesis on the allocation is
    not needed. *)
Lemma run_op_refines o c h xs c' h' :
  repr c h xs -> tail_ok c -> pre o c = true ->
  run_op dflt o c h = Done (c', h') ->
  repr c' h' (apply_op o xs) /\ tail_ok c'.
Proof.
  intros Hr Ht Hpre E.
  assert (Hfit : inserts o = true -> size_ c = capacity_ c -> growth_fits c).
  { intros Hins Hfull. pose proof (repr_bounded _ _ _ Hr) as Hb.
    destruct o as [v|v| | |v pos|pos]; try discriminate Hins; simpl in E;
      apply bind_Done in E; destruct E as (c1 & h1 & E & _);
      exact (growth_granted c h c1 h1 Hb Hfull E). }
  destruct (run_op_total o c h xs Hr Ht Hpre Hfit) as (c2 & h2 & E2 & Hr2 & Ht2).
  rewrite E in E2. injection E2 as <- <-. auto.
Qed.

Lemma pre_seq_pre o c h xs : repr c h xs -> pre o c = pre_seq o xs.
Proof.
  intros Hr. apply repr_length in Hr. destruct o; simpl; rewrite ?Hr; reflexivity.
Qed.

(** Refinement: from a container with a consistent tail pointer, any run of
    operations within their preconditions that returns leaves the container
    holding what the same run of deque operations gives, again with a
    consistent tail pointer. *)
Lemma run_ops_refine os : forall c h xs ys c' h',
  repr c h xs -> tail_ok c -> apply_ops os xs = Some ys ->
  run_ops dflt os c h = Done (c', h') ->
  repr c' h' ys /\ tail_ok c'.
Proof.
  induction os as [|o os IH]; intros c h xs ys c' h' Hr Ht Hys E; simpl in *.
  - injection Hys as <-. injection E as <- <-. auto.
  - destruct (pre_seq o xs) eqn:Hpre; [|discriminate].
    rewrite <- (pre_seq_pre o c h xs Hr) in Hpre.
    apply bind_Done in E. destruct E as (c1 & h1 & E1 & E).
    destruct (run_op_refines o c h xs c1 h1 Hr Ht Hpre E1) as [Hr1 Ht1].
    exact (IH c1 h1 _ ys c' h' Hr1 Ht1 Hys E).
Qed.

(** The default and the sized constructor establish what the operations
    preserve. *)
Lemma sized_repr n h c h' :
  0 <= n -> CircularArray_sized dflt n h = Done (c, h') ->
  repr c h' [] /\ tail_ok c.
Proof.
  intros Hn E. unfold CircularArray_sized in E. apply bind_Done in E.
  destruct E as (p & h1 & En & Er). unfold new in En.
  destruct (Z.leb_spec n max_array_len) as [Hle|]; [|discriminate].
  injection En as <- <-. injection Er as <- <-. split.
  - apply (repr_intro _ _ [] (replicate (Z.to_nat n) dflt)); simpl;
      try lia; try reflexivity.
    + apply live_app_new.
    + rewrite length_replicate. lia.
  - intros Hc. unfold slot. simpl. rewrite Z.mod_0_l by exact Hc. reflexivity.
Qed.

(** * The claims *)

(** C1, as amended.  When an insertion ([PushFront], [PushBack] and [InsertAt]
    all start with [grow_if_full]) finds [size_ = capacity_] and the
    allocation is granted, growth allocates a new array of [2 * max 1 capacity_]
    slots (2 slots when the capacity was 0), copies the logical window into it
    from physical index 0 on in logical order, sets [head_] to 0 and sets
    [tail_] to the logical size. *)
Theorem growth_policy c h xs :
  repr c h xs -> size_ c = capacity_ c -> growth_fits c ->
  (forall o, inserts o = true ->
     exists rest, run_op dflt o c = (this ← grow_if_full dflt c; rest this)) /\
  exists c' h' nb,
    grow_if_full dflt c h = Done (c', h') /\
    data_array_ c' = Some (length h) /\ live h' (length h) = Some nb /\
    capacity_ c' = 2 * Z.max 1 (capacity_ c) /\
    Z.of_nat (length nb) = capacity_ c' /\
    (forall i : nat, (i < length xs)%nat -> nb !! i = xs !! i) /\
    head_ c' = 0 /\ tail_ c' = size_ c /\ size_ c' = size_ c.
Proof.
  intros Hr Hfull Hfit. split.
  { intros [v|v| | |v pos|pos] Hins; try discriminate Hins; eexists; reflexivity. }
  unfold grow_if_full.
  replace (size_ c =? capacity_ c) with true by (symmetry; apply Z.eqb_eq; exact Hfull).
  assert (W : wp true (ExtandArray dflt c)
                (fun c' h' => exists nb,
                   data_array_ c' = Some (length h) /\ live h' (length h) = Some nb /\
                   capacity_ c' = 2 * Z.max 1 (capacity_ c) /\
                   Z.of_nat (length nb) = capacity_ c' /\
                   (forall i : nat, (i < length xs)%nat -> nb !! i = xs !! i) /\
                   head_ c' = 0 /\ tail_ c' = size_ c /\ size_ c' = size_ c) h).
  { apply (wp_ExtandArray c h xs); [exact Hr|exact Hfit|].
    intros nb h' Hlive Hlen Hpre _ _. exists nb. simpl. auto 10. }
  apply wp_total_elim in W. destruct W as (c' & h' & E & nb & W).
  exists c', h', nb. split; [exact E|exact W].
Qed.

(** C6.  For a container holding [xs] and a position [0 <= pos <= Size()],
    [InsertAt(v, pos)] followed by [RemoveAt(pos)] leaves the logical sequence
    read through [operator[]] and the size as they were. *)
Theorem insert_then_remove_restores c h xs v pos :
  repr c h xs -> 0 <= pos <= Size c ->
  (Size c = Capacity c -> growth_fits c) ->
  exists c1 h1 c2 h2,
    InsertAt dflt v pos c h = Done (c1, h1) /\
    RemoveAt pos c1 h1 = Done (c2, h2) /\
    to_list c h = Done (xs, h) /\
    to_list c2 h2 = Done (xs, h2) /\ Size c2 = Size c.
Proof.
  unfold Size, Capacity. intros Hr Hpos Hfit.
  pose proof (repr_length _ _ _ Hr) as Hlen.
  destruct (wp_total_elim _ _ _
              (wp_InsertAt c h xs v pos
                 (fun c1 h1 => repr c1 h1 (insert_at (Z.to_nat pos) v xs))
                 Hr Hpos Hfit (fun c1 h1 H1 _ _ => H1)))
    as (c1 & h1 & E1 & Hr1).
  pose proof (repr_length _ _ _ Hr1) as Hlen1. rewrite insert_at_length in Hlen1.
  assert (Hpos1 : 0 <= pos < size_ c1) by lia.
  destruct (wp_total_elim _ _ _
              (wp_RemoveAt c1 h1 _ pos
                 (fun c2 h2 => repr c2 h2 (delete (Z.to_nat pos)
                                             (insert_at (Z.to_nat pos) v xs)))
                 Hr1 Hpos1 (fun c2 h2 H2 _ _ => H2)))
    as (c2 & h2 & E2 & Hr2).
  rewrite delete_insert_at in Hr2 by lia.
  exists c1, h1, c2, h2. repeat split; try assumption.
  - apply to_list_spec. exact Hr.
  - apply to_list_spec. exact Hr2.
  - rewrite (repr_length _ _ _ Hr2). symmetry. exact Hlen.
Qed.

(** C7.  After every constructor and after every operation called within its
    precondition, [size_ <= capacity_]. *)
Theorem size_le_capacity c h : reachable dflt c h -> Size c <= Capacity c.
Proof.
  intros Hreach. destruct (reachable_bounded c h Hreach) as [Hs _].
  unfold Size, Capacity. lia.
Qed.

(** C8.  Copy construction yields a container with the source's logical
    sequence, capacity equal to the source's size, and head 0; operations on
    the copy do not change the sequence the source holds, nor the other way
    round. *)
Theorem copy_is_independent src h xs :
  repr src h xs ->
  exists cp h1,
    CircularArray_copy dflt src h = Done (cp, h1) /\
    to_list cp h1 = Done (xs, h1) /\ to_list src h1 = Done (xs, h1) /\
    Capacity cp = Size src /\ head_ cp = 0 /\
    (forall os cp' h2,
       run_ops dflt os cp h1 = Done (cp', h2) -> to_list src h2 = Done (xs, h2)) /\
    (forall os src' h2,
       run_ops dflt os src h1 = Done (src', h2) -> to_list cp h2 = Done (xs, h2)).
Proof.
  intros Hr.
  destruct (copy_repr src h xs Hr) as (cp & h1 & E & Hcp & Hsrc & Ecp & Hlen & Hlt).
  assert (Ed : data_array_ cp = Some (length h)) by (rewrite Ecp; reflexivity).
  exists cp, h1. split; [exact E|]. split; [apply to_list_spec; exact Hcp|].
  split; [apply to_list_spec; exact Hsrc|].
  split; [rewrite Ecp; reflexivity|]. split; [rewrite Ecp; reflexivity|].
  split.
  - intros os cp' h2 Eops. apply to_list_spec. apply (repr_frame src h1); [exact Hsrc|].
    intros a Ea. specialize (Hlt a Ea).
    apply (frame_live _ _ _ _ a (run_ops_frame _ _ _ _ _ Eops)); [lia|].
    rewrite Ed. intros [= Heq]. lia.
  - intros os src' h2 Eops. apply to_list_spec. apply (repr_frame cp h1); [exact Hcp|].
    rewrite Ed. intros a [= <-].
    apply (frame_live _ _ _ _ _ (run_ops_frame _ _ _ _ _ Eops)); [lia|].
    intros Ea. specialize (Hlt _ Ea). lia.
Qed.

(** C9 fails on the code: no container is ever the source of a move
    construction.  The move constructor takes its parameter by reference to
    const and its body assigns to three members of it, so the constructor is
    ill-formed wherever it is instantiated.  The body attempts what the claim
    says: with a parameter that is not const it leaves the source with size 0,
    capacity 0 and no array, and the destructor of the source then releases
    nothing. *)
Theorem move_constructor_is_ill_formed other h :
  CircularArray_move other = None /\
  exists this other',
    move_construct cv_none other = Some (this, other') /\
    this = other /\
    Size other' = 0 /\ Capacity other' = 0 /\ data_array_ other' = None /\
    destroy (V:=V) other' h = Done (tt, h).
Proof.
  split; [reflexivity|].
  exists other, (mkCA None (head_ other) (tail_ other) 0 0).
  split; [destruct other; reflexivity|]. repeat split.
Qed.

(** C10.  [PushBack(v)] or [PushFront(v)] on a default-constructed container
    returns normally with size 1 and capacity 2, and [Front()], [Back()] and
    [operator[](0)] all designate the same slot, which holds [v]. *)
Theorem first_push_on_default v h :
  (exists c' h' r,
     PushBack dflt v CircularArray_default h = Done (c', h') /\
     Size c' = 1 /\ Capacity c' = 2 /\
     Front c' h' = Done (r, h') /\ Back c' h' = Done (r, h') /\
     index c' 0 h' = Done (r, h') /\ read r h' = Done (v, h')) /\
  (exists c' h' r,
     PushFront dflt v CircularArray_default h = Done (c', h') /\
     Size c' = 1 /\ Capacity c' = 2 /\
     Front c' h' = Done (r, h') /\ Back c' h' = Done (r, h') /\
     index c' 0 h' = Done (r, h') /\ read r h' = Done (v, h')).
Proof.
  assert (Hfit : size_ CircularArray_default = capacity_ CircularArray_default ->
                 growth_fits CircularArray_default).
  { intros _. unfold growth_fits. simpl. rewrite max_array_len_val. lia. }
  split.
  - destruct (wp_total_elim _ _ _
                (wp_PushBack CircularArray_default h [] v
                   (fun c' h' => repr c' h' [v] /\ tail_ok c' /\ capacity_ c' = 2)
                   (repr_default h) tail_ok_default Hfit
                   (fun c' h' H1 H2 H3 => conj H1 (conj H2 H3))))
      as (c' & h' & E & Hr & Ht & Hc).
    destruct (singleton_accessors c' h' v Hr Ht) as (r & H1 & H2 & H3 & H4).
    exists c', h', r. unfold Size, Capacity.
    rewrite (repr_length _ _ _ Hr). simpl. auto 10.
  - destruct (wp_total_elim _ _ _
                (wp_PushFront CircularArray_default h [] v
                   (fun c' h' => repr c' h' [v] /\ tail_ok c' /\ capacity_ c' = 2)
                   (repr_default h) Hfit
                   (fun c' h' H1 H2 H3 => conj H1 (conj (H2 tail_ok_default) H3))))
      as (c' & h' & E & Hr & Ht & Hc).
    destruct (singleton_accessors c' h' v Hr Ht) as (r & H1 & H2 & H3 & H4).
    exists c', h', r. unfold Size, Capacity.
    rewrite (repr_length _ _ _ Hr). simpl. auto 10.
Qed.


(** * Further properties of the code *)

(** ** The operations as a whole *)

Lemma bind_BadAlloc {A B} (m : M A) (f : A -> M B) h :
  m h = BadAlloc -> (m ≫= f) h = BadAlloc.
Proof. intros E. unfold mbind, M_bind, bind. rewrite E. reflexivity. Qed.

(** X1.  From a container with a consistent tail pointer, a run of
    [PushFront], [PushBack], [PopFront], [PopBack], [InsertAt] and [RemoveAt]
    calls, each within its precondition, leaves the container holding what the
    same run of list operations gives: [operator[]] reads that list, [Size()]
    is its length, [Empty()] tells whether it is empty, and the tail pointer is
    consistent again. *)
Theorem operations_refine_deque os c h xs ys c' h' :
  repr c h xs -> tail_ok c -> apply_ops os xs = Some ys ->
  run_ops dflt os c h = Done (c', h') ->
  to_list c' h' = Done (ys, h') /\ Size c' = Z.of_nat (length ys) /\
  (Empty c' = true <-> ys = []) /\ tail_ok c'.
Proof.
  intros Hr Ht Hys E.
  destruct (run_ops_refine os c h xs ys c' h' Hr Ht Hys E) as [Hr' Ht'].
  pose proof (repr_length _ _ _ Hr') as Hlen.
  split; [apply to_list_spec; exact Hr'|]. split; [exact Hlen|]. split; [|exact Ht'].
  unfold Empty. rewrite Z.eqb_eq, Hlen. destruct ys; simpl; split; intros H;
    try reflexivity; try discriminate; lia.
Qed.



(** ** Constructors and accessors at the edges *)

(** X3.  The fill constructor with a count [n] that [new] grants returns a
    container of size and capacity [n], in an array of its own, whose logical
    sequence is [n] copies of the value; a larger count ends in the exception
    of [new]. *)
Theorem fill_holds_copies n v h :
  0 <= n ->
  (n <= max_array_len ->
   exists c h',
     CircularArray_fill dflt n v h = Done (c, h') /\
     to_list c h' = Done (replicate (Z.to_nat n) v, h') /\
     Size c = n /\ Capacity c = n /\ data_array_ c = Some (length h) /\
     forall a, (a < length h)%nat -> h' !! a = h !! a) /\
  (max_array_len < n -> CircularArray_fill dflt n v h = BadAlloc).
Proof.
  intros Hn. split.
  - intros Hmax. apply wp_total_elim. unfold CircularArray_fill.
    set (pn := length h).
    set (h1 := h ++ [Some (replicate (Z.to_nat n) dflt)]).
    apply wp_bind. apply wp_new; [intros _; exact Hmax|]. intros _. fold h1. fold pn.
    assert (Hpn : (pn < length h1)%nat).
    { subst h1 pn. rewrite length_app. simpl. lia. }
    apply wp_bind.
    apply (wp_for_up true (fun i h' => exists nb,
             h' = <[pn := Some nb]> h1 /\ Z.of_nat (length nb) = n /\
             forall j : nat, Z.of_nat j < i -> nb !! j = Some v)).
    + lia.
    + exists (replicate (Z.to_nat n) dflt). split; [|split].
      * symmetry. apply list_insert_id. subst h1 pn.
        rewrite lookup_app_r by lia. rewrite Nat.sub_diag. reflexivity.
      * rewrite length_replicate. lia.
      * intros j Hj. lia.
    + intros i h' Hi (nb & -> & Hnb & Hpre).
      apply wp_bind. apply wp_subscript.
      { intros _. exists pn, nb. rewrite live_insert_eq by exact Hpn.
        repeat split; auto; lia. }
      intros a1 blk1 Ea1 El1 _. injection Ea1 as <-.
      rewrite live_insert_eq in El1 by exact Hpn. injection El1 as <-.
      apply wp_write; simpl.
      { intros _. exists nb. rewrite live_insert_eq by exact Hpn. split; [reflexivity|lia]. }
      intros blk2 El2 _. rewrite live_insert_eq in El2 by exact Hpn. injection El2 as <-.
      exists (<[Z.to_nat i := v]> nb). split; [|split].
      * apply list_insert_insert_eq.
      * rewrite length_insert. exact Hnb.
      * intros j Hj. destruct (decide (j = Z.to_nat i)) as [->|Hne].
        -- apply list_lookup_insert_eq. lia.
        -- rewrite list_lookup_insert_ne by auto. apply Hpre. lia.
    + intros h2 (nb & -> & Hnb & Hpre). apply wp_ret.
      split; [|split; [reflexivity|split; [reflexivity|split; [reflexivity|]]]].
      * apply to_list_spec. apply (repr_intro _ _ _ nb); simpl; try lia.
        -- apply live_insert_eq. exact Hpn.
        -- rewrite length_replicate. lia.
        -- intros i Hi. rewrite length_replicate in Hi. unfold slot. simpl.
           rewrite Z.add_0_l, Z.mod_small, Nat2Z.id by lia.
           rewrite Hpre by lia. symmetry. apply lookup_replicate_2. exact Hi.
      * intros a Ha. rewrite list_lookup_insert_ne by (subst pn; lia).
        subst h1. apply lookup_app_l. exact Ha.
  - intros Hbig. unfold CircularArray_fill. apply bind_BadAlloc. unfold new.
    destruct (Z.leb_spec n max_array_len); [lia|reflexivity].
Qed.

(** X6.  [operator[]] reduces the index modulo the capacity: on a container
    with a non-zero capacity it returns, for every [size_t] index, a reference
    to a slot of the container's own array; on a container of capacity 0 it is
    undefined (division by zero). *)
Theorem index_stays_in_array c h blk i :
  wf c h blk -> 0 <= i < size_t_modulus ->
  (capacity_ c <> 0 ->
   exists a k, data_array_ c = Some a /\ index c i h = Done (mkref a k, h) /\
               k = wrap (head_ c + i) mod capacity_ c /\
               0 <= k < capacity_ c /\ is_Some (blk !! Z.to_nat k)) /\
  (capacity_ c = 0 -> index c i h = Undefined).
Proof.
  intros Hwf Hi. split.
  - intros Hc. destruct (wf_data _ _ _ Hwf Hc) as (a & Ea & El).
    pose proof (wf_len _ _ _ Hwf) as Hlen. pose proof (wf_cap_nonneg _ _ _ Hwf) as Hc0.
    set (k := wrap (head_ c + i) mod capacity_ c).
    assert (Hk : 0 <= k < capacity_ c) by (apply Z.mod_pos_bound; lia).
    exists a, k. split; [exact Ea|]. split; [|split; [reflexivity|split; [exact Hk|]]].
    + assert (W : wp true (index c i) (fun r h' => r = mkref a k /\ h' = h) h).
      { unfold index. apply wp_bind. apply wp_umod; [auto|]. intros _. fold k.
        apply wp_subscript.
        - intros _. exists a, blk. repeat split; auto; lia.
        - intros a' blk' Ea' _ _. rewrite Ea in Ea'. injection Ea' as <-. auto. }
      apply wp_total_elim in W. destruct W as (r & h' & E & -> & ->). exact E.
    + apply lookup_lt_is_Some. lia.
  - intros Hc. unfold index, umod. rewrite Hc. reflexivity.
Qed.

(** X7.  The pops do not check for an empty container.  [PopBack()] on a
    container of size 0 returns with [size_] wrapped to [SIZE_MAX], so that
    [Empty()] is false; [PopFront()] does the same when the capacity is not 0,
    and is undefined (division by zero) when it is 0. *)
Theorem pop_on_empty c h :
  size_ c = 0 ->
  (exists c', PopBack (V:=V) c h = Done (c', h) /\
              Size c' = size_t_modulus - 1 /\ Empty c' = false) /\
  (capacity_ c <> 0 ->
   exists c', PopFront (V:=V) c h = Done (c', h) /\
              Size c' = size_t_modulus - 1 /\ Empty c' = false) /\
  (capacity_ c = 0 -> PopFront (V:=V) c h = Undefined).
Proof.
  intros Hs. split; [|split].
  - eexists. split; [reflexivity|]. unfold Size, Empty.
    destruct (tail_ c =? 0); fields; rewrite Hs; split; reflexivity.
  - intros Hc. unfold PopFront, umod.
    destruct (Z.eqb_spec (capacity_ c) 0) as [E|_]; [contradiction|].
    eexists. split; [reflexivity|]. unfold Size, Empty. fields. rewrite Hs.
    split; reflexivity.
  - intros Hc. unfold PopFront, umod. rewrite Hc. reflexivity.
Qed.


(** ** How the operations compose *)

Lemma insert_at_delete (p : nat) x xs :
  xs !! p = Some x -> insert_at p x (delete p xs) = xs.
Proof.
  intros Hx. pose proof (lookup_lt_Some _ _ _ Hx) as Hp.
  unfold insert_at. rewrite delete_take_drop.
  rewrite take_app_length' by (rewrite length_take; lia).
  rewrite drop_app_length' by (rewrite length_take; lia).
  apply take_drop_middle. exact Hx.
Qed.

Lemma insert_at_end v xs : insert_at (length xs) v xs = xs ++ [v].
Proof. unfold insert_at. now rewrite take_ge, drop_ge by lia. Qed.

(** X8.  [RemoveAt(pos)] followed by [InsertAt(x, pos)], where [x] is the
    element that was at [pos], gives back the logical sequence, with the same
    size and capacity: the insertion finds room and does not grow. *)
Theorem remove_then_insert_restores c h xs x pos :
  repr c h xs -> 0 <= pos -> xs !! Z.to_nat pos = Some x ->
  exists c1 h1 c2 h2,
    RemoveAt pos c h = Done (c1, h1) /\
    InsertAt dflt x pos c1 h1 = Done (c2, h2) /\
    to_list c2 h2 = Done (xs, h2) /\ Size c2 = Size c /\ Capacity c2 = Capacity c.
Proof.
  unfold Size, Capacity. intros Hr Hpos Hx.
  pose proof (repr_length _ _ _ Hr) as Hlen.
  pose proof (lookup_lt_Some _ _ _ Hx) as Hp.
  assert (Hpos0 : 0 <= pos < size_ c) by lia.
  destruct (wp_total_elim _ _ _
              (wp_RemoveAt c h xs pos
                 (fun c1 h1 => repr c1 h1 (delete (Z.to_nat pos) xs) /\
                               capacity_ c1 = capacity_ c)
                 Hr Hpos0 (fun c1 h1 H1 _ H3 => conj H1 H3)))
    as (c1 & h1 & E1 & Hr1 & Hc1).
  pose proof (repr_length _ _ _ Hr1) as Hlen1.
  rewrite length_delete in Hlen1 by (apply lookup_lt_is_Some; exact Hp).
  pose proof (repr_bounded _ _ _ Hr) as [Hs _].
  assert (Hpos1 : 0 <= pos <= size_ c1) by lia.
  assert (Hnf : size_ c1 <> capacity_ c1) by lia.
  assert (W : wp true (InsertAt dflt x pos c1)
                (fun c2 h2 => repr c2 h2 (insert_at (Z.to_nat pos) x
                                            (delete (Z.to_nat pos) xs)) /\
                              capacity_ c2 = capacity_ c1) h1).
  { apply (wp_InsertAt c1 h1 (delete (Z.to_nat pos) xs) x pos);
      [exact Hr1|exact Hpos1|intros H; contradiction|].
    intros c2 h2 H1 _ H3. split; [exact H1|].
    rewrite H3. destruct (Z.eqb_spec (size_ c1) (capacity_ c1)); [contradiction|reflexivity]. }
  apply wp_total_elim in W. destruct W as (c2 & h2 & E2 & Hr2 & Hc2).
  rewrite insert_at_delete in Hr2 by exact Hx.
  exists c1, h1, c2, h2. repeat split; try assumption.
  - apply to_list_spec. exact Hr2.
  - rewrite (repr_length _ _ _ Hr2). symmetry. exact Hlen.
  - congruence.
Qed.

(** X9.  On a container with a consistent tail pointer, [InsertAt(v, Size())]
    leaves the same logical sequence as [PushBack(v)], and [InsertAt(v, 0)] the
    same as [PushFront(v)]. *)
Theorem insert_at_the_ends c h xs v :
  repr c h xs -> tail_ok c -> (size_ c = capacity_ c -> growth_fits c) ->
  (exists c1 h1 c2 h2,
     InsertAt dflt v (Size c) c h = Done (c1, h1) /\
     PushBack dflt v c h = Done (c2, h2) /\
     to_list c1 h1 = Done (xs ++ [v], h1) /\ to_list c2 h2 = Done (xs ++ [v], h2)) /\
  (exists c1 h1 c2 h2,
     InsertAt dflt v 0 c h = Done (c1, h1) /\
     PushFront dflt v c h = Done (c2, h2) /\
     to_list c1 h1 = Done (v :: xs, h1) /\ to_list c2 h2 = Done (v :: xs, h2)).
Proof.
  unfold Size. intros Hr Ht Hfit. pose proof (repr_length _ _ _ Hr) as Hlen.
  pose proof (repr_bounded _ _ _ Hr) as [Hs _].
  assert (Hop : forall o, inserts o = true -> pre o c = true ->
            exists c' h', run_op dflt o c h = Done (c', h') /\
                          to_list c' h' = Done (apply_op o xs, h')).
  { intros o Hins Hpre.
    destruct (run_op_total o c h xs Hr Ht Hpre (fun _ => Hfit)) as (c' & h' & E & Hr' & _).
    exists c', h'. split; [exact E|apply to_list_spec; exact Hr']. }
  split.
  - destruct (Hop (OpInsertAt v (size_ c)) eq_refl) as (c1 & h1 & E1 & L1).
    { simpl. apply andb_true_iff. split; [apply Z.leb_le; lia|apply Z.leb_refl]. }
    destruct (Hop (OpPushBack v) eq_refl eq_refl) as (c2 & h2 & E2 & L2).
    simpl in *. rewrite Hlen, Nat2Z.id, insert_at_end in L1. eauto 10.
  - destruct (Hop (OpInsertAt v 0) eq_refl) as (c1 & h1 & E1 & L1).
    { simpl. apply Z.leb_le. lia. }
    destruct (Hop (OpPushFront v) eq_refl eq_refl) as (c2 & h2 & E2 & L2).
    simpl in *. eauto 10.
Qed.


(** ** Allocation and release of the arrays *)

Lemma live_blocks_app h (o : option (list V)) :
  live_blocks (h ++ [o]) = (live_blocks h + match o with Some _ => 1 | None => 0 end)%nat.
Proof.
  induction h as [|[b|] h IH]; simpl.
  - destruct o; reflexivity.
  - rewrite IH. reflexivity.
  - exact IH.
Qed.

Lemma live_blocks_write h a blk blk' :
  live h a = Some blk -> live_blocks (<[a := Some blk']> h) = live_blocks h.
Proof.
  revert a. induction h as [|o h IH]; intros [|a] Hl; try discriminate Hl.
  - apply live_lookup in Hl. simpl in Hl. injection Hl as ->. reflexivity.
  - change (<[S a := Some blk']> (o :: h)) with (o :: <[a := Some blk']> h).
    assert (Hl' : live h a = Some blk) by exact Hl.
    destruct o; simpl; rewrite (IH a Hl'); reflexivity.
Qed.

Lemma live_blocks_free h a blk :
  live h a = Some blk -> S (live_blocks (<[a := None]> h)) = live_blocks h.
Proof.
  revert a. induction h as [|o h IH]; intros [|a] Hl; try discriminate Hl.
  - apply live_lookup in Hl. simpl in Hl. injection Hl as ->. reflexivity.
  - change (<[S a := None]> (o :: h)) with (o :: <[a := None]> h).
    assert (Hl' : live h a = Some blk) by exact Hl.
    destruct o; simpl; rewrite <- (IH a Hl'); reflexivity.
Qed.

Lemma steady_refl h : steady h h.
Proof. repeat split; auto. Qed.

Lemma steady_write h0 h a blk blk' :
  steady h0 h -> live h a = Some blk -> steady h0 (<[a := Some blk']> h).
Proof.
  intros (Hl & Hn & Hs) Ha. pose proof (live_lt _ _ _ Ha) as Hlt. split; [|split].
  - rewrite length_insert. exact Hl.
  - rewrite (live_blocks_write h a blk blk' Ha). exact Hn.
  - intros a'. rewrite <- Hs. destruct (decide (a = a')) as [<-|Hne].
    + rewrite live_insert_eq by exact Hlt. rewrite Ha. split; eauto.
    + rewrite live_insert_ne by exact Hne. reflexivity.
Qed.

Lemma hoare_write_steady h0 r v :
  hoare (steady h0) (write r v) (fun _ => True).
Proof.
  intros h HI. apply wp_write; [discriminate|]. intros blk Hl _.
  split; [|exact Logic.I]. eapply steady_write; eassumption.
Qed.

Lemma steady_move_slot h0 this src dst :
  hoare (steady h0)
    (from ← index this src; v ← read from;
     k ← umod (wrap (head_ this + dst)) (capacity_ this);
     to ← subscript (data_array_ this) k; write to v) (fun _ => True).
Proof. do 4 hoare_step. apply hoare_write_steady. Qed.

(** Apart from an insertion into a full container, an operation only writes
    into the array. *)
Lemma op_steady o c h0 :
  inserts o = false \/ size_ c <> capacity_ c ->
  hoare (steady h0) (run_op dflt o c)
    (fun c' => data_array_ c' = data_array_ c /\ capacity_ c' = capacity_ c).
Proof.
  intros Hno.
  assert (Hg : inserts o = true ->
               hoare (steady h0) (grow_if_full dflt c) (fun c1 => c1 = c)).
  { intros Hins. destruct Hno as [Hf|Hnf]; [congruence|].
    unfold grow_if_full. destruct (Z.eqb_spec (size_ c) (capacity_ c)); [contradiction|].
    apply hoare_ret. reflexivity. }
  destruct o as [v|v| | |v pos|pos]; simpl.
  - unfold PushFront. eapply hoare_bind; [exact (Hg eq_refl)|]. intros c1 ->. cbv zeta.
    set (c2 := if head_ c =? 0 then _ else _).
    assert (Ed : data_array_ c2 = data_array_ c /\ capacity_ c2 = capacity_ c).
    { subst c2. destruct (head_ c =? 0); split; reflexivity. }
    clearbody c2. hoare_step. eapply hoare_bind; [apply hoare_write_steady|].
    intros _ _. apply hoare_ret. exact Ed.
  - unfold PushBack. eapply hoare_bind; [exact (Hg eq_refl)|]. intros c1 ->.
    hoare_step. eapply hoare_bind; [apply hoare_write_steady|].
    intros _ _. hoare_step. apply hoare_ret. split; reflexivity.
  - unfold PopFront. hoare_step. apply hoare_ret. split; reflexivity.
  - unfold PopBack. cbv zeta. apply hoare_ret.
    destruct (tail_ c =? 0); split; reflexivity.
  - unfold InsertAt. eapply hoare_bind; [exact (Hg eq_refl)|]. intros c1 ->.
    eapply hoare_bind.
    { apply hoare_for_down_from. intros i. apply steady_move_slot. }
    intros _ _. hoare_step. hoare_step.
    eapply hoare_bind; [apply hoare_write_steady|].
    intros _ _. hoare_step. apply hoare_ret. split; reflexivity.
  - unfold RemoveAt. eapply hoare_bind.
    { apply hoare_for_up_from. intros i. apply steady_move_slot. }
    intros _ _. unfold PopBack. cbv zeta. apply hoare_ret.
    destruct (tail_ c =? 0); split; reflexivity.
Qed.

(** X4.  Only an insertion into a full container reallocates.  Any other
    call that returns (a pop, a removal, an insertion that finds room) leaves
    [data_array_] and the capacity as they were, allocates nothing and releases
    nothing. *)
Theorem only_growth_reallocates o c h c' h' :
  inserts o = false \/ size_ c <> capacity_ c ->
  run_op dflt o c h = Done (c', h') ->
  data_array_ c' = data_array_ c /\ Capacity c' = Capacity c /\
  length h' = length h /\ live_blocks h' = live_blocks h.
Proof.
  intros Hno E.
  destruct (hoare_elim (steady h) _ _ h c' h' (op_steady o c h Hno) (steady_refl h) E)
    as [(Hl & Hn & _) [Hd Hc]].
  auto.
Qed.


Lemma insertion_starts_with_growth o :
  inserts o = true ->
  exists rest, forall this,
    run_op dflt o this = (this' ← grow_if_full dflt this; rest this').
Proof.
  destruct o as [v|v| | |v pos|pos]; intros Hins; try discriminate Hins;
    eexists; intros this; reflexivity.
Qed.

(** Growth allocates one array and releases the one the container held. *)
Lemma ExtandArray_balance c h c1 h1 :
  owns c h -> ExtandArray dflt c h = Done (c1, h1) ->
  owns c1 h1 /\ (live_blocks h1 + owned c = S (live_blocks h))%nat /\
  owned c1 = 1%nat /\ size_ c1 = size_ c /\
  capacity_ c1 = wrap ((if capacity_ c =? 0 then 1 else capacity_ c) * 2).
Proof.
  intros Hown E. unfold ExtandArray in E. cbv zeta in E. revert E.
  set (c2 := if capacity_ c =? 0 then _ else c).
  assert (E2 : data_array_ c2 = data_array_ c /\ size_ c2 = size_ c /\
               capacity_ c2 = if capacity_ c =? 0 then 1 else capacity_ c).
  { subst c2. destruct (capacity_ c =? 0); repeat split. }
  clearbody c2. destruct E2 as (Ed & Es & Ec). rewrite Ed, Es, Ec.
  set (N := wrap ((if capacity_ c =? 0 then 1 else capacity_ c) * 2)).
  intros E. apply bind_Done in E. destruct E as (p & ha & En & E).
  unfold new in En. destruct (N <=? max_array_len); [|discriminate].
  injection En as <- <-.
  set (pn := length h) in *. set (ha := h ++ [Some (replicate (Z.to_nat N) dflt)]) in *.
  apply bind_Done in E. destruct E as ([] & hb & Eloop & E).
  assert (Hst : steady ha hb).
  { refine (proj1 (hoare_elim (steady ha) _ (fun _ => True) ha tt hb _ (steady_refl ha) Eloop)).
    apply hoare_for_up_from. intros i. do 4 hoare_step. apply hoare_write_steady. }
  destruct Hst as (Hlen & Hcount & Hlive).
  assert (Hpn : is_Some (live hb pn)).
  { apply Hlive. subst ha pn. rewrite live_app_new. eauto. }
  assert (Hha : live_blocks ha = S (live_blocks h)).
  { subst ha. rewrite live_blocks_app. lia. }
  apply bind_Done in E. destruct E as ([] & hc & Edel & E).
  injection E as <- <-. simpl. unfold owns, owned. simpl.
  destruct (data_array_ c) as [a|] eqn:Ea.
  - unfold delete_array in Edel. destruct (live hb a) as [blk|] eqn:El; [|discriminate].
    injection Edel as <-.
    destruct (Hown a Ea) as [blk0 Hl0]. pose proof (live_lt _ _ _ Hl0) as Halt.
    fold pn in Halt. split; [|split; [|auto]].
    + intros a' [= <-]. rewrite live_insert_ne by lia. exact Hpn.
    + pose proof (live_blocks_free hb a blk El). lia.
  - injection Edel as <-. split; [|split; [|auto]].
    + intros a' [= <-]. exact Hpn.
    + lia.
Qed.

(** Every operation keeps the count of allocated arrays in step with what the
    container holds. *)
Lemma run_op_balance o c h c' h' :
  0 <= capacity_ c < size_t_modulus -> owns c h ->
  run_op dflt o c h = Done (c', h') ->
  owns c' h' /\ 0 <= capacity_ c' < size_t_modulus /\
  (live_blocks h' + owned c = live_blocks h + owned c')%nat.
Proof.
  assert (Hquiet : forall c h c' h',
            inserts o = false \/ size_ c <> capacity_ c ->
            0 <= capacity_ c < size_t_modulus -> owns c h ->
            run_op dflt o c h = Done (c', h') ->
            owns c' h' /\ 0 <= capacity_ c' < size_t_modulus /\
            (live_blocks h' + owned c = live_blocks h + owned c')%nat).
  { clear. intros c h c' h' Hno Hcap Hown E.
    destruct (hoare_elim (steady h) _ _ h c' h' (op_steady o c h Hno) (steady_refl h) E)
      as [(Hl & Hn & Hs) [Hd Hc]].
    split; [|split].
    - intros a Ea. apply Hs. apply Hown. congruence.
    - rewrite Hc. exact Hcap.
    - unfold owned. rewrite Hd, Hn. reflexivity. }
  intros Hcap Hown E.
  destruct (inserts o) eqn:Hins; [|apply (Hquiet c h); auto].
  destruct (Z.eq_dec (size_ c) (capacity_ c)) as [Hfull|Hnf]; [|apply (Hquiet c h); auto].
  destruct (insertion_starts_with_growth o Hins) as (rest & Hrest).
  rewrite Hrest in E. apply bind_Done in E. destruct E as (c1 & h1 & Eg & Ek).
  unfold grow_if_full in Eg.
  replace (size_ c =? capacity_ c) with true in Eg by (symmetry; apply Z.eqb_eq; exact Hfull).
  destruct (ExtandArray_balance c h c1 h1 Hown Eg) as (Hown1 & Hn1 & Ho1 & Hs1 & Hc1).
  assert (Hcap1 : 0 <= capacity_ c1 < size_t_modulus).
  { rewrite Hc1. unfold wrap. apply Z.mod_pos_bound. rewrite size_t_modulus_val. lia. }
  assert (Hnf1 : size_ c1 <> capacity_ c1).
  { rewrite Hs1, Hc1, Hfull. unfold wrap. rewrite size_t_modulus_val in *.
    destruct (Z.eqb_spec (capacity_ c) 0) as [E0|E0].
    - rewrite E0. discriminate.
    - Z.to_euclidean_division_equations. lia. }
  assert (E1 : run_op dflt o c1 h1 = Done (c', h')).
  { rewrite Hrest. unfold grow_if_full.
    destruct (Z.eqb_spec (size_ c1) (capacity_ c1)); [contradiction|]. exact Ek. }
  destruct (Hquiet c1 h1 c' h' (or_intror Hnf1) Hcap1 Hown1 E1) as (Hown' & Hcap' & Hn').
  split; [exact Hown'|]. split; [exact Hcap'|]. lia.
Qed.

Lemma run_ops_balance os : forall c h c' h',
  0 <= capacity_ c < size_t_modulus -> owns c h ->
  run_ops dflt os c h = Done (c', h') ->
  owns c' h' /\ (live_blocks h' + owned c = live_blocks h + owned c')%nat.
Proof.
  induction os as [|o os IH]; intros c h c' h' Hcap Hown E; simpl in E.
  - injection E as <- <-. auto.
  - apply bind_Done in E. destruct E as (c1 & h1 & E1 & E).
    destruct (run_op_balance o c h c1 h1 Hcap Hown E1) as (Hown1 & Hcap1 & Hn1).
    destruct (IH c1 h1 c' h' Hcap1 Hown1 E) as (Hown' & Hn').
    split; [exact Hown'|]. lia.
Qed.

(** X12.  The container neither leaks nor frees twice.  After any run of
    operations that returned, the destructor returns too, and then the number
    of allocated arrays is what it was at the start, less the array the
    container held then: every array that growth allocated has been released
    exactly once. *)
Theorem arrays_are_released os c h c' h' :
  0 <= capacity_ c < size_t_modulus -> owns c h ->
  run_ops dflt os c h = Done (c', h') ->
  exists h'', destroy c' h' = Done (tt, h'') /\
              (live_blocks h'' + owned c = live_blocks h)%nat.
Proof.
  intros Hcap Hown E.
  destruct (run_ops_balance os c h c' h' Hcap Hown E) as (Hown' & Hn).
  unfold destroy. unfold owned at 2 in Hn. destruct (data_array_ c') as [a|] eqn:Ea.
  - destruct (Hown' a Ea) as [blk Hl]. unfold delete_array. rewrite Hl.
    eexists. split; [reflexivity|]. pose proof (live_blocks_free h' a blk Hl). lia.
  - exists h'. split; [reflexivity|]. lia.
Qed.


(** ** Size and capacity from call to call *)

Lemma fields_ExtandArray this :
  hoare anyheap (ExtandArray dflt this)
    (fun c' => size_ c' = size_ this /\
               capacity_ c' = wrap ((if capacity_ this =? 0 then 1 else capacity_ this) * 2)).
Proof.
  unfold ExtandArray. cbv zeta.
  set (c1 := if capacity_ this =? 0 then _ else this).
  assert (E1 : size_ c1 = size_ this /\
               capacity_ c1 = if capacity_ this =? 0 then 1 else capacity_ this).
  { subst c1. destruct (capacity_ this =? 0); split; reflexivity. }
  clearbody c1. destruct E1 as [Es Ec]. rewrite Es, Ec.
  eapply hoare_bind; [apply hoare_any|]. intros p _.
  eapply hoare_bind; [apply hoare_any|]. intros ? _.
  eapply hoare_bind; [apply hoare_any|]. intros ? _.
  apply hoare_ret. split; reflexivity.
Qed.

Lemma fields_run_op o c :
  hoare anyheap (run_op dflt o c)
    (fun c' => size_ c' = wrap (size_ c + (if inserts o then 1 else -1)) /\
               capacity_ c' =
                 if inserts o && (size_ c =? capacity_ c)
                 then wrap ((if capacity_ c =? 0 then 1 else capacity_ c) * 2)
                 else capacity_ c).
Proof.
  assert (Hg : hoare anyheap (grow_if_full dflt c)
                 (fun c1 => size_ c1 = size_ c /\
                            capacity_ c1 =
                              if size_ c =? capacity_ c
                              then wrap ((if capacity_ c =? 0 then 1 else capacity_ c) * 2)
                              else capacity_ c)).
  { unfold grow_if_full. destruct (size_ c =? capacity_ c).
    - apply fields_ExtandArray.
    - apply hoare_ret. split; reflexivity. }
  destruct o as [v|v| | |v pos|pos]; simpl.
  - unfold PushFront. eapply hoare_bind; [exact Hg|]. intros c1 [Hs Hc]. cbv zeta.
    eapply hoare_bind; [apply hoare_any|]. intros ? _.
    eapply hoare_bind; [apply hoare_any|]. intros ? _.
    apply hoare_ret. destruct (head_ c1 =? 0); fields; rewrite Hs; auto.
  - unfold PushBack. eapply hoare_bind; [exact Hg|]. intros c1 [Hs Hc].
    eapply hoare_bind; [apply hoare_any|]. intros ? _.
    eapply hoare_bind; [apply hoare_any|]. intros ? _.
    eapply hoare_bind; [apply hoare_any|]. intros ? _.
    apply hoare_ret. fields. rewrite Hs. auto.
  - unfold PopFront. eapply hoare_bind; [apply hoare_any|]. intros ? _.
    apply hoare_ret. fields. auto.
  - unfold PopBack. cbv zeta. apply hoare_ret.
    destruct (tail_ c =? 0); fields; auto.
  - unfold InsertAt. eapply hoare_bind; [exact Hg|]. intros c1 [Hs Hc].
    eapply hoare_bind; [apply hoare_any|]. intros ? _.
    eapply hoare_bind; [apply hoare_any|]. intros ? _.
    eapply hoare_bind; [apply hoare_any|]. intros ? _.
    eapply hoare_bind; [apply hoare_any|]. intros ? _.
    eapply hoare_bind; [apply hoare_any|]. intros ? _.
    apply hoare_ret. fields. rewrite Hs. auto.
  - unfold RemoveAt. eapply hoare_bind; [apply hoare_any|]. intros ? _.
    unfold PopBack. cbv zeta. apply hoare_ret.
    destruct (tail_ c =? 0); fields; auto.
Qed.

(** X5.  On a container within its bounds, a call within its precondition that
    returns changes [Size()] by exactly one, up for an insertion and down for a
    removal, and changes the capacity only when an insertion finds the
    container full: it is then [2 * max 1 capacity].  Removals never shrink the
    capacity. *)
Theorem size_and_capacity_step o c h c' h' :
  bounded c -> pre o c = true ->
  run_op dflt o c h = Done (c', h') ->
  Size c' = Size c + (if inserts o then 1 else -1) /\
  Capacity c' = (if inserts o && (Size c =? Capacity c)
                 then 2 * Z.max 1 (Capacity c) else Capacity c) /\
  Capacity c <= Capacity c'.
Proof.
  unfold Size, Capacity. intros [Hs Hmax] Hpre E.
  destruct (hoare_elim anyheap _ _ h c' h' (fields_run_op o c) Logic.I E) as [_ [Hs' Hc']].
  destruct (hoare_elim anyheap _ _ h c' h' (bounded_run_op o c (conj Hs Hmax) Hpre) Logic.I E)
    as [_ [Hs2 Hmax2]].
  rewrite max_array_len_val in *.
  assert (Hsize : wrap (size_ c + (if inserts o then 1 else -1))
                  = size_ c + (if inserts o then 1 else -1)).
  { apply wrap_small. rewrite size_t_modulus_val.
    destruct o; simpl in *;
      repeat match goal with
             | H : _ && _ = true |- _ => apply andb_true_iff in H; destruct H
             | H : (_ <? _) = true |- _ => apply Z.ltb_lt in H
             | H : (_ <=? _) = true |- _ => apply Z.leb_le in H
             end; lia. }
  rewrite Hsize in Hs'. split; [exact Hs'|].
  destruct (inserts o && (size_ c =? capacity_ c)) eqn:Hgrow.
  - assert (Hw : wrap ((if capacity_ c =? 0 then 1 else capacity_ c) * 2)
                 = 2 * Z.max 1 (capacity_ c)).
    { rewrite wrap_small.
      - destruct (Z.eqb_spec (capacity_ c) 0); lia.
      - rewrite size_t_modulus_val. destruct (Z.eqb_spec (capacity_ c) 0); lia. }
    rewrite Hw in Hc'. split; [exact Hc'|]. lia.
  - split; [exact Hc'|]. lia.
Qed.


(** ** Ownership of a copy *)

Lemma heap_extended h h' nb :
  length h' = S (length h) ->
  (forall a, (a < length h)%nat -> h' !! a = h !! a) ->
  live h' (length h) = Some nb -> h' = h ++ [Some nb].
Proof.
  intros Hlen Hold Hnew. apply list_eq. intros a.
  destruct (lt_eq_lt_dec a (length h)) as [[Hlt | ->] | Hgt].
  - rewrite lookup_app_l by exact Hlt. apply Hold. exact Hlt.
  - rewrite lookup_app_r by lia. rewrite Nat.sub_diag. simpl.
    apply live_lookup. exact Hnew.
  - rewrite (proj2 (lookup_ge_None _ _)) by lia.
    symmetry. apply lookup_ge_None. rewrite length_app. simpl. lia.
Qed.

(** X11.  A copy owns its array.  After copy construction both destructors
    can run, the copy's first: destroying the copy leaves the source holding
    its sequence, destroying the source afterwards is defined as well (nothing
    is freed twice), and in the end the arrays allocated are those from before
    the copy, less the source's. *)
Theorem copy_and_source_are_destroyed_apart src h xs :
  repr src h xs ->
  exists cp h1 h2 h3,
    CircularArray_copy dflt src h = Done (cp, h1) /\
    destroy cp h1 = Done (tt, h2) /\
    to_list src h2 = Done (xs, h2) /\
    destroy src h2 = Done (tt, h3) /\
    (live_blocks h3 + owned src = live_blocks h)%nat.
Proof.
  intros Hr. pose proof Hr as (blk & Hwf & _).
  pose proof (wf_block _ _ _ Hwf) as Hb.
  assert (W : wp true (CircularArray_copy dflt src)
                (fun cp h1 => data_array_ cp = Some (length h) /\
                              exists nb, h1 = h ++ [Some nb]) h).
  { apply (wp_copy src h xs); [exact Hr|]. intros nb h1 Hl _ Hlen Hold.
    split; [reflexivity|]. exists nb. apply heap_extended; assumption. }
  apply wp_total_elim in W. destruct W as (cp & h1 & E & Ed & nb & ->).
  set (pn := length h) in *.
  exists cp, (h ++ [Some nb]), (<[pn := None]> (h ++ [Some nb])).
  assert (Hdel : <[pn := None]> (h ++ [Some nb]) = h ++ [None]).
  { subst pn. rewrite insert_app_r_alt by lia. rewrite Nat.sub_diag. reflexivity. }
  assert (Hsrc : repr src (h ++ [None]) xs).
  { apply (repr_frame src h); [exact Hr|]. intros a Ea. rewrite Ea in Hb.
    apply live_app_old. eapply live_lt. exact Hb. }
  assert (Hcount : live_blocks (h ++ [None]) = live_blocks h).
  { rewrite live_blocks_app. lia. }
  rewrite Hdel.
  assert (Hd1 : destroy cp (h ++ [Some nb]) = Done (tt, h ++ [None])).
  { unfold destroy. rewrite Ed. unfold delete_array. subst pn.
    rewrite live_app_new. rewrite <- Hdel. reflexivity. }
  unfold destroy at 2, owned. destruct (data_array_ src) as [a|] eqn:Ea.
  - pose proof (live_lt _ _ _ Hb) as Ha.
    exists (<[a := None]> (h ++ [None])). split; [exact E|]. split; [exact Hd1|].
    split; [apply to_list_spec; exact Hsrc|].
    assert (Hl : live (h ++ [None]) a = Some blk).
    { rewrite live_app_old by exact Ha. exact Hb. }
    split.
    + unfold delete_array. rewrite Hl. reflexivity.
    + pose proof (live_blocks_free _ a blk Hl). lia.
  - exists (h ++ [None]). split; [exact E|]. split; [exact Hd1|].
    split; [apply to_list_spec; exact Hsrc|]. split; [reflexivity|]. lia.
Qed.

(** ** The iterator *)

Lemma traverse_from objs p c h xs :
  objs !! p = Some c -> repr c h xs ->
  forall (fuel k : nat), (k <= length xs)%nat -> (length xs - k < fuel)%nat ->
    traverse fuel objs (mkit p (Z.of_nat k)) p h = Done (Some (drop k xs), h).
Proof.
  intros Hp Hr. pose proof (repr_length _ _ _ Hr) as Hlen.
  pose proof (repr_bounded _ _ _ Hr) as [Hs Hmax]. rewrite max_array_len_val in Hmax.
  induction fuel as [|fuel IH]; intros k Hk Hfuel; [lia|].
  simpl. rewrite Hp. unfold iterator_neq, end_. simpl. rewrite Nat.eqb_refl. simpl.
  destruct (Z.eqb_spec (Z.of_nat k) (size_ c)) as [Heq|Hne]; simpl.
  - rewrite drop_ge by lia. reflexivity.
  - destruct (lookup_lt_is_Some_2 xs k ltac:(lia)) as [x Hx].
    destruct (index_spec c h xs k x Hr Hx) as (a & _ & Ei & Er).
    assert (W : wp true
                  (r ← iterator_deref objs (mkit p (Z.of_nat k)); v ← read r;
                   rest ← traverse fuel objs (iterator_incr (mkit p (Z.of_nat k))) p;
                   mret (cons v <$> rest))
                  (fun r h' => r = Some (drop k xs) /\ h' = h) h).
    { apply wp_bind. unfold iterator_deref. simpl. rewrite Hp.
      eapply wp_done; [exact Ei|]. apply wp_bind. eapply wp_done; [exact Er|].
      apply wp_bind. unfold iterator_incr. simpl.
      rewrite wrap_small by (rewrite size_t_modulus_val; lia).
      replace (Z.of_nat k + 1) with (Z.of_nat (S k)) by lia.
      eapply wp_done; [apply IH; lia|]. apply wp_ret. simpl.
      split; [|reflexivity]. f_equal. symmetry. apply drop_S. exact Hx. }
    apply wp_total_elim in W. destruct W as (r & h' & E & -> & ->). exact E.
Qed.

(** X13.  A loop from [begin()] to [end()] that advances with [++] and reads
    with [*] visits the elements in the order of [operator[]]: with fuel for
    [Size() + 1] tests it stops at [end()], having read the logical
    sequence. *)
Theorem iteration_reads_the_sequence objs p c h xs fuel :
  objs !! p = Some c -> repr c h xs -> (length xs < fuel)%nat ->
  traverse fuel objs (begin p) p h = Done (Some xs, h) /\
  to_list c h = Done (xs, h).
Proof.
  intros Hp Hr Hfuel. split; [|apply to_list_spec; exact Hr].
  exact (traverse_from objs p c h xs Hp Hr fuel 0 ltac:(lia) ltac:(lia)).
Qed.

(** X14.  The two comparison operators of the iterator agree: [!=] holds
    exactly when [==] does not; and [begin() == end()] exactly when the
    container is [Empty()]. *)
Theorem iterator_comparisons (it1 it2 : iterator) (p : nat) c :
  iterator_neq it1 it2 = negb (iterator_eq it1 it2) /\
  iterator_eq (begin p) (end_ p c) = Empty c.
Proof.
  split.
  - unfold iterator_neq, iterator_eq. now rewrite negb_andb.
  - unfold iterator_eq, begin, end_, Empty. cbn [array_ptr idx].
    rewrite Nat.eqb_refl. apply Z.eqb_sym.
Qed.

(** X15.  For an iterator whose index is a [size_t] value, [--] undoes [++]
    and [++] undoes [--], also across the wrap-around of the index (after
    [--begin()] the index is [SIZE_MAX], and [++] brings it back to 0). *)
Theorem iterator_incr_decr it :
  0 <= idx it < size_t_modulus ->
  iterator_decr (iterator_incr it) = it /\
  iterator_incr (iterator_decr it) = it /\
  idx (iterator_decr (begin (array_ptr it))) = size_t_modulus - 1.
Proof.
  intros Hi. destruct it as [p i]. unfold iterator_decr, iterator_incr, wrap. simpl in *.
  rewrite Zminus_mod_idemp_l, Z.add_mod_idemp_l by (rewrite size_t_modulus_val; lia).
  replace (i + 1 - 1) with i by lia. replace (i - 1 + 1) with i by lia.
  rewrite Z.mod_small by exact Hi. repeat split.
Qed.

(** X16.  An iterator points to the container object, not to its array, so it
    survives reallocation: after any run of operations on the container at
    address [p] (each within its precondition, from a consistent tail pointer),
    dereferencing an iterator into [p] whose index is below the new size is
    defined and reads the element at that index of the new sequence. *)
Theorem iterator_follows_container os objs p c h xs ys c' h' it (i : nat) y :
  objs !! p = Some c -> repr c h xs -> tail_ok c ->
  apply_ops os xs = Some ys -> run_ops dflt os c h = Done (c', h') ->
  array_ptr it = p -> idx it = Z.of_nat i -> ys !! i = Some y ->
  exists r, iterator_deref (<[p := c']> objs) it h' = Done (r, h') /\
            read r h' = Done (y, h').
Proof.
  intros Hp Hr Ht Hys E Hit Hidx Hy.
  destruct (run_ops_refine os c h xs ys c' h' Hr Ht Hys E) as [Hr' _].
  destruct (index_spec c' h' ys i y Hr' Hy) as (a & _ & Ei & Er).
  exists (mkref a (slot c' (Z.of_nat i))). split; [|exact Er].
  unfold iterator_deref. rewrite Hit, Hidx.
  rewrite list_lookup_insert_eq by (eapply lookup_lt_Some; exact Hp). exact Ei.
Qed.


(** ** Reserved capacity, and the accessors *)

Lemma steady_trans h0 h1 h2 : steady h0 h1 -> steady h1 h2 -> steady h0 h2.
Proof.
  intros (L1 & N1 & S1) (L2 & N2 & S2). split; [congruence|]. split; [congruence|].
  intros a. rewrite S2. apply S1.
Qed.

(** Pushes that fit into the capacity work in place. *)
Lemma push_back_all_in_place vs : forall c h xs,
  repr c h xs -> tail_ok c ->
  Z.of_nat (length xs + length vs) <= capacity_ c ->
  exists c' h', push_back_all dflt vs c h = Done (c', h') /\
                repr c' h' (xs ++ vs) /\ data_array_ c' = data_array_ c /\
                capacity_ c' = capacity_ c /\ steady h h'.
Proof.
  induction vs as [|v vs IH]; intros c h xs Hr Ht Hroom.
  - exists c, h. rewrite app_nil_r. split; [reflexivity|].
    split; [exact Hr|]. split; [reflexivity|]. split; [reflexivity|apply steady_refl].
  - simpl in Hroom. pose proof (repr_length _ _ _ Hr) as Hlen.
    assert (Hnf : size_ c <> capacity_ c) by lia.
    destruct (run_op_total (OpPushBack v) c h xs Hr Ht eq_refl)
      as (c1 & h1 & E1 & Hr1 & Ht1); [intros _ Hfull; contradiction|].
    destruct (hoare_elim (steady h) _ _ h c1 h1
                (op_steady (OpPushBack v) c h (or_intror Hnf)) (steady_refl h) E1)
      as [Hst1 [Hd1 Hc1]].
    simpl in E1, Hr1.
    destruct (IH c1 h1 (xs ++ [v]) Hr1 Ht1) as (c' & h' & E & Hr' & Hd & Hc & Hst).
    { rewrite Hc1, length_app. simpl. lia. }
    exists c', h'. split.
    + simpl. unfold mbind, M_bind, bind. rewrite E1. exact E.
    + rewrite <- app_assoc in Hr'. split; [exact Hr'|]. split; [congruence|].
      split; [congruence|]. eapply steady_trans; eassumption.
Qed.

(** X17.  The sized constructor reserves room.  With a capacity [n] that [new]
    grants it returns an empty container of capacity [n], and pushing up to [n]
    values to its back never reallocates: the values are read back in order
    from the array the constructor allocated, and no other array is allocated
    or released. *)
Theorem sized_then_pushes_in_place n vs h :
  0 <= n <= max_array_len -> Z.of_nat (length vs) <= n ->
  exists c h1 c' h',
    CircularArray_sized dflt n h = Done (c, h1) /\
    Size c = 0 /\ Capacity c = n /\ data_array_ c = Some (length h) /\
    push_back_all dflt vs c h1 = Done (c', h') /\
    to_list c' h' = Done (vs, h') /\
    data_array_ c' = data_array_ c /\ Capacity c' = n /\
    live_blocks h' = S (live_blocks h).
Proof.
  intros Hn Hvs.
  assert (E : CircularArray_sized dflt n h
              = Done (mkCA (Some (length h)) 0 0 0 n,
                      h ++ [Some (replicate (Z.to_nat n) dflt)])).
  { unfold CircularArray_sized, mbind, M_bind, bind, new.
    destruct (Z.leb_spec n max_array_len); [reflexivity|lia]. }
  destruct (sized_repr n h _ _ (proj1 Hn) E) as [Hr Ht].
  destruct (push_back_all_in_place vs _ _ [] Hr Ht) as (c' & h' & Ep & Hr' & Hd & Hc & Hst).
  { simpl. lia. }
  destruct Hst as (_ & Hcount & _). rewrite live_blocks_app in Hcount.
  eexists _, _, c', h'. split; [exact E|]. unfold Size, Capacity. simpl in *.
  repeat split; try assumption.
  - apply to_list_spec. exact Hr'.
  - lia.
Qed.

(** X18.  On a non-empty container [Front()] designates the slot of
    [operator[](0)], which holds the first element; with a consistent tail
    pointer [Back()] designates the slot of [operator[](Size() - 1)], which
    holds the last. *)
Theorem accessors_agree_with_index c h xs :
  repr c h xs -> xs <> [] ->
  (exists r x, Front c h = Done (r, h) /\ index c 0 h = Done (r, h) /\
               head xs = Some x /\ read r h = Done (x, h)) /\
  (tail_ok c ->
   exists r x, Back c h = Done (r, h) /\ index c (Size c - 1) h = Done (r, h) /\
               last xs = Some x /\ read r h = Done (x, h)).
Proof.
  intros Hr Hne. pose proof Hr as (blk & Hwf & Hsz & _).
  pose proof (wf_size _ _ _ Hwf) as Hs. split.
  - destruct xs as [|x xs]; [contradiction|]. simpl in Hsz.
    assert (Hc : capacity_ c <> 0) by lia. pose proof (wf_head _ _ _ Hwf Hc) as Hh.
    destruct (Front_spec c h x xs Hr) as (a & Ea & EF & ER).
    destruct (index_spec c h (x :: xs) 0 x Hr eq_refl) as (a' & Ea' & EI & _).
    rewrite Ea in Ea'. injection Ea' as <-.
    assert (E0 : slot c 0 = head_ c).
    { unfold slot. rewrite Z.add_0_r. apply Z.mod_small. exact Hh. }
    change (Z.of_nat 0) with 0 in EI. rewrite E0 in EI. eauto 10.
  - intros Ht. destruct (exists_last Hne) as (ys & y & ->).
    destruct (Back_spec c h ys y Hr Ht) as (a & Ea & EB & ER).
    destruct (index_spec c h (ys ++ [y]) (length ys) y Hr) as (a' & Ea' & EI & _).
    { rewrite lookup_app_r by lia. now rewrite Nat.sub_diag. }
    rewrite Ea in Ea'. injection Ea' as <-.
    rewrite length_app in Hsz. simpl in Hsz. unfold Size.
    replace (Z.of_nat (length ys)) with (size_ c - 1) in EI by lia.
    exists (mkref a (slot c (size_ c - 1))), y.
    split; [exact EB|]. split; [exact EI|]. split; [apply last_snoc|exact ER].
Qed.


(** ** The tail pointer at a full container, and containers side by side *)

(** [ExtandArray] does not read [tail_]. *)
Lemma ExtandArray_ignores_tail c (k : Z) :
  ExtandArray dflt (set_tail c k) = ExtandArray dflt c.
Proof.
  destruct c as [d hd tl s cap]. unfold ExtandArray, set_tail. cbn.
  destruct (cap =? 0); reflexivity.
Qed.

Lemma repr_set_tail c h xs (k : Z) : repr c h xs -> repr (set_tail c k) h xs.
Proof.
  intros (blk & [Hb Hl Hc Hs Hh] & Hsz & Hel). destruct c as [d hd tl s cap].
  exists blk. split; [constructor; assumption|]. split; assumption.
Qed.

(** X19.  An insertion into a full container does not read the tail pointer,
    since growth sets it anew.  So from a full container, whatever its tail
    pointer (the fill and the copy constructor return a full container whose
    tail pointer is one short), a run of operations that starts with an
    insertion leaves what the same run of list operations gives, with a
    consistent tail pointer. *)
Theorem insertion_first_sets_tail o os c h xs ys c' h' :
  repr c h xs -> size_ c = capacity_ c -> inserts o = true ->
  apply_ops (o :: os) xs = Some ys ->
  run_ops dflt (o :: os) c h = Done (c', h') ->
  to_list c' h' = Done (ys, h') /\ Size c' = Z.of_nat (length ys) /\ tail_ok c'.
Proof.
  intros Hr Hfull Hins Hys E.
  set (c0 := set_tail c (slot c (size_ c))).
  assert (Hr0 : repr c0 h xs) by (apply repr_set_tail; exact Hr).
  assert (Ht0 : tail_ok c0) by (intros _; destruct c; reflexivity).
  assert (E0 : run_ops dflt (o :: os) c0 h = Done (c', h')).
  { rewrite <- E. cbn [run_ops].
    destruct (insertion_starts_with_growth o Hins) as (rest & Hrest).
    assert (Eg : grow_if_full dflt c0 h = grow_if_full dflt c h).
    { unfold grow_if_full, c0. rewrite ExtandArray_ignores_tail.
      unfold set_tail. cbn [size_ capacity_]. rewrite Hfull, Z.eqb_refl. reflexivity. }
    unfold mbind, M_bind, bind. rewrite !Hrest.
    unfold mbind, M_bind, bind. rewrite Eg. reflexivity. }
  destruct (run_ops_refine (o :: os) c0 h xs ys c' h' Hr0 Ht0 Hys E0) as [Hr' Ht'].
  split; [apply to_list_spec; exact Hr'|]. split; [|exact Ht'].
  unfold Size. apply (repr_length _ _ _ Hr').
Qed.

(** X20.  Containers do not disturb each other.  Whatever operations run on
    one container, growth included, a container with another array still holds
    its sequence afterwards, and the two arrays are still apart. *)
Theorem operations_leave_other_containers os c h c' h' d ys :
  repr d h ys -> data_array_ d <> data_array_ c ->
  run_ops dflt os c h = Done (c', h') ->
  repr d h' ys /\ to_list d h' = Done (ys, h') /\ data_array_ d <> data_array_ c'.
Proof.
  intros Hd Hne E. pose proof (run_ops_frame os c h c' h' E) as Hf.
  assert (Hlt : forall a, data_array_ d = Some a -> (a < length h)%nat).
  { intros a Ea. destruct Hd as (blk & Hwf & _).
    pose proof (wf_block _ _ _ Hwf) as Hb. rewrite Ea in Hb.
    eapply live_lt. exact Hb. }
  assert (Hd' : repr d h' ys).
  { apply (repr_frame d h h' ys Hd). intros a Ea.
    apply (frame_live c h c' h' a Hf (Hlt a Ea)). congruence. }
  split; [exact Hd'|]. split; [apply to_list_spec; exact Hd'|].
  destruct Hf as [_ [Em|(a & Ea & Hge)]].
  - congruence.
  - intros Ed. rewrite Ea in Ed. specialize (Hlt a Ed). lia.
Qed.

(** ** The round trip through the two ends *)

(** X21.  From an empty container with a consistent tail pointer, values
    pushed to the back come out of [Front()]/[PopFront()] in the order pushed,
    and values pushed to the front come out of [Back()]/[PopBack()] in the
    order pushed.  The bound on the length says that the allocations are
    granted. *)
Theorem fifo_lifo_round_trip c h vs :
  repr c h [] -> tail_ok c ->
  2 * Z.of_nat (length vs) <= max_array_len ->
  (exists c1 h1 c2,
     push_back_all dflt vs c h = Done (c1, h1) /\
     drain_front (length vs) c1 h1 = Done ((vs, c2), h1)) /\
  (exists c1 h1 c2,
     push_front_all dflt vs c h = Done (c1, h1) /\
     drain_back (length vs) c1 h1 = Done ((vs, c2), h1)).
Proof.
  intros Hr Ht Hfit. split.
  - destruct (push_back_all_spec vs c h [] Hr Ht Hfit) as (c1 & h1 & E & Hr1 & _).
    destruct (drain_front_spec vs c1 h1 Hr1) as (c2 & E2 & _). eauto.
  - destruct (push_front_all_spec vs c h [] Hr Ht Hfit) as (c1 & h1 & E & Hr1 & Ht1).
    rewrite app_nil_r in Hr1.
    destruct (drain_back_spec (rev vs) c1 h1 Hr1 Ht1) as (c2 & E2 & _).
    rewrite length_rev, rev_involutive in E2. eauto.
Qed.

End Proofs.

(** * The claims at concrete containers *)

#[local] Existing Instance M_bind.

(** The scenario of the specification: capacity 4, push 1, 2, 3, 4; the fifth
    push grows the array to capacity 8; two pops from the front leave 3, 4, 5. *)
Example growth_scenario :
  exists c0 h0 c4 h4 c5 h5 c h,
    CircularArray_sized 0 4 ([] : heap Z) = Done (c0, h0) /\
    push_back_all 0 [1; 2; 3; 4] c0 h0 = Done (c4, h4) /\
    Size c4 = 4 /\ Capacity c4 = 4 /\
    PushBack 0 5 c4 h4 = Done (c5, h5) /\
    Capacity c5 = 8 /\ to_list c5 h5 = Done ([1; 2; 3; 4; 5], h5) /\
    run_ops 0 [OpPopFront; OpPopFront] c5 h5 = Done (c, h) /\
    to_list c h = Done ([3; 4; 5], h) /\ Size c = 3.
Proof.
  exists (mkCA (Some 0%nat) 0 0 0 4), [Some [0; 0; 0; 0]],
    (mkCA (Some 0%nat) 0 0 4 4), [Some [1; 2; 3; 4]],
    (mkCA (Some 1%nat) 0 5 5 8), [None; Some [1; 2; 3; 4; 5; 0; 0; 0]],
    (mkCA (Some 1%nat) 2 5 3 8), [None; Some [1; 2; 3; 4; 5; 0; 0; 0]].
  repeat split.
Qed.

Lemma wrapped_repr : repr wrapped wrapped_heap [5; 6].
Proof.
  apply (repr_intro wrapped wrapped_heap [5; 6] [6; 5]).
  - reflexivity.
  - reflexivity.
  - vm_compute. discriminate.
  - vm_compute. split; discriminate.
  - intros _. vm_compute. split; [discriminate|reflexivity].
  - reflexivity.
  - intros [|[|i]] Hi; [reflexivity|reflexivity|simpl in Hi; lia].
Qed.

Lemma wrapped_fits : growth_fits wrapped.
Proof. vm_compute. discriminate. Qed.

(** C1 as stated fails: growth from capacity 0 yields capacity 2, where
    [max 1 (2 * 0)] is 1. *)
Lemma growth_from_capacity_zero :
  exists c' h',
    grow_if_full 0 CircularArray_default ([] : heap Z) = Done (c', h') /\
    capacity_ c' = 2 /\
    capacity_ c' <> Z.max 1 (2 * capacity_ CircularArray_default).
Proof.
  exists (mkCA (Some 0%nat) 0 0 0 2), [Some [0; 0]].
  split; [reflexivity|]. split; [reflexivity|]. vm_compute. discriminate.
Qed.

(** C1, as amended, at the full container whose window wraps. *)
Lemma growth_policy_witness :
  repr wrapped wrapped_heap [5; 6] /\ size_ wrapped = capacity_ wrapped /\
  growth_fits wrapped /\
  (forall o, inserts o = true ->
     exists rest, run_op 0 o wrapped = (this ← grow_if_full 0 wrapped; rest this)) /\
  exists c' h' nb,
    grow_if_full 0 wrapped wrapped_heap = Done (c', h') /\
    data_array_ c' = Some (length wrapped_heap) /\
    live h' (length wrapped_heap) = Some nb /\
    capacity_ c' = 2 * Z.max 1 (capacity_ wrapped) /\
    Z.of_nat (length nb) = capacity_ c' /\
    (forall i : nat, (i < length [5; 6])%nat -> nb !! i = [5; 6] !! i) /\
    head_ c' = 0 /\ tail_ c' = size_ wrapped /\ size_ c' = size_ wrapped.
Proof.
  split; [exact wrapped_repr|]. split; [reflexivity|]. split; [exact wrapped_fits|].
  exact (growth_policy 0 wrapped wrapped_heap [5; 6] wrapped_repr eq_refl wrapped_fits).
Defined.

(** C2 fails on the code.  The fill constructor and the copy constructor set
    [tail_] one short: a filled container of capacity 3 and a copy of the
    container holding 1, 2, 3 both have [tail_ = 2] where
    [(head_ + size_) mod capacity_] is 0. *)
Theorem tail_after_fill_and_copy :
  (exists c h,
     CircularArray_fill 0 3 7 ([] : heap Z) = Done (c, h) /\ reachable 0 c h /\
     capacity_ c = 3 /\ tail_ c = 2 /\ (head_ c + size_ c) mod capacity_ c = 0) /\
  (exists c h,
     push_back_all 0 [1; 2; 3] CircularArray_default ([] : heap Z)
       = Done (one_two_three, one_two_three_heap) /\
     CircularArray_copy 0 one_two_three one_two_three_heap = Done (c, h) /\
     reachable 0 c h /\
     capacity_ c = 3 /\ tail_ c = 2 /\ (head_ c + size_ c) mod capacity_ c = 0).
Proof.
  split.
  - exists (mkCA (Some 0%nat) 0 2 3 3), [Some [7; 7; 7]].
    split; [reflexivity|]. split; [|repeat split].
    apply (reach_fill 0 3 7 []); [rewrite size_t_modulus_val; lia|reflexivity].
  - exists (mkCA (Some 2%nat) 0 2 3 3), [None; Some [1; 2; 3; 0]; Some [1; 2; 3]].
    split; [reflexivity|]. split; [reflexivity|]. split; [|repeat split].
    apply (reach_copy 0 one_two_three one_two_three_heap); [|reflexivity].
    apply (reach_op 0 (OpPushBack 3) (mkCA (Some 0%nat) 0 0 2 2) [Some [1; 2]]);
      [|reflexivity|reflexivity].
    apply (reach_op 0 (OpPushBack 2) (mkCA (Some 0%nat) 0 1 1 2) [Some [1; 0]]);
      [|reflexivity|reflexivity].
    apply (reach_op 0 (OpPushBack 1) CircularArray_default []);
      [|reflexivity|reflexivity].
    apply reach_default.
Qed.

(** C3 fails on the code.  In the copy of the container holding 1, 2, 3,
    [Back()] designates physical slot 1, which holds 2, while the last logical
    index is in slot [(head_ + size_ - 1) mod capacity_ = 2], which holds 3. *)
Theorem back_of_copy :
  exists cp h r,
    CircularArray_copy 0 one_two_three one_two_three_heap = Done (cp, h) /\
    to_list cp h = Done ([1; 2; 3], h) /\
    Back cp h = Done (r, h) /\ r_off r = 1 /\ read r h = Done (2, h) /\
    (head_ cp + size_ cp - 1) mod capacity_ cp = 2 /\
    value_at cp (Size cp - 1) h = Done (3, h).
Proof.
  exists (mkCA (Some 2%nat) 0 2 3 3), [None; Some [1; 2; 3; 0]; Some [1; 2; 3]],
    (mkref 2 1).
  repeat split.
Qed.

(** C4 fails on the code.  Copy the container holding 1, 2, 3 and pop the front:
    the copy holds 2, 3 with [head_ = 1] and capacity 3.  Pushing 9, 10, 11, 12
    to the back gives 2, 9, 1, 10, 11, 12: the first push overwrote the 3. *)
Theorem push_back_after_copy_and_pop :
  exists cp h cp1 cp2 h2,
    CircularArray_copy 0 one_two_three one_two_three_heap = Done (cp, h) /\
    PopFront cp h = Done (cp1, h) /\
    to_list cp1 h = Done ([2; 3], h) /\ head_ cp1 = 1 /\ Capacity cp1 = 3 /\
    push_back_all 0 [9; 10; 11; 12] cp1 h = Done (cp2, h2) /\
    to_list cp2 h2 = Done ([2; 9; 1; 10; 11; 12], h2).
Proof.
  exists (mkCA (Some 2%nat) 0 2 3 3), [None; Some [1; 2; 3; 0]; Some [1; 2; 3]],
    (mkCA (Some 2%nat) 1 2 2 3), (mkCA (Some 3%nat) 0 0 6 6),
    [None; Some [1; 2; 3; 0]; None; Some [2; 9; 1; 10; 11; 12]].
  repeat split.
Qed.

(** C5 fails on the code.  The fill constructor for the count 2 followed by
    two [PopFront()] leaves an empty container with [head_ = 0] and
    [tail_ = 1].  The values 1, 2 pushed to its back come out of
    [Front()]/[PopFront()] as 2, 1, and pushed to its front they come out of
    [Back()]/[PopBack()] as 2, 1. *)
Theorem round_trip_after_fill_and_pops :
  exists c0 h0 c1 c,
    CircularArray_fill 0 2 7 ([] : heap Z) = Done (c0, h0) /\
    PopFront c0 h0 = Done (c1, h0) /\ PopFront c1 h0 = Done (c, h0) /\
    reachable 0 c h0 /\ Empty c = true /\ to_list c h0 = Done ([], h0) /\
    head_ c = 0 /\ tail_ c = 1 /\ (head_ c + size_ c) mod capacity_ c = 0 /\
    (exists c2 h2 c3,
       push_back_all 0 [1; 2] c h0 = Done (c2, h2) /\
       drain_front 2 c2 h2 = Done (([2; 1], c3), h2)) /\
    (exists c2 h2 c3,
       push_front_all 0 [1; 2] c h0 = Done (c2, h2) /\
       drain_back 2 c2 h2 = Done (([2; 1], c3), h2)).
Proof.
  exists (mkCA (Some 0%nat) 0 1 2 2), [Some [7; 7]],
    (mkCA (Some 0%nat) 1 1 1 2), (mkCA (Some 0%nat) 0 1 0 2).
  split; [reflexivity|]. split; [reflexivity|]. split; [reflexivity|].
  split; [|repeat split].
  - apply (reach_op 0 OpPopFront (mkCA (Some 0%nat) 1 1 1 2) [Some [7; 7]]);
      [|reflexivity|reflexivity].
    apply (reach_op 0 OpPopFront (mkCA (Some 0%nat) 0 1 2 2) [Some [7; 7]]);
      [|reflexivity|reflexivity].
    apply (reach_fill 0 2 7 []); [rewrite size_t_modulus_val; lia|reflexivity].
  - exists (mkCA (Some 0%nat) 0 1 2 2), [Some [2; 1]], (mkCA (Some 0%nat) 0 1 0 2).
    split; reflexivity.
  - exists (mkCA (Some 0%nat) 0 1 2 2), [Some [2; 1]], (mkCA (Some 0%nat) 0 1 0 2).
    split; reflexivity.
Qed.

(** C6 at the full container whose window wraps: the insertion grows it. *)
Lemma insert_then_remove_restores_witness :
  repr wrapped wrapped_heap [5; 6] /\ 0 <= 1 <= Size wrapped /\
  (Size wrapped = Capacity wrapped -> growth_fits wrapped) /\
  exists c1 h1 c2 h2,
    InsertAt 0 9 1 wrapped wrapped_heap = Done (c1, h1) /\
    RemoveAt 1 c1 h1 = Done (c2, h2) /\
    to_list wrapped wrapped_heap = Done ([5; 6], wrapped_heap) /\
    to_list c2 h2 = Done ([5; 6], h2) /\ Size c2 = Size wrapped.
Proof.
  assert (Hpos : 0 <= 1 <= Size wrapped) by (vm_compute; split; discriminate).
  split; [exact wrapped_repr|]. split; [exact Hpos|].
  split; [intros _; exact wrapped_fits|].
  exact (insert_then_remove_restores 0 wrapped wrapped_heap [5; 6] 9 1
           wrapped_repr Hpos (fun _ => wrapped_fits)).
Defined.

(** A container filled with three 7s, after one [PopFront()]. *)
Lemma filled_then_popped_reachable :
  reachable 0 (mkCA (Some 0%nat) 1 2 2 3) ([Some [7; 7; 7]] : heap Z).
Proof.
  apply (reach_op 0 OpPopFront (mkCA (Some 0%nat) 0 2 3 3) [Some [7; 7; 7]]);
    [|reflexivity|reflexivity].
  apply (reach_fill 0 3 7 []); [rewrite size_t_modulus_val; lia|reflexivity].
Qed.

(** C7 at that container. *)
Lemma size_le_capacity_witness :
  reachable 0 (mkCA (Some 0%nat) 1 2 2 3) ([Some [7; 7; 7]] : heap Z) /\
  Size (mkCA (Some 0%nat) 1 2 2 3) <= Capacity (mkCA (Some 0%nat) 1 2 2 3).
Proof.
  split; [exact filled_then_popped_reachable|].
  exact (size_le_capacity 0 _ _ filled_then_popped_reachable).
Defined.

(** C8 at the full container whose window wraps. *)
Lemma copy_is_independent_witness :
  repr wrapped wrapped_heap [5; 6] /\
  exists cp h1,
    CircularArray_copy 0 wrapped wrapped_heap = Done (cp, h1) /\
    to_list cp h1 = Done ([5; 6], h1) /\ to_list wrapped h1 = Done ([5; 6], h1) /\
    Capacity cp = Size wrapped /\ head_ cp = 0 /\
    (forall os cp' h2,
       run_ops 0 os cp h1 = Done (cp', h2) -> to_list wrapped h2 = Done ([5; 6], h2)) /\
    (forall os src' h2,
       run_ops 0 os wrapped h1 = Done (src', h2) -> to_list cp h2 = Done ([5; 6], h2)).
Proof.
  split; [exact wrapped_repr|].
  exact (copy_is_independent 0 wrapped wrapped_heap [5; 6] wrapped_repr).
Defined.

(** * The further properties at concrete containers *)

Lemma wrapped_tail_ok : tail_ok wrapped.
Proof. intros _. reflexivity. Qed.

Lemma wrapped_wf : wf wrapped wrapped_heap [6; 5].
Proof.
  constructor.
  - reflexivity.
  - reflexivity.
  - vm_compute. discriminate.
  - vm_compute. split; discriminate.
  - intros _. vm_compute. split; [discriminate|reflexivity].
Qed.

Lemma wrapped_owns : owns wrapped wrapped_heap.
Proof. intros a [= <-]. exists [6; 5]. reflexivity. Qed.

Lemma wrapped_capacity_is_size_t : 0 <= capacity_ wrapped < size_t_modulus.
Proof. vm_compute. split; [discriminate|reflexivity]. Qed.

Lemma wrapped_bounded : bounded wrapped.
Proof. vm_compute. repeat split; discriminate. Qed.

(** X1 at the full, wrapped container: a push that grows it, a pop from the
    front, an insertion and a removal. *)
Lemma operations_refine_deque_witness :
  repr wrapped wrapped_heap [5; 6] /\ tail_ok wrapped /\
  apply_ops [OpPushBack 7; OpPopFront; OpInsertAt 9 1; OpRemoveAt 0] [5; 6]
    = Some [9; 7] /\
  run_ops 0 [OpPushBack 7; OpPopFront; OpInsertAt 9 1; OpRemoveAt 0]
    wrapped wrapped_heap
    = Done (mkCA (Some 1%nat) 1 3 2 4, [None; Some [5; 9; 7; 5]]) /\
  to_list (mkCA (Some 1%nat) 1 3 2 4) [None; Some [5; 9; 7; 5]]
    = Done ([9; 7], [None; Some [5; 9; 7; 5]]) /\
  Size (mkCA (Some 1%nat) 1 3 2 4) = Z.of_nat (length [9; 7]) /\
  (Empty (mkCA (Some 1%nat) 1 3 2 4) = true <-> [9; 7] = []) /\
  tail_ok (mkCA (Some 1%nat) 1 3 2 4).
Proof.
  split; [exact wrapped_repr|]. split; [exact wrapped_tail_ok|].
  split; [reflexivity|]. split; [reflexivity|].
  exact (operations_refine_deque 0
           [OpPushBack 7; OpPopFront; OpInsertAt 9 1; OpRemoveAt 0]
           wrapped wrapped_heap [5; 6] [9; 7] _ _
           wrapped_repr wrapped_tail_ok eq_refl eq_refl).
Defined.


(** X3 at the count 3 and the value 7. *)
Lemma fill_holds_copies_witness :
  0 <= 3 /\
  (3 <= max_array_len ->
   exists c h',
     CircularArray_fill 0 3 7 ([] : heap Z) = Done (c, h') /\
     to_list c h' = Done (replicate (Z.to_nat 3) 7, h') /\
     Size c = 3 /\ Capacity c = 3 /\ data_array_ c = Some (length ([] : heap Z)) /\
     forall a, (a < length ([] : heap Z))%nat -> h' !! a = ([] : heap Z) !! a) /\
  (max_array_len < 3 -> CircularArray_fill 0 3 7 ([] : heap Z) = BadAlloc).
Proof.
  assert (H0 : 0 <= 3) by discriminate.
  split; [exact H0|]. exact (fill_holds_copies 0 3 7 [] H0).
Defined.

(** X4 at a pop from the front of the full, wrapped container. *)
Lemma only_growth_reallocates_witness :
  (inserts (V:=Z) OpPopFront = false \/ size_ wrapped <> capacity_ wrapped) /\
  run_op 0 OpPopFront wrapped wrapped_heap
    = Done (mkCA (Some 0%nat) 0 1 1 2, [Some [6; 5]]) /\
  data_array_ (mkCA (Some 0%nat) 0 1 1 2) = data_array_ wrapped /\
  Capacity (mkCA (Some 0%nat) 0 1 1 2) = Capacity wrapped /\
  length ([Some [6; 5]] : heap Z) = length wrapped_heap /\
  live_blocks ([Some [6; 5]] : heap Z) = live_blocks wrapped_heap.
Proof.
  split; [left; reflexivity|]. split; [reflexivity|].
  exact (only_growth_reallocates 0 OpPopFront wrapped wrapped_heap _ _
           (or_introl eq_refl) eq_refl).
Defined.

(** X5 at a push to the back of the full, wrapped container, which grows. *)
Lemma size_and_capacity_step_witness :
  bounded wrapped /\ pre (OpPushBack 7) wrapped = true /\
  run_op 0 (OpPushBack 7) wrapped wrapped_heap
    = Done (mkCA (Some 1%nat) 0 3 3 4, [None; Some [5; 6; 7; 0]]) /\
  Size (mkCA (Some 1%nat) 0 3 3 4)
    = Size wrapped + (if inserts (OpPushBack 7) then 1 else -1) /\
  Capacity (mkCA (Some 1%nat) 0 3 3 4)
    = (if inserts (OpPushBack 7) && (Size wrapped =? Capacity wrapped)
       then 2 * Z.max 1 (Capacity wrapped) else Capacity wrapped) /\
  Capacity wrapped <= Capacity (mkCA (Some 1%nat) 0 3 3 4).
Proof.
  split; [exact wrapped_bounded|]. split; [reflexivity|]. split; [reflexivity|].
  exact (size_and_capacity_step 0 (OpPushBack 7) wrapped wrapped_heap _ _
           wrapped_bounded eq_refl eq_refl).
Defined.

(** X6 at the wrapped container and the index 5, beyond its size. *)
Lemma index_stays_in_array_witness :
  wf wrapped wrapped_heap [6; 5] /\ 0 <= 5 < size_t_modulus /\
  (capacity_ wrapped <> 0 ->
   exists a k, data_array_ wrapped = Some a /\
               index wrapped 5 wrapped_heap = Done (mkref a k, wrapped_heap) /\
               k = wrap (head_ wrapped + 5) mod capacity_ wrapped /\
               0 <= k < capacity_ wrapped /\ is_Some ([6; 5] !! Z.to_nat k)) /\
  (capacity_ wrapped = 0 -> index wrapped 5 wrapped_heap = Undefined).
Proof.
  assert (H5 : 0 <= 5 < size_t_modulus) by (vm_compute; split; [discriminate|reflexivity]).
  split; [exact wrapped_wf|]. split; [exact H5|].
  exact (index_stays_in_array wrapped wrapped_heap [6; 5] 5 wrapped_wf H5).
Defined.

(** X7 at an empty container of capacity 2. *)
Lemma pop_on_empty_witness :
  size_ (mkCA (Some 0%nat) 0 0 0 2) = 0 /\
  (exists c', PopBack (mkCA (Some 0%nat) 0 0 0 2) ([Some [0; 0]] : heap Z)
                = Done (c', [Some [0; 0]]) /\
              Size c' = size_t_modulus - 1 /\ Empty c' = false) /\
  (capacity_ (mkCA (Some 0%nat) 0 0 0 2) <> 0 ->
   exists c', PopFront (mkCA (Some 0%nat) 0 0 0 2) ([Some [0; 0]] : heap Z)
                = Done (c', [Some [0; 0]]) /\
              Size c' = size_t_modulus - 1 /\ Empty c' = false) /\
  (capacity_ (mkCA (Some 0%nat) 0 0 0 2) = 0 ->
   PopFront (mkCA (Some 0%nat) 0 0 0 2) ([Some [0; 0]] : heap Z) = Undefined).
Proof.
  split; [reflexivity|].
  exact (pop_on_empty (mkCA (Some 0%nat) 0 0 0 2) [Some [0; 0]] eq_refl).
Defined.

(** X8 at the wrapped container: remove the 5 at index 0 and insert it again. *)
Lemma remove_then_insert_restores_witness :
  repr wrapped wrapped_heap [5; 6] /\ 0 <= 0 /\ [5; 6] !! Z.to_nat 0 = Some 5 /\
  exists c1 h1 c2 h2,
    RemoveAt 0 wrapped wrapped_heap = Done (c1, h1) /\
    InsertAt 0 5 0 c1 h1 = Done (c2, h2) /\
    to_list c2 h2 = Done ([5; 6], h2) /\ Size c2 = Size wrapped /\
    Capacity c2 = Capacity wrapped.
Proof.
  assert (H0 : 0 <= 0) by discriminate.
  split; [exact wrapped_repr|]. split; [exact H0|]. split; [reflexivity|].
  exact (remove_then_insert_restores 0 wrapped wrapped_heap [5; 6] 5 0
           wrapped_repr H0 eq_refl).
Defined.

(** X9 at the full, wrapped container. *)
Lemma insert_at_the_ends_witness :
  repr wrapped wrapped_heap [5; 6] /\ tail_ok wrapped /\
  (size_ wrapped = capacity_ wrapped -> growth_fits wrapped) /\
  (exists c1 h1 c2 h2,
     InsertAt 0 7 (Size wrapped) wrapped wrapped_heap = Done (c1, h1) /\
     PushBack 0 7 wrapped wrapped_heap = Done (c2, h2) /\
     to_list c1 h1 = Done ([5; 6] ++ [7], h1) /\
     to_list c2 h2 = Done ([5; 6] ++ [7], h2)) /\
  (exists c1 h1 c2 h2,
     InsertAt 0 7 0 wrapped wrapped_heap = Done (c1, h1) /\
     PushFront 0 7 wrapped wrapped_heap = Done (c2, h2) /\
     to_list c1 h1 = Done (7 :: [5; 6], h1) /\
     to_list c2 h2 = Done (7 :: [5; 6], h2)).
Proof.
  split; [exact wrapped_repr|]. split; [exact wrapped_tail_ok|].
  split; [intros _; exact wrapped_fits|].
  exact (insert_at_the_ends 0 wrapped wrapped_heap [5; 6] 7
           wrapped_repr wrapped_tail_ok (fun _ => wrapped_fits)).
Defined.

(** X11 at the wrapped container. *)
Lemma copy_and_source_are_destroyed_apart_witness :
  repr wrapped wrapped_heap [5; 6] /\
  exists cp h1 h2 h3,
    CircularArray_copy 0 wrapped wrapped_heap = Done (cp, h1) /\
    destroy cp h1 = Done (tt, h2) /\
    to_list wrapped h2 = Done ([5; 6], h2) /\
    destroy wrapped h2 = Done (tt, h3) /\
    (live_blocks h3 + owned wrapped = live_blocks wrapped_heap)%nat.
Proof.
  split; [exact wrapped_repr|].
  exact (copy_and_source_are_destroyed_apart 0 wrapped wrapped_heap [5; 6] wrapped_repr).
Defined.

(** X12 at the full, wrapped container: two pushes, the first of which grows
    it, and a pop. *)
Lemma arrays_are_released_witness :
  0 <= capacity_ wrapped < size_t_modulus /\ owns wrapped wrapped_heap /\
  run_ops 0 [OpPushBack 7; OpPushBack 8; OpPopFront] wrapped wrapped_heap
    = Done (mkCA (Some 1%nat) 1 0 3 4, [None; Some [5; 6; 7; 8]]) /\
  exists h'',
    destroy (mkCA (Some 1%nat) 1 0 3 4) ([None; Some [5; 6; 7; 8]] : heap Z)
      = Done (tt, h'') /\
    (live_blocks h'' + owned wrapped = live_blocks wrapped_heap)%nat.
Proof.
  split; [exact wrapped_capacity_is_size_t|]. split; [exact wrapped_owns|].
  split; [reflexivity|].
  exact (arrays_are_released 0 [OpPushBack 7; OpPushBack 8; OpPopFront]
           wrapped wrapped_heap _ _ wrapped_capacity_is_size_t wrapped_owns eq_refl).
Defined.

(** X13 at the wrapped container, the only object, at address 0. *)
Lemma iteration_reads_the_sequence_witness :
  [wrapped] !! 0%nat = Some wrapped /\ repr wrapped wrapped_heap [5; 6] /\
  (length [5; 6] < 3)%nat /\
  traverse 3 [wrapped] (begin 0) 0 wrapped_heap = Done (Some [5; 6], wrapped_heap) /\
  to_list wrapped wrapped_heap = Done ([5; 6], wrapped_heap).
Proof.
  assert (Hfuel : (length [5; 6] < 3)%nat) by (simpl; lia).
  split; [reflexivity|]. split; [exact wrapped_repr|]. split; [exact Hfuel|].
  exact (iteration_reads_the_sequence [wrapped] 0 wrapped wrapped_heap [5; 6] 3
           eq_refl wrapped_repr Hfuel).
Defined.

(** X15 at [begin()] of the container at address 0. *)
Lemma iterator_incr_decr_witness :
  0 <= idx (begin 0) < size_t_modulus /\
  iterator_decr (iterator_incr (begin 0)) = begin 0 /\
  iterator_incr (iterator_decr (begin 0)) = begin 0 /\
  idx (iterator_decr (begin (array_ptr (begin 0)))) = size_t_modulus - 1.
Proof.
  assert (H0 : 0 <= idx (begin 0) < size_t_modulus)
    by (vm_compute; split; [discriminate|reflexivity]).
  split; [exact H0|]. exact (iterator_incr_decr (begin 0) H0).
Defined.

(** X16: an iterator at index 2 of the wrapped container at address 0, read
    after the push that grows the container. *)
Lemma iterator_follows_container_witness :
  [wrapped] !! 0%nat = Some wrapped /\ repr wrapped wrapped_heap [5; 6] /\
  tail_ok wrapped /\ apply_ops [OpPushBack 7] [5; 6] = Some [5; 6; 7] /\
  run_ops 0 [OpPushBack 7] wrapped wrapped_heap
    = Done (mkCA (Some 1%nat) 0 3 3 4, [None; Some [5; 6; 7; 0]]) /\
  array_ptr (mkit 0 2) = 0%nat /\ idx (mkit 0 2) = Z.of_nat 2 /\
  [5; 6; 7] !! 2%nat = Some 7 /\
  exists r,
    iterator_deref (<[0%nat := mkCA (Some 1%nat) 0 3 3 4]> [wrapped]) (mkit 0 2)
      [None; Some [5; 6; 7; 0]] = Done (r, [None; Some [5; 6; 7; 0]]) /\
    read r [None; Some [5; 6; 7; 0]] = Done (7, [None; Some [5; 6; 7; 0]]).
Proof.
  split; [reflexivity|]. split; [exact wrapped_repr|]. split; [exact wrapped_tail_ok|].
  split; [reflexivity|]. split; [reflexivity|]. split; [reflexivity|].
  split; [reflexivity|]. split; [reflexivity|].
  exact (iterator_follows_container 0 [OpPushBack 7] [wrapped] 0 wrapped wrapped_heap
           [5; 6] [5; 6; 7] _ _ (mkit 0 2) 2 7
           eq_refl wrapped_repr wrapped_tail_ok eq_refl eq_refl eq_refl eq_refl eq_refl).
Defined.

(** X17 at capacity 4 and the values 1, 2, 3. *)
Lemma sized_then_pushes_in_place_witness :
  0 <= 4 <= max_array_len /\ Z.of_nat (length [1; 2; 3]) <= 4 /\
  exists c h1 c' h',
    CircularArray_sized 0 4 ([] : heap Z) = Done (c, h1) /\
    Size c = 0 /\ Capacity c = 4 /\ data_array_ c = Some (length ([] : heap Z)) /\
    push_back_all 0 [1; 2; 3] c h1 = Done (c', h') /\
    to_list c' h' = Done ([1; 2; 3], h') /\
    data_array_ c' = data_array_ c /\ Capacity c' = 4 /\
    live_blocks h' = S (live_blocks ([] : heap Z)).
Proof.
  assert (H4 : 0 <= 4 <= max_array_len) by (vm_compute; split; discriminate).
  assert (H3 : Z.of_nat (length [1; 2; 3]) <= 4) by (vm_compute; discriminate).
  split; [exact H4|]. split; [exact H3|].
  exact (sized_then_pushes_in_place 0 4 [1; 2; 3] [] H4 H3).
Defined.

(** X18 at the wrapped container. *)
Lemma accessors_agree_with_index_witness :
  repr wrapped wrapped_heap [5; 6] /\ [5; 6] <> [] /\
  (exists r x, Front wrapped wrapped_heap = Done (r, wrapped_heap) /\
               index wrapped 0 wrapped_heap = Done (r, wrapped_heap) /\
               head [5; 6] = Some x /\ read r wrapped_heap = Done (x, wrapped_heap)) /\
  (tail_ok wrapped ->
   exists r x, Back wrapped wrapped_heap = Done (r, wrapped_heap) /\
               index wrapped (Size wrapped - 1) wrapped_heap = Done (r, wrapped_heap) /\
               last [5; 6] = Some x /\ read r wrapped_heap = Done (x, wrapped_heap)).
Proof.
  assert (Hne : [5; 6] <> ([] : list Z)) by discriminate.
  split; [exact wrapped_repr|]. split; [exact Hne|].
  exact (accessors_agree_with_index wrapped wrapped_heap [5; 6] wrapped_repr Hne).
Defined.

(** The container the fill constructor returns for the count 3 and the value
    7: full, with the tail pointer at 2. *)
Lemma filled_repr : repr (mkCA (Some 0%nat) 0 2 3 3) [Some [7; 7; 7]] [7; 7; 7].
Proof.
  apply (repr_intro _ _ [7; 7; 7] [7; 7; 7]).
  - reflexivity.
  - reflexivity.
  - vm_compute. discriminate.
  - vm_compute. split; discriminate.
  - intros _. vm_compute. split; [discriminate|reflexivity].
  - reflexivity.
  - intros [|[|[|i]]] Hi; [reflexivity|reflexivity|reflexivity|simpl in Hi; lia].
Qed.

(** X19 at the container the fill constructor returns for the count 3 and the
    value 7: a push to the back, then a pop from the front. *)
Lemma insertion_first_sets_tail_witness :
  repr (mkCA (Some 0%nat) 0 2 3 3) [Some [7; 7; 7]] [7; 7; 7] /\
  size_ (mkCA (Some 0%nat) 0 2 3 3) = capacity_ (mkCA (Some 0%nat) 0 2 3 3) /\
  inserts (OpPushBack 9) = true /\
  apply_ops [OpPushBack 9; OpPopFront] [7; 7; 7] = Some [7; 7; 9] /\
  run_ops 0 [OpPushBack 9; OpPopFront] (mkCA (Some 0%nat) 0 2 3 3) [Some [7; 7; 7]]
    = Done (mkCA (Some 1%nat) 1 4 3 6, [None; Some [7; 7; 7; 9; 0; 0]]) /\
  to_list (mkCA (Some 1%nat) 1 4 3 6) [None; Some [7; 7; 7; 9; 0; 0]]
    = Done ([7; 7; 9], [None; Some [7; 7; 7; 9; 0; 0]]) /\
  Size (mkCA (Some 1%nat) 1 4 3 6) = Z.of_nat (length [7; 7; 9]) /\
  tail_ok (mkCA (Some 1%nat) 1 4 3 6).
Proof.
  split; [exact filled_repr|]. split; [reflexivity|]. split; [reflexivity|].
  split; [reflexivity|]. split; [reflexivity|].
  exact (insertion_first_sets_tail 0 (OpPushBack 9) [OpPopFront] _ _
           [7; 7; 7] [7; 7; 9] _ _ filled_repr eq_refl eq_refl eq_refl eq_refl).
Defined.

(** The wrapped container next to a container holding 1, 2, 3. *)
Lemma neighbour_repr :
  repr (mkCA (Some 1%nat) 0 0 3 3) [Some [6; 5]; Some [1; 2; 3]] [1; 2; 3].
Proof.
  apply (repr_intro _ _ [1; 2; 3] [1; 2; 3]).
  - reflexivity.
  - reflexivity.
  - vm_compute. discriminate.
  - vm_compute. split; discriminate.
  - intros _. vm_compute. split; [discriminate|reflexivity].
  - reflexivity.
  - intros [|[|[|i]]] Hi; [reflexivity|reflexivity|reflexivity|simpl in Hi; lia].
Qed.

(** X20: a push grows the wrapped container while a container holding 1, 2, 3
    lives next to it. *)
Lemma operations_leave_other_containers_witness :
  repr (mkCA (Some 1%nat) 0 0 3 3) [Some [6; 5]; Some [1; 2; 3]] [1; 2; 3] /\
  data_array_ (mkCA (Some 1%nat) 0 0 3 3) <> data_array_ wrapped /\
  run_ops 0 [OpPushBack 7] wrapped [Some [6; 5]; Some [1; 2; 3]]
    = Done (mkCA (Some 2%nat) 0 3 3 4, [None; Some [1; 2; 3]; Some [5; 6; 7; 0]]) /\
  repr (mkCA (Some 1%nat) 0 0 3 3) [None; Some [1; 2; 3]; Some [5; 6; 7; 0]] [1; 2; 3] /\
  to_list (mkCA (Some 1%nat) 0 0 3 3) [None; Some [1; 2; 3]; Some [5; 6; 7; 0]]
    = Done ([1; 2; 3], [None; Some [1; 2; 3]; Some [5; 6; 7; 0]]) /\
  data_array_ (mkCA (Some 1%nat) 0 0 3 3) <> data_array_ (mkCA (Some 2%nat) 0 3 3 4).
Proof.
  assert (Hne : data_array_ (mkCA (Some 1%nat) 0 0 3 3) <> data_array_ wrapped)
    by discriminate.
  split; [exact neighbour_repr|]. split; [exact Hne|]. split; [reflexivity|].
  exact (operations_leave_other_containers 0 [OpPushBack 7] wrapped _ _ _ _ [1; 2; 3]
           neighbour_repr Hne eq_refl).
Defined.

(** X21 at the default-constructed container and the values 1, 2, 3. *)
Lemma fifo_lifo_round_trip_witness :
  repr CircularArray_default ([] : heap Z) [] /\ tail_ok CircularArray_default /\
  2 * Z.of_nat (length [1; 2; 3]) <= max_array_len /\
  (exists c1 h1 c2,
     push_back_all 0 [1; 2; 3] CircularArray_default [] = Done (c1, h1) /\
     drain_front (length [1; 2; 3]) c1 h1 = Done (([1; 2; 3], c2), h1)) /\
  (exists c1 h1 c2,
     push_front_all 0 [1; 2; 3] CircularArray_default [] = Done (c1, h1) /\
     drain_back (length [1; 2; 3]) c1 h1 = Done (([1; 2; 3], c2), h1)).
Proof.
  assert (Hfit : 2 * Z.of_nat (length [1; 2; 3]) <= max_array_len)
    by (vm_compute; discriminate).
  split; [apply repr_default|]. split; [exact tail_ok_default|]. split; [exact Hfit|].
  exact (fifo_lifo_round_trip 0 CircularArray_default [] [1; 2; 3]
           (repr_default []) tail_ok_default Hfit).
Defined.
